(** * rabbit: a reconnecting AMQP client wrapper

    A shallow embedding of the Go package [rabbit] (a wrapper around the
    amqp091 client) and of the properties of its public operations:
    option validation, [New], [Consume], [ConsumeOnce], [Publish], [Stop],
    [Close] and the background [runWatcher].

    Modelling conventions.
    - A Go [error] value is an [option error]; [None] is [nil].
    - Go [int], [Mode] and [time.Duration] are [Z].
    - [amqp.Table] and [map[string]interface{}] are [gmap string string];
      a nil map is [None] where the code tests for nil.
    - Everything the package asks of the outside world (dialling, channel
      operations, sleeping, calling the caller's handler) is appended to a
      log of [Effect]s; the answer of the outside world to the effect
      issued at log position [t] comes from the environment.
    - A [select] statement is resolved by the scheduler: the arm that
      fires is an input of the modelled function.
    - A send on a full channel and a lock that is held block: a function
      that can block for good says so in how it ended. The watcher's
      write locks are part of the instance; the public calls are
      described for the time between two rebuilds, when the read locks
      they take are free.
    - Loops that the code does not bound take a fuel argument. *)

From stdpp Require Import base numbers strings pretty list gmap.

Local Open Scope Z_scope.

(** ** Errors *)

(** [errors.New] / [fmt.Errorf], [errors.Wrap], and errors produced by the
    amqp client or by the caller's handler. *)
Inductive error : Type :=
| errors_New (msg : string)
| errors_Wrap (cause : error) (msg : string)
| foreign_error (msg : string).

Global Instance error_eq_dec : EqDecision error.
Proof. solve_decision. Defined.

(** The [Error()] string of an error value. *)
Fixpoint Error (e : error) : string :=
  match e with
  | errors_New msg => msg
  | errors_Wrap cause msg => msg +:+ ": " +:+ Error cause
  | foreign_error msg => msg
  end.

(** The chain of errors reachable from [e] by unwrapping, [e] included. *)
Fixpoint chain (e : error) : list error :=
  match e with
  | errors_Wrap cause _ => e :: chain cause
  | _ => [e]
  end.

Definition ErrShutdown : error := errors_New "client is shutdown".

(** ** Constants *)

Definition Mode := Z.

Definition DefaultRetryReconnectSec : Z := 60.
Definition Second : Z := 1000000000.
Definition DefaultStopTimeout : Z := 5 * Second.
Definition DefaultConnectionTimeout : Z := 30 * Second.
Definition Both : Mode := 0.
Definition Consumer : Mode := 1.
Definition Producer : Mode := 2.
Definition ForceReconnectHeader : string := "rabbit-force-reconnect".

(** ** Options *)

Record Binding : Type := mkBinding {
  ExchangeName : string;
  BindingKeys : list string;
  ExchangeDeclare : bool;
  ExchangeType : string;
  ExchangeDurable : bool;
  ExchangeAutoDelete : bool
}.

Record Options : Type := mkOptions {
  URLs : list string;
  OMode : Mode;
  QueueName : string;
  Bindings : list Binding;
  QosPrefetchCount : Z;
  QosPrefetchSize : Z;
  RetryReconnectSec : Z;
  QueueDurable : bool;
  QueueExclusive : bool;
  QueueAutoDelete : bool;
  QueueDeclare : bool;
  QueueArgs : option (gmap string string);
  AutoAck : bool;
  ConsumerTag : string;
  AppID : string;
  UseTLS : bool;
  SkipVerifyTLS : bool;
  ConnectionTimeout : Z
}.

Definition set_ConnectionTimeout (d : Z) (o : Options) : Options :=
  mkOptions (URLs o) (OMode o) (QueueName o) (Bindings o) (QosPrefetchCount o)
    (QosPrefetchSize o) (RetryReconnectSec o) (QueueDurable o)
    (QueueExclusive o) (QueueAutoDelete o) (QueueDeclare o) (QueueArgs o)
    (AutoAck o) (ConsumerTag o) (AppID o) (UseTLS o) (SkipVerifyTLS o) d.

(** ** Deliveries and error reports *)

Record Delivery : Type := mkDelivery {
  Headers : gmap string string;
  Acknowledger : option nat;
  Body : string
}.

Record ConsumeError : Type := mkConsumeError {
  CEMessage : Delivery;
  CEError : error
}.

(** A Go channel of [*ConsumeError]: its capacity, the buffered reports
    (oldest first) and the reports held by the sender goroutines that
    have been started and have not completed [errChan <- err], because
    they have not run yet or because they are blocked in the send. *)
Record ErrChan : Type := mkErrChan {
  ec_cap : nat;
  ec_buf : list ConsumeError;
  ec_blocked : list ConsumeError
}.

(** [len(errChan)] *)
Definition ec_len (c : ErrChan) : nat := length (ec_buf c).

(** The channel is full when the buffer holds [cap] elements. *)
Definition ec_full (c : ErrChan) : bool := bool_decide (ec_cap c ≤ ec_len c)%nat.

(** [go func() { errChan <- err }()]: a sender goroutine is started; it
    holds the report until its send completes. *)
Definition ec_go (ce : ConsumeError) (c : ErrChan) : ErrChan :=
  mkErrChan (ec_cap c) (ec_buf c) (ec_blocked c ++ [ce]).

(** The oldest sender goroutine executes [errChan <- err]: the report
    enters the buffer when there is room and the goroutine ends,
    otherwise the goroutine stays blocked holding it. *)
Definition ec_send (c : ErrChan) : ErrChan :=
  match ec_blocked c with
  | ce :: bl =>
      if bool_decide (ec_len c < ec_cap c)%nat
      then mkErrChan (ec_cap c) (ec_buf c ++ [ce]) bl
      else c
  | [] => c
  end.

(** The owner of the channel receives one report: the oldest buffered one,
    after which the oldest sender (if any) completes its send; with an
    empty buffer the receive is a rendezvous with a sender. *)
Definition ec_recv (c : ErrChan) : ErrChan :=
  match ec_buf c, ec_blocked c with
  | _ :: buf, s :: bl => mkErrChan (ec_cap c) (buf ++ [s]) bl
  | _ :: buf, [] => mkErrChan (ec_cap c) buf []
  | [], _ :: bl => mkErrChan (ec_cap c) [] bl
  | [], [] => c
  end.

(** ** The outside world *)

(** Handles of connections and of server channels: the log position at
    which the handle was obtained. *)
Definition ConnId := nat.
Definition ChanId := nat.

(** What the package asks of the amqp client, of the runtime and of the
    caller, in the order it asks. *)
Inductive Effect : Type :=
| EDialConfig (url : string) (timeout : Z) (tls : option bool)
| EDial (url : string)
| EDialTLS (url : string) (skipVerify : bool)
| EChannel (c : ConnId)
| EQos (ch : ChanId) (count size : Z)
| EQueueDeclare (ch : ChanId) (name : string) (durable autoDelete exclusive : bool)
    (args : option (gmap string string))
| EExchangeDeclare (ch : ChanId) (name kind : string) (durable autoDelete : bool)
| EQueueBind (ch : ChanId) (queue key exchange : string)
    (args : option (gmap string string))
| EConsume (ch : ChanId) (queue tag : string) (autoAck exclusive : bool)
| ENotifyClose (c : ConnId)
| EPublish (ch : ChanId) (exchange key body appId : string)
    (headers : option (gmap string string))
| EChanClose (ch : ChanId)
| EConnClose (c : ConnId)
| EHandler (msg : Delivery)
| EDuration (n : Z)               (* retry.Duration(n) *)
| ESleep (d : Z)
| EWriteError (ce : ConsumeError)
| ESignalReconnect
| ECancel
| EGoWatcher.

Definition Log := list Effect.

(** The caller's handler [f func(msg amqp.Delivery) error]; a Go closure
    may answer differently from call to call, so it also sees the log
    position at which it is called. *)
Definition Handler := nat → Delivery → option error.

(** The environment of one program run: the two package-level random
    defaults, the answers of the amqp client, and the [RetryPolicy] type,
    whose methods live in a file of the package that is not modelled here
    and are therefore taken as given: the state of a policy object and its
    three methods used by the consume loops. *)
Record Env : Type := mkEnv {
  DefaultConsumerTag : string;
  DefaultAppID : string;
  reply : nat → Effect → option error;
  RetryPolicy : Type;
  ShouldRetry : RetryPolicy → bool * RetryPolicy;
  Duration : RetryPolicy → Z → Z;
  AttemptCount : RetryPolicy → string
}.

(** ** The instance *)

Record Rabbit : Type := mkRabbit {
  Conn : option ConnId;
  ConsumerDeliveryChannel : option ChanId;
  ConsumerRWMutex : bool;          (* write-locked *)
  ConsumerWG : nat;
  NotifyCloseChan : option ConnId; (* the connection it is registered on *)
  ReconnectChan : nat;             (* signals in the buffer, of capacity 1 *)
  ReconnectInProgress : bool;
  ReconnectInProgressMtx : bool;   (* write-locked *)
  ProducerServerChannel : option ChanId;
  ProducerRWMutex : bool;          (* write-locked *)
  ROptions : Options;
  shutdown : bool;
  cancelled : bool                 (* r.ctx is done *)
}.

(** ** Computations that log effects *)

Definition M (A : Type) : Type := Log → A * Log.

Definition ret {A} (a : A) : M A := λ log, (a, log).

Definition bind {A B} (m : M A) (k : A → M B) : M B :=
  λ log, let '(a, log') := m log in k a log'.

Notation "'let*' x ':=' m 'in' k" := (bind m (λ x, k))
  (at level 10, x pattern, m at level 200, k at level 200, only parsing).

(** The log position of the next effect. *)
Definition now : M nat := λ log, (length log, log).

Definition run {A} (m : M A) : A * Log := m [].

(** ** Selects *)

(** The arm taken by the [select] of [Consume] and [ConsumeOnce]; the
    last three are not arms but steps of other tasks that happen while
    the call runs: the caller receives one report from the error channel,
    a sender goroutine started by [writeError] runs its send, the watcher
    receives one signal from [ReconnectChan]. *)
Inductive ConsumeEvent : Type :=
| Recv (msg : Delivery)
| CtxDone
| GlobalDone
| ErrChanRecv
| SenderRuns
| WatcherRecv.

(** The arm taken by the [select] of [Publish]. The goroutine that sends
    the message runs beside the select: when the cancellation arm is
    taken, [close_first] says whether the close of the channel comes
    before the send of the goroutine. *)
Inductive PublishArm : Type :=
| ArmDone
| ArmErr
| ArmCtxDone (close_first : bool).

(** The arm taken by the [select] of [Stop]. *)
Inductive StopArm : Type :=
| ArmWaited
| ArmTimeout.

(** The arm taken by the [select] of [runWatcher]. *)
Inductive WatcherEvent : Type :=
| NotifyClose
| ReconnectSignal.

(** How a function that contains an unbounded loop ended. *)
Inductive Ending : Type :=
| Returned
| Panicked (msg : string)
| Waiting        (* blocked in a select, no further event supplied *)
| Blocked        (* blocked in a channel send or in a lock *)
| OutOfFuel.

Global Instance Ending_eq_dec : EqDecision Ending.
Proof. solve_decision. Defined.

Definition is_dial (e : Effect) : bool :=
  match e with
  | EDialConfig _ _ _ | EDial _ | EDialTLS _ _ => true
  | _ => false
  end.

Section Model.

Variable env : Env.

(** Issue an effect and obtain the answer of the outside world. *)
Definition perform (e : Effect) : M (option error) :=
  λ log, (reply env (length log) e, log ++ [e]).

(** ** Validation of the options *)

(** The loop of [ValidateOptions] over [opts.URLs]. *)
Fixpoint hasValidURL (urls : list string) : bool :=
  match urls with
  | [] => false
  | url :: rest =>
      if bool_decide (0 < String.length url)%nat then true else hasValidURL rest
  end.

(** The loop of [validateBindings] over [opts.Bindings]. *)
Fixpoint validateEachBinding (mode : Mode) (bs : list Binding) : option error :=
  match bs with
  | [] => None
  | binding :: rest =>
      if ExchangeDeclare binding && bool_decide (ExchangeType binding = "")
      then Some (errors_New "ExchangeType cannot be empty if ExchangeDeclare set to true")
      else if bool_decide (ExchangeName binding = "")
      then Some (errors_New "ExchangeName cannot be empty")
      else if bool_decide (mode ≠ Producer)
              && bool_decide (length (BindingKeys binding) < 1)%nat
      then Some (errors_New "At least one BindingKeys must be specified")
      else validateEachBinding mode rest
  end.

Definition validateBindings (opts : Options) : option error :=
  if (bool_decide (OMode opts = Producer) || bool_decide (OMode opts = Both))
     && bool_decide (1 < length (Bindings opts))%nat
  then Some (errors_New "Exactly one Exchange must be specified when publishing messages")
  else validateEachBinding (OMode opts) (Bindings opts).

Definition applyDefaults (opts : Options) : Options :=
  mkOptions (URLs opts) (OMode opts) (QueueName opts) (Bindings opts)
    (QosPrefetchCount opts) (QosPrefetchSize opts)
    (if bool_decide (RetryReconnectSec opts = 0)
     then DefaultRetryReconnectSec else RetryReconnectSec opts)
    (QueueDurable opts) (QueueExclusive opts) (QueueAutoDelete opts)
    (QueueDeclare opts)
    (match QueueArgs opts with None => Some ∅ | Some args => Some args end)
    (AutoAck opts)
    (if bool_decide (ConsumerTag opts = "")
     then DefaultConsumerTag env else ConsumerTag opts)
    (if bool_decide (AppID opts = "") then DefaultAppID env else AppID opts)
    (UseTLS opts) (SkipVerifyTLS opts) (ConnectionTimeout opts).

Definition validMode (mode : Mode) : option error :=
  let found :=
    foldl (λ found validMode, if bool_decide (validMode = mode) then true else found)
      false [Both; Producer; Consumer] in
  if negb found
  then Some (errors_New ("invalid mode '" +:+ pretty mode +:+ "'"))
  else None.

(** [ValidateOptions] works on a pointer: the result is the error and
    the options as the call leaves them ([None] for a nil pointer). *)
Definition ValidateOptions (opts : option Options) : option Options * option error :=
  match opts with
  | None => (None, Some (errors_New "Options cannot be nil"))
  | Some o =>
      if negb (hasValidURL (URLs o))
      then (Some o, Some (errors_New "At least one non-empty URL must be provided"))
      else if bool_decide (length (Bindings o) = 0%nat)
      then (Some o, Some (errors_New "At least one Exchange must be specified"))
      else match validateBindings o with
           | Some err => (Some o, Some (errors_Wrap err "binding validation failed"))
           | None =>
               let o' := applyDefaults o in
               match validMode (OMode o') with
               | Some err => (Some o', Some err)
               | None => (Some o', None)
               end
           end
  end.

(** ** Building a session *)

(** The inner loop of [newServerChannel] over the binding keys. *)
Fixpoint bindKeys (ch : ChanId) (opts : Options) (exchange : string)
    (keys : list string) : M (option error) :=
  match keys with
  | [] => ret None
  | bindingKey :: rest =>
      let* err := perform (EQueueBind ch (QueueName opts) bindingKey exchange
                             (QueueArgs opts)) in
      match err with
      | Some e => ret (Some (errors_Wrap e "unable to bind queue"))
      | None => bindKeys ch opts exchange rest
      end
  end.

(** The outer loop of [newServerChannel] over the bindings. *)
Fixpoint declareBindings (ch : ChanId) (opts : Options) (bs : list Binding)
    : M (option error) :=
  match bs with
  | [] => ret None
  | binding :: rest =>
      let* err :=
        (if ExchangeDeclare binding
         then
           let* err := perform (EExchangeDeclare ch (ExchangeName binding)
                                  (ExchangeType binding) (ExchangeDurable binding)
                                  (ExchangeAutoDelete binding)) in
           ret (option_map (λ e, errors_Wrap e "unable to declare exchange") err)
         else ret None) in
      match err with
      | Some e => ret (Some e)
      | None =>
          let* err :=
            (if bool_decide (OMode opts ≠ Producer)
             then bindKeys ch opts (ExchangeName binding) (BindingKeys binding)
             else ret None) in
          match err with
          | Some e => ret (Some e)
          | None => declareBindings ch opts rest
          end
      end
  end.

Definition newServerChannel (r : Rabbit) : M (option ChanId * option error) :=
  match Conn r with
  | None =>
      ret (None, Some (errors_New
             "r.Conn is nil - did this get instantiated correctly? bug?"))
  | Some conn =>
      let opts := ROptions r in
      let* ch := now in
      let* err := perform (EChannel conn) in
      match err with
      | Some e => ret (None, Some (errors_Wrap e "unable to instantiate channel"))
      | None =>
      let* err := perform (EQos ch (QosPrefetchCount opts) (QosPrefetchSize opts)) in
      match err with
      | Some e => ret (None, Some (errors_Wrap e "unable to set qos policy"))
      | None =>
      let* err :=
        (if bool_decide (OMode opts ≠ Producer) && QueueDeclare opts
         then perform (EQueueDeclare ch (QueueName opts) (QueueDurable opts)
                         (QueueAutoDelete opts) (QueueExclusive opts)
                         (QueueArgs opts))
         else ret None) in
      match err with
      | Some e => ret (None, Some e)
      | None =>
      let* err := declareBindings ch opts (Bindings opts) in
      match err with
      | Some e => ret (None, Some e)
      | None => ret (Some ch, None)
      end end end end
  end.

Definition set_channels (prod cons : option ChanId) (r : Rabbit) : Rabbit :=
  mkRabbit (Conn r) cons (ConsumerRWMutex r) (ConsumerWG r) (NotifyCloseChan r)
    (ReconnectChan r) (ReconnectInProgress r) (ReconnectInProgressMtx r)
    prod (ProducerRWMutex r) (ROptions r) (shutdown r) (cancelled r).

Definition newConsumerChannel (r : Rabbit) : M (Rabbit * option error) :=
  let opts := ROptions r in
  let* (serverChannel, err) := newServerChannel r in
  match serverChannel, err with
  | Some ch, None =>
      let* err := perform (EConsume ch (QueueName opts) (ConsumerTag opts)
                             (AutoAck opts) (QueueExclusive opts)) in
      match err with
      | Some e => ret (r, Some (errors_Wrap e "unable to create delivery channel"))
      | None => ret (set_channels (Some ch) (Some ch) r, None)
      end
  | _, Some e => ret (r, Some (errors_Wrap e "unable to create new server channel"))
  | None, None => ret (r, None)
  end.

(** ** New *)

(** The loop of [New] over [opts.URLs]; [ac] and [err] are the two
    variables the loop assigns. *)
Fixpoint dialLoop (urls : list string) (opts : Options)
    (ac : option ConnId) (err : option error)
    : M (Options * option ConnId * option error) :=
  match urls with
  | [] => ret (opts, ac, err)
  | url :: rest =>
      let opts := if bool_decide (ConnectionTimeout opts ≤ 0)
                  then set_ConnectionTimeout DefaultConnectionTimeout opts
                  else opts in
      let* conn := now in
      let* err := perform (EDialConfig url (ConnectionTimeout opts)
                             (if UseTLS opts then Some (SkipVerifyTLS opts) else None)) in
      match err with
      | None => ret (opts, Some conn, None)
      | Some e => dialLoop rest opts None (Some e)
      end
  end.

Definition New (opts : option Options) : M (option Rabbit * option error) :=
  match ValidateOptions opts with
  | (_, Some err) => ret (None, Some (errors_Wrap err "invalid options"))
  | (None, None) => ret (None, None)
  | (Some opts, None) =>
      let* (opts, ac, err) := dialLoop (URLs opts) opts None None in
      match err with
      | Some e => ret (None, Some (errors_Wrap e "unable to dial server"))
      | None =>
          let r := mkRabbit ac None false 0 None 0 false false None false
                     opts false false in
          let* (r, err) :=
            (if bool_decide (OMode opts ≠ Producer)
             then newConsumerChannel r
             else ret (r, None)) in
          match err with
          | Some e =>
              ret (None, Some (errors_Wrap e "unable to get initial delivery channel"))
          | None =>
              let* _ := (match ac with
                         | Some c => perform (ENotifyClose c)
                         | None => ret None
                         end) in
              let* _ := perform EGoWatcher in
              ret (Some (mkRabbit (Conn r) (ConsumerDeliveryChannel r)
                           (ConsumerRWMutex r) (ConsumerWG r) ac
                           (ReconnectChan r) (ReconnectInProgress r)
                           (ReconnectInProgressMtx r) (ProducerServerChannel r)
                           (ProducerRWMutex r) (ROptions r) (shutdown r)
                           (cancelled r)), None)
          end
      end
  end.

(** An effect whose answer the code does not use. *)
Definition emit (e : Effect) : M unit := λ log, (tt, log ++ [e]).

(** ** Reporting errors *)

(** What [writeError] did with a report. *)
Inductive WriteOutcome : Type :=
| NilReport      (* err == nil *)
| NoChannel      (* errChan == nil *)
| Dropped        (* len(errChan) > 0 *)
| Dispatched.    (* go func() { errChan <- err }() *)

(** [writeError]: the channel as the call leaves it (the goroutine it
    starts has not run yet) and what was done with the report. *)
Definition writeError (errChan : option ErrChan) (err : option ConsumeError)
    : M (option ErrChan * WriteOutcome) :=
  match err with
  | None => ret (errChan, NilReport)
  | Some ce =>
      let* _ := emit (EWriteError ce) in
      match errChan with
      | None => ret (None, NoChannel)
      | Some c =>
          if bool_decide (0 < ec_len c)%nat
          then ret (Some c, Dropped)
          else ret (Some (ec_go ce c), Dispatched)
      end
  end.

(** ** Consume *)

(** The variables of one [Consume] call: the instance, the error
    channel, the policy object [retry] (nil when none was passed) and
    the counter [retries]. *)
Record ConsumeState : Type := mkCS {
  cs_r : Rabbit;
  cs_errChan : option ErrChan;
  cs_retry : option (RetryPolicy env);
  cs_retries : Z
}.

(** A signal enters the buffer of [ReconnectChan]. *)
Definition signal_reconnect (r : Rabbit) : Rabbit :=
  mkRabbit (Conn r) (ConsumerDeliveryChannel r) (ConsumerRWMutex r)
    (ConsumerWG r) (NotifyCloseChan r) (S (ReconnectChan r))
    (ReconnectInProgress r) (ReconnectInProgressMtx r)
    (ProducerServerChannel r) (ProducerRWMutex r) (ROptions r) (shutdown r)
    (cancelled r).

(** The receive [<-r.ReconnectChan] of the watcher. *)
Definition take_signal (r : Rabbit) : Rabbit :=
  mkRabbit (Conn r) (ConsumerDeliveryChannel r) (ConsumerRWMutex r)
    (ConsumerWG r) (NotifyCloseChan r) (pred (ReconnectChan r))
    (ReconnectInProgress r) (ReconnectInProgressMtx r)
    (ProducerServerChannel r) (ProducerRWMutex r) (ROptions r) (shutdown r)
    (cancelled r).

(** [ReconnectChan: make(chan struct{}, 1)] *)
Definition ReconnectChanCap : nat := 1.

(** The send [r.ReconnectChan <- struct{}{}]: the signal enters the
    buffer when there is room; [None] when the buffer is full and the
    sender blocks. *)
Definition send_signal (r : Rabbit) : option Rabbit :=
  if bool_decide (ReconnectChan r < ReconnectChanCap)%nat
  then Some (signal_reconnect r) else None.

Definition set_WG (n : nat) (r : Rabbit) : Rabbit :=
  mkRabbit (Conn r) (ConsumerDeliveryChannel r) (ConsumerRWMutex r)
    n (NotifyCloseChan r) (ReconnectChan r)
    (ReconnectInProgress r) (ReconnectInProgressMtx r)
    (ProducerServerChannel r) (ProducerRWMutex r) (ROptions r) (shutdown r)
    (cancelled r).

(** The test of both consume functions for a delivery that must not be
    handled; [Consume] looks at the header and at the acknowledger,
    [ConsumeOnce] at the acknowledger only. *)
Definition poisoned (msg : Delivery) : bool :=
  bool_decide (is_Some (Headers msg !! ForceReconnectHeader))
  || bool_decide (Acknowledger msg = None).

(** The loop labelled [RETRY] in [Consume]. *)
Fixpoint consumeRetry (fuel : nat) (f : Handler) (msg : Delivery)
    (s : ConsumeState) : M (Ending * ConsumeState) :=
  match fuel with
  | O => ret (OutOfFuel, s)
  | S fuel =>
      let* t := now in
      let* _ := emit (EHandler msg) in
      match f t msg with
      | None => ret (Returned, s)
      | Some err =>
          let final (retry : option (RetryPolicy env)) :=
            let* (errChan, _) :=
              writeError (cs_errChan s)
                (Some (mkConsumeError msg
                   (errors_New ("error during consume: " +:+ Error err)))) in
            ret (Returned, mkCS (cs_r s) errChan retry (cs_retries s)) in
          match cs_retry s with
          | None => final None
          | Some rp =>
              let (again, rp) := ShouldRetry env rp in
              if again then
                let* _ := emit (EDuration (cs_retries s)) in
                let dur := Duration env rp (cs_retries s) in
                let* (errChan, _) :=
                  writeError (cs_errChan s)
                    (Some (mkConsumeError msg
                       (errors_New ("[Retry " +:+ AttemptCount env rp
                                    +:+ "] error during consume: "
                                    +:+ Error err)))) in
                let* _ := emit (ESleep dur) in
                consumeRetry fuel f msg
                  (mkCS (cs_r s) errChan (Some rp) (cs_retries s + 1))
              else final (Some rp)
          end
      end
  end.

(** The loop labelled [MAIN] in [Consume]; [fuel] bounds each run of the
    retry loop. [sending] says that the loop is blocked in the send
    [r.ReconnectChan <- struct{}{}], which is outside the select: no arm
    can fire then, and the loop goes on when the watcher has received the
    signal that fills the buffer. [ESignalReconnect] is logged when the
    send starts. *)
Fixpoint consumeLoop (fuel : nat) (f : Handler) (events : list ConsumeEvent)
    (sending : bool) (s : ConsumeState) : M (Ending * ConsumeState) :=
  match events with
  | [] => ret (if sending then Blocked else Waiting, s)
  | Recv msg :: rest =>
      if sending then ret (Blocked, s)
      else if poisoned msg then
        let* (errChan, _) :=
          writeError (cs_errChan s)
            (Some (mkConsumeError msg
               (errors_New "nil acknowledger detected - sending reconnect signal"))) in
        let* _ := emit ESignalReconnect in
        match send_signal (cs_r s) with
        | Some r =>
            consumeLoop fuel f rest false
              (mkCS r errChan (cs_retry s) (cs_retries s))
        | None =>
            consumeLoop fuel f rest true
              (mkCS (cs_r s) errChan (cs_retry s) (cs_retries s))
        end
      else
        let* (ending, s) := consumeRetry fuel f msg s in
        match ending with
        | Returned => consumeLoop fuel f rest false s
        | other => ret (other, s)
        end
  | CtxDone :: _ => ret (if sending then Blocked else Returned, s)
  | GlobalDone :: _ => ret (if sending then Blocked else Returned, s)
  | ErrChanRecv :: rest =>
      consumeLoop fuel f rest sending
        (mkCS (cs_r s) (ec_recv <$> cs_errChan s) (cs_retry s) (cs_retries s))
  | SenderRuns :: rest =>
      consumeLoop fuel f rest sending
        (mkCS (cs_r s) (ec_send <$> cs_errChan s) (cs_retry s) (cs_retries s))
  | WatcherRecv :: rest =>
      let r := take_signal (cs_r s) in
      if sending then
        match send_signal r with
        | Some r =>
            consumeLoop fuel f rest false
              (mkCS r (cs_errChan s) (cs_retry s) (cs_retries s))
        | None =>
            consumeLoop fuel f rest true
              (mkCS r (cs_errChan s) (cs_retry s) (cs_retries s))
        end
      else
        consumeLoop fuel f rest false
          (mkCS r (cs_errChan s) (cs_retry s) (cs_retries s))
  end.

(** [Consume(ctx, errChan, f, rp...)]; [events] is what the selects of
    the call see, in order, with the steps of the other tasks between
    them. [Consume] returns nothing: the result is how the call ended
    and the variables as it left them. The wait group is released by the
    deferred [Done] only when the call returns. *)
Definition Consume (r : Rabbit) (errChan : option ErrChan) (f : Handler)
    (rp : list (RetryPolicy env)) (fuel : nat) (events : list ConsumeEvent)
    : M (Ending * ConsumeState) :=
  let retry := head rp in
  if shutdown r then ret (Returned, mkCS r errChan retry 0)
  else if bool_decide (OMode (ROptions r) = Producer)
  then ret (Returned, mkCS r errChan retry 0)
  else
    let r := set_WG (S (ConsumerWG r)) r in
    let* (ending, s) := consumeLoop fuel f events false (mkCS r errChan retry 0) in
    match ending with
    | Returned =>
        ret (Returned,
             mkCS (set_WG (pred (ConsumerWG (cs_r s))) (cs_r s)) (cs_errChan s)
               (cs_retry s) (cs_retries s))
    | other => ret (other, s)
    end.

(** ** ConsumeOnce *)

(** The loop labelled [RETRY] in [ConsumeOnce]. *)
Fixpoint consumeOnceRetry (fuel : nat) (f : Handler) (msg : Delivery)
    (retry : option (RetryPolicy env)) (retries : Z)
    : M (Ending * option (RetryPolicy env) * option error) :=
  match fuel with
  | O => ret (OutOfFuel, retry, None)
  | S fuel =>
      let* t := now in
      let* _ := emit (EHandler msg) in
      match f t msg with
      | None => ret (Returned, retry, None)
      | Some err =>
          match retry with
          | None => ret (Returned, None, Some err)
          | Some rp =>
              let (again, rp) := ShouldRetry env rp in
              if again then
                let* _ := emit (EDuration retries) in
                let dur := Duration env rp retries in
                let* _ := emit (ESleep dur) in
                consumeOnceRetry fuel f msg (Some rp) (retries + 1)
              else ret (Returned, Some rp, Some err)
          end
      end
  end.

(** [ConsumeOnce(ctx, runFunc, rp...)]; [event] is the arm its select
    takes, if any. With the buffer of [ReconnectChan] full the send of
    the signal blocks; what the call does once the watcher has received
    is not followed. *)
Definition ConsumeOnce (r : Rabbit) (runFunc : Handler)
    (rp : list (RetryPolicy env)) (fuel : nat) (event : option ConsumeEvent)
    : M (Ending * Rabbit * option (RetryPolicy env) * option error) :=
  let retry := head rp in
  if shutdown r then ret (Returned, r, retry, Some ErrShutdown)
  else if bool_decide (OMode (ROptions r) = Producer)
  then ret (Returned, r, retry,
            Some (errors_New
              "unable to ConsumeOnce - library is configured in Producer mode"))
  else
    match event with
    | Some (Recv msg) =>
        if bool_decide (Acknowledger msg = None) then
          let* _ := emit ESignalReconnect in
          match send_signal r with
          | Some r =>
              ret (Returned, r, retry,
                   Some (errors_New
                     "detected nil acknowledger - sent signal to reconnect to RabbitMQ"))
          | None => ret (Blocked, r, retry, None)
          end
        else
          let* (ending, retry, err) := consumeOnceRetry fuel runFunc msg retry 0 in
          ret (ending, r, retry, err)
    | Some CtxDone => ret (Returned, r, retry, None)
    | Some GlobalDone => ret (Returned, r, retry, None)
    | Some ErrChanRecv | Some SenderRuns | Some WatcherRecv | None =>
        ret (Waiting, r, retry, None)
    end.

(** ** Publish *)

Definition set_producer (ch : option ChanId) (r : Rabbit) : Rabbit :=
  set_channels ch (ConsumerDeliveryChannel r) r.

(** [Publish(ctx, routingKey, body, headers...)]. [ctx] says whether the
    context is done; [arm] is the arm the final select takes. The
    goroutine that sends is started before the select. On the arms
    [ArmDone] and [ArmErr] its send has been made, and of the two the one
    is taken that the outcome of the send makes ready. The arm
    [ArmCtxDone] can only be taken with a done context; the close it
    makes and the send of the goroutine are logged in the order in which
    they happen. *)
Definition Publish (r : Rabbit) (ctx_done : bool) (routingKey body : string)
    (headers : list (gmap string string)) (arm : PublishArm)
    : M (Rabbit * option error) :=
  if shutdown r then ret (r, Some ErrShutdown)
  else if bool_decide (OMode (ROptions r) = Consumer)
  then ret (r, Some (errors_New
              "unable to Publish - library is configured in Consumer mode"))
  else
    let* (r, err) :=
      (match ProducerServerChannel r with
       | Some _ => ret (r, None)
       | None =>
           let* (ch, err) := newServerChannel r in
           match err with
           | Some e => ret (r, Some (errors_Wrap e "unable to create server channel"))
           | None => ret (set_producer ch r, None)
           end
       end) in
    match err, ProducerServerChannel r with
    | Some e, _ => ret (r, Some e)
    | None, None => ret (r, None)
    | None, Some ch =>
        let exchange := default "" (ExchangeName <$> head (Bindings (ROptions r))) in
        let send := EPublish ch exchange routingKey body
                      (AppID (ROptions r)) (head headers) in
        let after_close (err : option error) : M (Rabbit * option error) :=
          match err with
          | Some e => ret (r, Some (errors_Wrap e "failed to close producer channel"))
          | None => ret (r, Some (errors_New "context cancelled"))
          end in
        match arm, ctx_done with
        | ArmCtxDone true, true =>
            let* err := perform (EChanClose ch) in
            let* _ := perform send in
            after_close err
        | ArmCtxDone false, true =>
            let* _ := perform send in
            let* err := perform (EChanClose ch) in
            after_close err
        | _, _ =>
            let* sent := perform send in
            match sent with
            | None => ret (r, None)
            | Some e => ret (r, Some (errors_Wrap e "failed to publish message"))
            end
        end
    end.

(** ** Stop and Close *)

Definition set_cancelled (r : Rabbit) : Rabbit :=
  mkRabbit (Conn r) (ConsumerDeliveryChannel r) (ConsumerRWMutex r)
    (ConsumerWG r) (NotifyCloseChan r) (ReconnectChan r)
    (ReconnectInProgress r) (ReconnectInProgressMtx r)
    (ProducerServerChannel r) (ProducerRWMutex r) (ROptions r) (shutdown r)
    true.

Definition set_shutdown (r : Rabbit) : Rabbit :=
  mkRabbit (Conn r) (ConsumerDeliveryChannel r) (ConsumerRWMutex r)
    (ConsumerWG r) (NotifyCloseChan r) (ReconnectChan r)
    (ReconnectInProgress r) (ReconnectInProgressMtx r)
    (ProducerServerChannel r) (ProducerRWMutex r) (ROptions r) true
    (cancelled r).

(** [Stop(timeout...)]; [arm] is the arm its select takes: the wait
    group was released, or the timer fired. The duration in the message
    is printed as its number of nanoseconds. *)
Definition Stop (r : Rabbit) (timeout : list Z) (arm : StopArm)
    : M (Rabbit * option error) :=
  let* _ := emit ECancel in
  let r := set_cancelled r in
  let stopTimeout := default DefaultStopTimeout (head timeout) in
  match arm with
  | ArmWaited => ret (r, None)
  | ArmTimeout =>
      ret (r, Some (errors_New ("timeout waiting for consumer to stop after '"
                                +:+ pretty stopTimeout +:+ "'")))
  end.

(** [Close()]. An instance made by [New] has a connection, and [Close]
    is described for such an instance; on one without connection the
    source would dereference nil in [r.Conn.Close()]. *)
Definition Close (r : Rabbit) : M (Rabbit * option error) :=
  if shutdown r then ret (r, Some ErrShutdown)
  else
    let* _ := emit ECancel in
    let r := set_cancelled r in
    let* err := (match Conn r with
                 | Some c => perform (EConnClose c)
                 | None => ret None
                 end) in
    match err with
    | Some e =>
        ret (r, Some (errors_New ("unable to close amqp connection: " +:+ Error e)))
    | None => ret (set_shutdown r, None)
    end.

(** ** The watcher *)

Definition set_Conn (c : option ConnId) (r : Rabbit) : Rabbit :=
  mkRabbit c (ConsumerDeliveryChannel r) (ConsumerRWMutex r)
    (ConsumerWG r) (NotifyCloseChan r) (ReconnectChan r)
    (ReconnectInProgress r) (ReconnectInProgressMtx r)
    (ProducerServerChannel r) (ProducerRWMutex r) (ROptions r) (shutdown r)
    (cancelled r).

Definition set_NotifyCloseChan (c : option ConnId) (r : Rabbit) : Rabbit :=
  mkRabbit (Conn r) (ConsumerDeliveryChannel r) (ConsumerRWMutex r)
    (ConsumerWG r) c (ReconnectChan r)
    (ReconnectInProgress r) (ReconnectInProgressMtx r)
    (ProducerServerChannel r) (ProducerRWMutex r) (ROptions r) (shutdown r)
    (cancelled r).

(** Sets the two session locks. *)
Definition set_session_locks (b : bool) (r : Rabbit) : Rabbit :=
  mkRabbit (Conn r) (ConsumerDeliveryChannel r) b
    (ConsumerWG r) (NotifyCloseChan r) (ReconnectChan r)
    (ReconnectInProgress r) (ReconnectInProgressMtx r)
    (ProducerServerChannel r) b (ROptions r) (shutdown r)
    (cancelled r).

(** Sets the flag [ReconnectInProgress] and its lock. *)
Definition set_in_progress (b : bool) (r : Rabbit) : Rabbit :=
  mkRabbit (Conn r) (ConsumerDeliveryChannel r) (ConsumerRWMutex r)
    (ConsumerWG r) (NotifyCloseChan r) (ReconnectChan r)
    b b
    (ProducerServerChannel r) (ProducerRWMutex r) (ROptions r) (shutdown r)
    (cancelled r).

(** Sets the flag [ReconnectInProgress] alone. *)
Definition set_ReconnectInProgress (b : bool) (r : Rabbit) : Rabbit :=
  mkRabbit (Conn r) (ConsumerDeliveryChannel r) (ConsumerRWMutex r)
    (ConsumerWG r) (NotifyCloseChan r) (ReconnectChan r)
    b (ReconnectInProgressMtx r)
    (ProducerServerChannel r) (ProducerRWMutex r) (ROptions r) (shutdown r)
    (cancelled r).

(** Sets the consumer lock alone. *)
Definition set_ConsumerRWMutex (b : bool) (r : Rabbit) : Rabbit :=
  mkRabbit (Conn r) (ConsumerDeliveryChannel r) b
    (ConsumerWG r) (NotifyCloseChan r) (ReconnectChan r)
    (ReconnectInProgress r) (ReconnectInProgressMtx r)
    (ProducerServerChannel r) (ProducerRWMutex r) (ROptions r) (shutdown r)
    (cancelled r).

(** [getReconnectInProgress] reads the flag under the read lock of
    [ReconnectInProgressMtx]: [None] when the lock is write-locked and
    the call blocks. *)
Definition getReconnectInProgress (r : Rabbit) : option bool :=
  if ReconnectInProgressMtx r then None else Some (ReconnectInProgress r).

(** The value of an [int64] computation, which wraps around. *)
Definition int64 (z : Z) : Z := (z + 2 ^ 63) `mod` 2 ^ 64 - 2 ^ 63.

(** The loop of [reconnect] over [r.Options.URLs]. *)
Fixpoint redialLoop (urls : list string) (opts : Options)
    (ac : option ConnId) (err : option error) : M (option ConnId * option error) :=
  match urls with
  | [] => ret (ac, err)
  | url :: rest =>
      let* conn := now in
      let* err := perform (if UseTLS opts
                           then EDialTLS url (SkipVerifyTLS opts)
                           else EDial url) in
      match err with
      | None => ret (Some conn, None)
      | Some e => redialLoop rest opts None (Some e)
      end
  end.

Definition reconnect (r : Rabbit) : M (Rabbit * option error) :=
  let* (ac, err) := redialLoop (URLs (ROptions r)) (ROptions r) None None in
  match err with
  | Some e => ret (r, Some (errors_Wrap e "all servers failed on reconnect"))
  | None => ret (set_Conn ac r, None)
  end.

(** The inner loop of [runWatcher]: [reconnect] until it succeeds,
    sleeping between attempts; [None] when the fuel runs out first. *)
Fixpoint reconnectLoop (fuel : nat) (r : Rabbit) : M (option Rabbit) :=
  match fuel with
  | O => ret None
  | S fuel =>
      let* (r, err) := reconnect r in
      match err with
      | Some _ =>
          let* _ := emit (ESleep (int64 (RetryReconnectSec (ROptions r) * Second))) in
          reconnectLoop fuel r
      | None => ret (Some r)
      end
  end.

(** The update of the session in a turn of [runWatcher], on the
    connection [c] that [reconnect] has set: the registration for the
    close notification, then the new channel. *)
Definition renewSession (c : ConnId) (r : Rabbit) : M (Rabbit * option error) :=
  let* _ := perform (ENotifyClose c) in
  if bool_decide (OMode (ROptions r) = Producer)
  then
    let* (serverChannel, err) := newServerChannel r in
    match err with
    | Some e => ret (r, Some e)
    | None => ret (set_producer serverChannel r, None)
    end
  else newConsumerChannel r.

(** The part of a turn of [runWatcher] that runs under the two session
    locks, from [r.ConsumerRWMutex.Lock()] to [r.ProducerRWMutex.Unlock()];
    [None] as ending when it reaches the unlocks. A session lock that is
    held blocks it. Without a connection to register on (which [reconnect]
    leaves when no URL is configured) the call of [NotifyClose]
    dereferences nil. *)
Definition rebuild (fuel : nat) (r : Rabbit) : M (option Ending * Rabbit) :=
  if ConsumerRWMutex r then ret (Some Blocked, r)
  else if ProducerRWMutex r then ret (Some Blocked, set_ConsumerRWMutex true r)
  else
    let r := set_session_locks true r in
    let* reconnected := reconnectLoop fuel r in
    match reconnected with
    | None => ret (Some OutOfFuel, r)
    | Some r =>
        let r := set_NotifyCloseChan (Conn r) r in
        match Conn r with
        | None =>
            ret (Some (Panicked "invalid memory address or nil pointer dereference"),
                 r)
        | Some c =>
            let* (r, err) := renewSession c r in
            match err with
            | Some e =>
                ret (Some (Panicked ("unable to set new channel: " +:+ Error e)), r)
            | None => ret (None, set_session_locks false r)
            end
        end
    end.

(** One turn of the outer loop of [runWatcher]; [None] as ending when
    the turn reaches the end of the loop body, so that the loop goes on.
    When the flag is found set at the end of a turn while its lock is
    free, [Unlock] aborts the program, which is recorded as a panic. *)
Definition watcherTurn (fuel : nat) (ev : WatcherEvent) (r : Rabbit)
    : M (option Ending * Rabbit) :=
  let proceed (r : Rabbit) : M (option Ending * Rabbit) :=
    let* (ending, r) := rebuild fuel r in
    match ending with
    | Some e => ret (Some e, r)
    | None =>
        if ReconnectInProgress r then
          if ReconnectInProgressMtx r
          then ret (None, set_in_progress false r)
          else ret (Some (Panicked "sync: Unlock of unlocked RWMutex"),
                    set_ReconnectInProgress false r)
        else ret (None, r)
    end in
  match ev with
  | NotifyClose => proceed r
  | ReconnectSignal =>
      let r := take_signal r in
      match getReconnectInProgress r with
      | None => ret (Some Blocked, r)
      | Some true => ret (Some Returned, r)
      | Some false => proceed (set_in_progress true r)
      end
  end.

(** [runWatcher()]; [events] is what its select sees, in order. *)
Fixpoint runWatcher (fuel : nat) (events : list WatcherEvent) (r : Rabbit)
    : M (Ending * Rabbit) :=
  match events with
  | [] => ret (Waiting, r)
  | ev :: rest =>
      let* (ending, r) := watcherTurn fuel ev r in
      match ending with
      | None => runWatcher fuel rest r
      | Some e => ret (e, r)
      end
  end.

End Model.

(** * Sample inputs

    Some environments and inputs used to run the model. *)

Definition a_binding : Binding :=
  mkBinding "ex" ["k"] false "" false false.

Definition some_options (urls : list string) (m : Mode) (bs : list Binding) : Options :=
  mkOptions urls m "q" bs 0 0 0 false false false false None false "" "" false false 0.

(** Two endpoints. *)
Definition two_endpoints : Options :=
  some_options ["amqp://a"; "amqp://b"] Both [a_binding].

(** A policy object that counts the calls of [ShouldRetry] and allows
    [max] retries. *)
Definition counting_env (answers : nat → Effect → option error) (max : nat) : Env :=
  mkEnv "c-rabbit-00000000" "p-rabbit-00000000" answers
    nat
    (λ n, (bool_decide (n < max)%nat, S n))
    (λ _ k, k * 10)
    (λ n, pretty n).

(** Every request to the outside world succeeds. *)
Definition all_fine : nat → Effect → option error := λ _ _, None.


(** Dialling works, opening a server channel does not. *)
Definition no_channel : nat → Effect → option error :=
  λ _ e, match e with
         | EChannel _ => Some (foreign_error "channel/connection is not open")
         | _ => None
         end.

(** Three deliveries: an ordinary one, one without acknowledger (what a
    closed delivery channel yields) and one that asks for a reconnect. *)
Definition plain_delivery (body : string) : Delivery := mkDelivery ∅ (Some 0%nat) body.
Definition nil_ack_delivery : Delivery := mkDelivery ∅ None "".
Definition force_reconnect_delivery : Delivery :=
  mkDelivery {[ ForceReconnectHeader := "1" ]} (Some 0%nat) "bye".

Definition always_ok : Handler := λ _ _, None.
Definition always_fail : Handler := λ _ _, Some (foreign_error "boom").
(** Fails when called at one of the given log positions. *)
Definition fail_at (ts : list nat) : Handler :=
  λ t _, if bool_decide (t ∈ ts) then Some (foreign_error "boom") else None.

(** An instance as [New] returns it for one endpoint and one binding in
    the given mode, when the outside world answers every request. *)
Definition an_instance (m : Mode) : Rabbit :=
  mkRabbit (Some 0%nat)
    (if bool_decide (m = Producer) then None else Some 1%nat)
    false 0 (Some 0%nat) 0 false false
    (if bool_decide (m = Producer) then None else Some 1%nat)
    false
    (mkOptions ["amqp://a"] m "q" [a_binding] 0 0 60 false false false false
       (Some ∅) false "c-rabbit-00000000" "p-rabbit-00000000" false false
       DefaultConnectionTimeout)
    false false.

(** The sample instance with one reconnect signal waiting. *)
Definition signalled_instance : Rabbit := signal_reconnect (an_instance Both).

(** A server channel that was closed answers no request: every publish
    from log position [t0] on fails. *)
Definition closed_from (t0 : nat) : nat → Effect → option error :=
  λ t e, match e with
         | EPublish _ _ _ _ _ _ =>
             if bool_decide (t0 ≤ t)%nat
             then Some (foreign_error "channel/connection is not open")
             else None
         | _ => None
         end.

(** A dial issued before log position [2 * n] fails, everything else
    succeeds; in the redial loop of the watcher, where a sleep follows each
    failed dial, these are the first [n] dials. *)
Definition down_for (n : nat) : nat → Effect → option error :=
  λ t e, if is_dial e && bool_decide (t < 2 * n)%nat
         then Some (foreign_error "connection refused") else None.

(** Closing the connection fails, everything else succeeds. *)
Definition no_close : nat → Effect → option error :=
  λ _ e, match e with
         | EConnClose _ => Some (foreign_error "connection reset")
         | _ => None
         end.

Arguments writeError : simpl never.
Arguments cs_r {env} _.
Arguments cs_errChan {env} _.
Arguments cs_retry {env} _.
Arguments cs_retries {env} _.

(** * Vocabulary of the properties *)

(** The error [New] returns for options that fail validation. *)
Definition ConfigError (e : error) : Prop :=
  ∃ cause, e = errors_Wrap cause "invalid options".



Definition allows_publishing (m : Mode) : Prop := m = Producer ∨ m = Both.
Definition requires_consuming (m : Mode) : Prop := m = Consumer ∨ m = Both.

Definition is_channel_open (e : Effect) : bool :=
  match e with EChannel _ => true | _ => false end.

Definition not_signal (e : Effect) : Prop := e ≠ ESignalReconnect.

(** A channel holds at most as many reports as its capacity. *)
Definition ec_wf (c : ErrChan) : Prop := (ec_len c ≤ ec_cap c)%nat.

(** The requests [newServerChannel] and [newConsumerChannel] make. *)
Definition is_session (e : Effect) : bool :=
  match e with
  | EChannel _ | EQos _ _ _ | EQueueDeclare _ _ _ _ _ _
  | EExchangeDeclare _ _ _ _ _ | EQueueBind _ _ _ _ _ | EConsume _ _ _ _ _ => true
  | _ => false
  end.

(** The arguments of the calls of [retry.Duration] in a log, in order. *)
Definition duration_args (log : Log) : list Z :=
  omap (λ e, match e with EDuration n => Some n | _ => None end) log.

(** The timeout [New] dials with. *)
Definition dial_timeout (opts : Options) : Z :=
  if bool_decide (ConnectionTimeout opts ≤ 0)
  then DefaultConnectionTimeout else ConnectionTimeout opts.

(** The dial [New] issues for a URL. *)
Definition dial_of (opts : Options) (url : string) : Effect :=
  EDialConfig url (dial_timeout opts)
    (if UseTLS opts then Some (SkipVerifyTLS opts) else None).

(** The send of [Publish] on server channel [ch]. *)
Definition send_of (r : Rabbit) (ch : ChanId) (routingKey body : string)
    (headers : list (gmap string string)) : Effect :=
  EPublish ch (default "" (ExchangeName <$> head (Bindings (ROptions r))))
    routingKey body (AppID (ROptions r)) (head headers).

(** The options as the dial loop of [New] leaves them. *)
Definition with_timeout (opts : Options) : Options :=
  if bool_decide (ConnectionTimeout opts ≤ 0)
  then set_ConnectionTimeout DefaultConnectionTimeout opts else opts.


(** A computation only appends to the log, and what it appends satisfies [P]. *)
Definition appends {A} (P : Effect → Prop) (m : M A) : Prop :=
  ∀ log, ∃ rest, (m log).2 = log ++ rest ∧ Forall P rest.

(** What [validateBindings] asks of one binding. *)
Definition valid_binding (mode : Mode) (b : Binding) : Prop :=
  (ExchangeDeclare b = true → ExchangeType b ≠ "")
  ∧ ExchangeName b ≠ ""
  ∧ (mode ≠ Producer → BindingKeys b ≠ []).

(** What [ValidateOptions] asks of the options. *)
Definition valid_options (o : Options) : Prop :=
  (∃ url, url ∈ URLs o ∧ url ≠ "")
  ∧ Bindings o ≠ []
  ∧ (allows_publishing (OMode o) → length (Bindings o) = 1%nat)
  ∧ Forall (valid_binding (OMode o)) (Bindings o)
  ∧ (OMode o = Both ∨ OMode o = Consumer ∨ OMode o = Producer).

(** The requests one binding asks for on server channel [ch]: the
    declaration of its exchange, when wanted, then one bind per key unless
    the mode is producer only. *)
Definition binding_plan (ch : ChanId) (opts : Options) (b : Binding) : list Effect :=
  (if ExchangeDeclare b
   then [EExchangeDeclare ch (ExchangeName b) (ExchangeType b) (ExchangeDurable b)
           (ExchangeAutoDelete b)]
   else [])
  ++ (if bool_decide (OMode opts ≠ Producer)
      then map (λ key, EQueueBind ch (QueueName opts) key (ExchangeName b)
                         (QueueArgs opts)) (BindingKeys b)
      else []).

(** The requests a whole session asks for, in order. *)
Definition session_plan (conn : ConnId) (ch : ChanId) (opts : Options) : list Effect :=
  [EChannel conn; EQos ch (QosPrefetchCount opts) (QosPrefetchSize opts)]
  ++ (if bool_decide (OMode opts ≠ Producer) && QueueDeclare opts
      then [EQueueDeclare ch (QueueName opts) (QueueDurable opts)
              (QueueAutoDelete opts) (QueueExclusive opts) (QueueArgs opts)]
      else [])
  ++ concat (map (binding_plan ch opts) (Bindings opts)).

(** The request that opens the delivery stream. *)
Definition consume_of (ch : ChanId) (opts : Options) : Effect :=
  EConsume ch (QueueName opts) (ConsumerTag opts) (AutoAck opts) (QueueExclusive opts).

(** Requests that touch a queue. *)
Definition is_queue_request (e : Effect) : bool :=
  match e with
  | EQueueDeclare _ _ _ _ _ _ | EQueueBind _ _ _ _ _ | EConsume _ _ _ _ _ => true
  | _ => false
  end.

(** Requests that close a connection or a server channel. *)
Definition is_close (e : Effect) : bool :=
  match e with EConnClose _ | EChanClose _ => true | _ => false end.

(** What [New] may ask for: dials, session requests, the registration for
    the close notification and the start of the watcher. *)
Definition is_setup (e : Effect) : bool :=
  is_dial e || is_session e
  || match e with ENotifyClose _ | EGoWatcher => true | _ => false end.

Definition is_signal (e : Effect) : bool :=
  match e with ESignalReconnect => true | _ => false end.

Definition is_report (e : Effect) : bool :=
  match e with EWriteError _ => true | _ => false end.

(** Sleeps and calls of [retry.Duration]. *)
Definition is_backoff (e : Effect) : bool :=
  match e with ESleep _ | EDuration _ => true | _ => false end.

(** The deliveries on which a log shows a call of the handler, in order. *)
Definition handled (log : Log) : list Delivery :=
  omap (λ e, match e with EHandler msg => Some msg | _ => None end) log.

(** The number of calls of the handler in [rest] that returned an error,
    when [rest] starts at log position [t]. *)
Fixpoint failures (f : Handler) (t : nat) (rest : list Effect) : nat :=
  match rest with
  | [] => 0
  | e :: rest' =>
      (match e with
       | EHandler msg => match f t msg with Some _ => 1 | None => 0 end
       | _ => 0
       end + failures f (S t) rest')%nat
  end.

(** The deliveries that arrive before the first cancellation. *)
Fixpoint consumed (events : list ConsumeEvent) : list Delivery :=
  match events with
  | [] => []
  | Recv msg :: rest => msg :: consumed rest
  | CtxDone :: _ | GlobalDone :: _ => []
  | ErrChanRecv :: rest | SenderRuns :: rest | WatcherRecv :: rest => consumed rest
  end.

(** Whether a cancellation is among the events. *)
Fixpoint cancels (events : list ConsumeEvent) : bool :=
  match events with
  | [] => false
  | CtxDone :: _ | GlobalDone :: _ => true
  | _ :: rest => cancels rest
  end.

(** The instance [r] with [n] signals in the buffer of [ReconnectChan]
    and everything else as it is. *)
Definition with_signals (n : nat) (r : Rabbit) : Rabbit :=
  mkRabbit (Conn r) (ConsumerDeliveryChannel r) (ConsumerRWMutex r)
    (ConsumerWG r) (NotifyCloseChan r) n
    (ReconnectInProgress r) (ReconnectInProgressMtx r)
    (ProducerServerChannel r) (ProducerRWMutex r) (ROptions r) (shutdown r)
    (cancelled r).

(** The deliveries among [msgs] that [Consume] hands to the handler, and
    those it refuses as unusable. *)
Definition usable (msgs : list Delivery) : list Delivery :=
  filter (λ m, negb (poisoned m)) msgs.
Definition unusable (msgs : list Delivery) : list Delivery :=
  filter poisoned msgs.

(** The dial [reconnect] issues for a URL. *)
Definition redial_of (opts : Options) (url : string) : Effect :=
  if UseTLS opts then EDialTLS url (SkipVerifyTLS opts) else EDial url.

(** The answers of the outside world to the redials of [urls] when they
    are issued one after the other from log position [t] on. *)
Fixpoint reattempts (env : Env) (opts : Options) (t : nat) (urls : list string)
    : list (option error) :=
  match urls with
  | [] => []
  | url :: rest => reply env t (redial_of opts url) :: reattempts env opts (S t) rest
  end.

(** One failed round of the reconnect loop of the watcher: every URL is
    dialled, then the loop sleeps
    [time.Duration(RetryReconnectSec) * time.Second]. *)
Definition failed_round (opts : Options) : list Effect :=
  map (redial_of opts) (URLs opts)
  ++ [ESleep (int64 (RetryReconnectSec opts * Second))].

(** The first [k] rounds of redials, started at log position [t], all fail. *)
Fixpoint rounds_fail (env : Env) (opts : Options) (t k : nat) : Prop :=
  match k with
  | O => True
  | S k =>
      Forall is_Some (reattempts env opts t (URLs opts))
      ∧ rounds_fail env opts (t + length (failed_round opts)) k
  end.

(** What [Close] leaves of an instance. *)
Definition closed (r : Rabbit) : Rabbit := set_shutdown (set_cancelled r).

(** What [Publish] asks for on the session [ch] it has: the send, and on
    the cancellation arm also the close of the channel, in the order in
    which the two happen. *)
Definition publish_requests (r : Rabbit) (ch : ChanId) (ctx_done : bool)
    (routingKey body : string) (headers : list (gmap string string))
    (arm : PublishArm) : list Effect :=
  match arm, ctx_done with
  | ArmCtxDone true, true => [EChanClose ch; send_of r ch routingKey body headers]
  | ArmCtxDone false, true => [send_of r ch routingKey body headers; EChanClose ch]
  | _, _ => [send_of r ch routingKey body headers]
  end.

(** The error [Publish] returns from its cancellation arm, given the
    answer to the close of the channel. *)
Definition cancel_error (answer : option error) : error :=
  match answer with
  | Some e => errors_Wrap e "failed to close producer channel"
  | None => errors_New "context cancelled"
  end.

(** Every request of [reqs], when they are issued one after the other
    from log position [t] on, is answered without error. *)
Definition answered (env : Env) (t : nat) (reqs : list Effect) : Prop :=
  ∀ i e, reqs !! i = Some e → reply env (t + i)%nat e = None.

(** A computation follows a plan of requests: it issues them in order
    as long as they are answered without error; when all are, it returns
    no error; at the first request that fails it stops, and the error it
    returns wraps the failure. *)
Definition follows (env : Env) (m : M (option error)) (plan : list Effect) : Prop :=
  ∀ log,
    (answered env (length log) plan → m log = (None, log ++ plan))
    ∧ (∀ i x cause,
         plan !! i = Some x →
         reply env (length log + i)%nat x = Some cause →
         answered env (length log) (take i plan) →
         ∃ e, m log = (Some e, log ++ take (S i) plan) ∧ cause ∈ chain e).

(** What [Publish] returns once the session [ch] is there, when its
    first request is issued at log position [t]. *)
Definition publish_result (env : Env) (r : Rabbit) (ch : ChanId) (t : nat)
    (ctx_done : bool) (routingKey body : string)
    (headers : list (gmap string string)) (arm : PublishArm) : option error :=
  match arm, ctx_done with
  | ArmCtxDone close_first, true =>
      Some (cancel_error
              (reply env (t + (if close_first then 0 else 1))%nat (EChanClose ch)))
  | _, _ =>
      match reply env t (send_of r ch routingKey body headers) with
      | Some e => Some (errors_Wrap e "failed to publish message")
      | None => None
      end
  end.

(** The watcher between two turns, as [New] starts it: the flag
    [ReconnectInProgress] cleared, its lock and the two session locks
    free. *)
Definition idle (r : Rabbit) : Prop :=
  ReconnectInProgress r = false ∧ ReconnectInProgressMtx r = false
  ∧ ConsumerRWMutex r = false ∧ ProducerRWMutex r = false.

(** Redials and the sleeps between them. *)
Definition is_redial_or_sleep (e : Effect) : bool :=
  match e with EDial _ | EDialTLS _ _ | ESleep _ => true | _ => false end.

(** What a turn of the watcher asks for on the new connection [c]: the
    registration for the close notification, the plan of a session on
    the new channel [ch] and, outside producer mode, the delivery
    stream. *)
Definition renewal (c : ConnId) (ch : ChanId) (opts : Options) : list Effect :=
  [ENotifyClose c] ++ session_plan c ch opts
  ++ (if bool_decide (OMode opts = Producer) then [] else [consume_of ch opts]).

(** The instance after the part of a turn of the watcher that runs under
    the session locks: the new connection [c], registered for its close
    notification, the new channel [ch] as producer session and, outside
    producer mode, as consumer session, both session locks free. *)
Definition renewed (c : ConnId) (ch : ChanId) (r : Rabbit) : Rabbit :=
  mkRabbit (Some c)
    (if bool_decide (OMode (ROptions r) = Producer)
     then ConsumerDeliveryChannel r else Some ch)
    false (ConsumerWG r) (Some c) (ReconnectChan r)
    (ReconnectInProgress r) (ReconnectInProgressMtx r)
    (Some ch) false (ROptions r) (shutdown r) (cancelled r).

(** The instance after a completed turn of the watcher on event [ev]:
    renewed, the flag cleared and its lock released if it was taken, the
    signal received if the event was one. *)
Definition after_turn (ev : WatcherEvent) (c : ConnId) (ch : ChanId) (r : Rabbit)
    : Rabbit :=
  mkRabbit (Some c)
    (if bool_decide (OMode (ROptions r) = Producer)
     then ConsumerDeliveryChannel r else Some ch)
    false (ConsumerWG r) (Some c)
    (match ev with
     | NotifyClose => ReconnectChan r
     | ReconnectSignal => pred (ReconnectChan r)
     end)
    false
    (match ev with
     | NotifyClose => if ReconnectInProgress r then false else ReconnectInProgressMtx r
     | ReconnectSignal => false
     end)
    (Some ch) false (ROptions r) (shutdown r) (cancelled r).

(** What [ValidateOptions] asks of the options before it fills in the
    defaults and looks at the mode. *)
Definition valid_before_mode (o : Options) : Prop :=
  (∃ url, url ∈ URLs o ∧ url ≠ "")
  ∧ Bindings o ≠ []
  ∧ (allows_publishing (OMode o) → length (Bindings o) = 1%nat)
  ∧ Forall (valid_binding (OMode o)) (Bindings o).

(** * Properties *)

Ltac Forall_solve :=
  repeat first [ apply Forall_nil_2 | apply Forall_cons_2; [reflexivity|] ].

Ltac run_monad := unfold bind, ret, perform, emit, now in *; simpl in *.

Ltac list_norm := repeat (progress (rewrite <- ?app_assoc; simpl)).

Section Validation.

Variable env : Env.

Lemma hasValidURL_false urls :
  (∀ url, url ∈ urls → url = "") → hasValidURL urls = false.
Proof.
  induction urls as [|u urls IH]; intros H; simpl; [done|].
  rewrite (H u) by (left; done). simpl.
  apply IH. intros url Hin. apply H. by right.
Qed.

Lemma hasValidURL_true urls :
  hasValidURL urls = true → ∃ url, url ∈ urls ∧ url ≠ "".
Proof.
  induction urls as [|u urls IH]; simpl; [done|].
  case_bool_decide as Hlen.
  - intros _. exists u. split; [by left|]. intros ->. simpl in Hlen. lia.
  - intros H. destruct (IH H) as (url & Hin & Hne).
    exists url. split; [by right | done].
Qed.

Lemma validateEachBinding_keys mode bs :
  validateEachBinding mode bs = None → mode ≠ Producer →
  Forall (λ b, (1 ≤ length (BindingKeys b))%nat) bs.
Proof.
  intros Hv Hm. induction bs as [|b bs IH]; [constructor|].
  simpl in Hv.
  destruct (ExchangeDeclare b && bool_decide (ExchangeType b = "")); [done|].
  case_bool_decide; [done|].
  rewrite bool_decide_true in Hv by done. simpl in Hv.
  case_bool_decide as Hk; [done|].
  constructor; [lia | by apply IH].
Qed.

(** What a successful validation guarantees. *)
Lemma ValidateOptions_ok opts opts' :
  ValidateOptions env (Some opts) = (opts', None) →
  opts' = Some (applyDefaults env opts)
  ∧ (∃ url, url ∈ URLs opts ∧ url ≠ "")
  ∧ Bindings opts ≠ []
  ∧ (allows_publishing (OMode opts) → length (Bindings opts) = 1%nat)
  ∧ (requires_consuming (OMode opts) →
     Forall (λ b, (1 ≤ length (BindingKeys b))%nat) (Bindings opts)).
Proof.
  unfold ValidateOptions.
  destruct (hasValidURL (URLs opts)) eqn:Hurl; simpl; [|done].
  case_bool_decide as Hlen; [done|].
  destruct (validateBindings opts) as [e|] eqn:Hb; [done|].
  destruct (validMode _) as [e|] eqn:Hm; [done|].
  intros [= <-].
  split; [done|]. split; [by apply hasValidURL_true|].
  split; [by destruct (Bindings opts)|].
  unfold validateBindings in Hb.
  destruct ((bool_decide (OMode opts = Producer) || bool_decide (OMode opts = Both))
            && bool_decide (1 < length (Bindings opts))%nat) eqn:Hpub; [done|].
  split.
  - intros Hp.
    assert (bool_decide (OMode opts = Producer) || bool_decide (OMode opts = Both) = true)
      as Hor.
    { destruct Hp as [-> | ->]; by vm_compute. }
    rewrite Hor in Hpub. simpl in Hpub.
    apply bool_decide_eq_false in Hpub. lia.
  - intros Hc. apply (validateEachBinding_keys _ _ Hb).
    destruct Hc as [-> | ->]; by vm_compute.
Qed.

(** C6. Options without a binding, or without a non-empty endpoint URL,
    make [New] fail with a configuration error and leave the log of
    effects untouched: nothing was dialled. Options that pass validation
    have exactly one binding when the mode allows publishing, and at
    least one binding key in every binding when the mode requires
    consuming. *)
Theorem New_rejects_incomplete_options (opts : Options) :
  ((Bindings opts = [] ∨ (∀ url, url ∈ URLs opts → url = "")) →
   ∀ log, ∃ err, ConfigError err
                 ∧ New env (Some opts) log = (None, Some err, log))
  ∧ (∀ opts', ValidateOptions env (Some opts) = (opts', None) →
       (allows_publishing (OMode opts) → length (Bindings opts) = 1%nat)
       ∧ (requires_consuming (OMode opts) →
          Forall (λ b, (1 ≤ length (BindingKeys b))%nat) (Bindings opts))).
Proof.
  split.
  - intros Hmiss log.
    destruct (ValidateOptions env (Some opts)) as [o' [e|]] eqn:Hv.
    + exists (errors_Wrap e "invalid options"). split; [by exists e|].
      unfold New. rewrite Hv. by destruct o'.
    + apply ValidateOptions_ok in Hv as (_ & (url & Hin & Hne) & Hb & _).
      destruct Hmiss as [Hnil | Hurls]; [done|].
      destruct Hne. by apply Hurls.
  - intros opts' Hv.
    apply ValidateOptions_ok in Hv as (_ & _ & _ & Hp & Hc). done.
Qed.

End Validation.

(** ** Computations only append to the log *)

Section Appends.

Variable env : Env.
Context {P : Effect → Prop}.

Lemma appends_ret {A} (a : A) : appends P (ret a).
Proof. intros log. exists []. by rewrite app_nil_r. Qed.

Lemma appends_now : appends P now.
Proof. intros log. exists []. by rewrite app_nil_r. Qed.

Lemma appends_bind {A B} (m : M A) (k : A → M B) :
  appends P m → (∀ a, appends P (k a)) → appends P (bind m k).
Proof.
  intros Hm Hk log. unfold bind.
  destruct (Hm log) as (rest1 & E1 & F1).
  destruct (m log) as [a log1]. simpl in E1. subst log1.
  destruct (Hk a (log ++ rest1)) as (rest2 & E2 & F2).
  exists (rest1 ++ rest2). rewrite E2, app_assoc.
  split; [done | by apply Forall_app].
Qed.

Lemma appends_perform e : P e → appends P (perform env e).
Proof. intros He log. exists [e]. split; [done | by constructor]. Qed.

Lemma appends_emit e : P e → appends P (emit e).
Proof. intros He log. exists [e]. split; [done | by constructor]. Qed.

End Appends.

Lemma appends_weaken {A} (P Q : Effect → Prop) (m : M A) :
  (∀ e, P e → Q e) → appends P m → appends Q m.
Proof.
  intros HPQ Hm log. destruct (Hm log) as (rest & E & F).
  exists rest. split; [done | by eapply Forall_impl].
Qed.

(** Splits a goal [appends P m] along the binds, matches and
    conditionals of [m]. *)
Ltac appends_step :=
  match goal with
  | |- appends _ (bind _ _) => apply appends_bind; [|intros ?]
  | |- appends _ (ret _) => apply appends_ret
  | |- appends _ now => apply appends_now
  | |- appends _ (perform _ _) => apply appends_perform
  | |- appends _ (emit _) => apply appends_emit
  | |- appends _ (match ?x with _ => _ end) => destruct x
  | |- appends _ (let '(_, _) := ?x in _) => destruct x
  end.

Ltac appends_auto := repeat first [ assumption | appends_step | done ].

(** ** Building sessions and connecting *)

Section Connecting.

Variable env : Env.

Lemma bindKeys_appends ch opts exchange keys :
  appends is_session (bindKeys env ch opts exchange keys).
Proof. induction keys as [|k keys IH]; simpl; appends_auto. Qed.

Lemma declareBindings_appends ch opts bs :
  appends is_session (declareBindings env ch opts bs).
Proof.
  induction bs as [|b bs IH]; simpl; appends_auto.
  all: try apply bindKeys_appends; appends_auto.
Qed.

Lemma newServerChannel_appends r :
  appends is_session (newServerChannel env r).
Proof.
  unfold newServerChannel. appends_auto.
  all: try apply declareBindings_appends; appends_auto.
Qed.

Lemma newConsumerChannel_appends r :
  appends is_session (newConsumerChannel env r).
Proof.
  unfold newConsumerChannel. appends_auto.
  all: try apply newServerChannel_appends; appends_auto.
Qed.


Lemma dial_timeout_with_timeout opts :
  ConnectionTimeout (with_timeout opts) = dial_timeout opts.
Proof. unfold with_timeout, dial_timeout. by case_bool_decide. Qed.

Lemma with_timeout_idemp opts : with_timeout (with_timeout opts) = with_timeout opts.
Proof.
  unfold with_timeout.
  destruct (bool_decide (ConnectionTimeout opts ≤ 0)) eqn:E; [done|].
  by rewrite E.
Qed.



(** One turn of the dial loop of [New]. *)
Lemma dialLoop_cons url rest opts ac err log :
  dialLoop env (url :: rest) opts ac err log =
  match reply env (length log) (dial_of opts url) with
  | None => (with_timeout opts, Some (length log), None, log ++ [dial_of opts url])
  | Some e => dialLoop env rest (with_timeout opts) None (Some e)
                (log ++ [dial_of opts url])
  end.
Proof.
  simpl. run_monad. fold (with_timeout opts).
  rewrite dial_timeout_with_timeout.
  assert (UseTLS (with_timeout opts) = UseTLS opts
          ∧ SkipVerifyTLS (with_timeout opts) = SkipVerifyTLS opts) as [-> ->].
  { unfold with_timeout. by case_bool_decide. }
  fold (dial_of opts url). by destruct (reply env _ _).
Qed.




End Connecting.



(** The sample instances are what [New] returns. *)
Lemma an_instance_from_New (m : Mode) :
  m = Both ∨ m = Consumer ∨ m = Producer →
  (run (New (counting_env all_fine 0)
          (Some (some_options ["amqp://a"] m [a_binding])))).1
  = (Some (an_instance m), None).
Proof. intros [-> | [-> | ->]]; reflexivity. Qed.

(** ** Reporting and consuming *)

Section Consuming.

Variable env : Env.

(** [writeError] logs the report; the channel decides the rest. *)
Lemma writeError_log errChan ce log :
  ∃ errChan' outcome,
    writeError errChan (Some ce) log
    = (errChan', outcome, log ++ [EWriteError ce]).
Proof.
  unfold writeError. run_monad.
  destruct errChan as [c|]; [case_bool_decide|]; by eexists _, _.
Qed.

(** With a channel, a report is dropped exactly when the buffer of the
    channel is not empty. *)
Lemma writeError_drops_iff c ce log :
  (writeError (Some c) (Some ce) log).1.2 = Dropped ↔ (0 < ec_len c)%nat.
Proof.
  unfold writeError. run_monad. case_bool_decide; simpl; split; done.
Qed.

(** On a channel of capacity one that holds no more than it can, the
    buffer is not empty exactly when the channel is full. *)
Lemma writeError_capacity_one c :
  ec_cap c = 1%nat → ec_wf c → ((0 < ec_len c)%nat ↔ ec_full c = true).
Proof.
  unfold ec_wf, ec_full. intros Hcap Hwf. rewrite Hcap in *.
  rewrite bool_decide_eq_true. lia.
Qed.

(** C10. On an instance that is shut down, or that is configured as a
    producer only, [Consume] returns at once: the instance, the error
    channel and the policy are as they were, and the log has not grown,
    so that no handler was called and nothing was reported. *)
Theorem Consume_refused_is_silent (r : Rabbit) (errChan : option ErrChan)
    (f : Handler) (rp : list (RetryPolicy env)) (fuel : nat)
    (events : list ConsumeEvent) (log : Log) :
  shutdown r = true ∨ OMode (ROptions r) = Producer →
  Consume env r errChan f rp fuel events log
  = (Returned, mkCS env r errChan (head rp) 0, log).
Proof.
  intros [Hs | Hm]; unfold Consume.
  - by rewrite Hs.
  - rewrite bool_decide_true by done. by destruct (shutdown r).
Qed.

(** One turn of the main loop of [Consume] on a delivery without
    acknowledger or with the force-reconnect header: one report, the
    send of one reconnect signal, no call of the handler, and on to the
    next event, blocked in the send if the buffer was full. *)
Lemma consumeLoop_poisoned fuel f msg rest s log :
  poisoned msg = true →
  ∃ errChan',
    consumeLoop env fuel f (Recv msg :: rest) false s log
    = consumeLoop env fuel f rest (bool_decide (ReconnectChanCap ≤ ReconnectChan (cs_r s))%nat)
        (mkCS env (default (cs_r s) (send_signal (cs_r s))) errChan'
           (cs_retry s) (cs_retries s))
        (log ++ [EWriteError
                   (mkConsumeError msg
                      (errors_New
                         "nil acknowledger detected - sending reconnect signal"));
                 ESignalReconnect]).
Proof.
  intros Hp. simpl. rewrite Hp. unfold bind at 1.
  destruct (writeError_log (cs_errChan s)
              (mkConsumeError msg
                 (errors_New "nil acknowledger detected - sending reconnect signal"))
              log) as (ec' & o & ->).
  exists ec'. run_monad. rewrite <- app_assoc. unfold send_signal.
  case_bool_decide; [rewrite bool_decide_false by lia | rewrite bool_decide_true by lia];
    done.
Qed.

(** [ConsumeOnce] on a delivery without acknowledger, when the buffer of
    [ReconnectChan] has room: one reconnect signal, no call of the
    handler, and the error is returned. *)
Lemma ConsumeOnce_nil_acknowledger r f rp fuel msg log :
  shutdown r = false → OMode (ROptions r) ≠ Producer →
  Acknowledger msg = None → ReconnectChan r = 0%nat →
  ConsumeOnce env r f rp fuel (Some (Recv msg)) log
  = (Returned, signal_reconnect r, head rp,
     Some (errors_New
             "detected nil acknowledger - sent signal to reconnect to RabbitMQ"),
     log ++ [ESignalReconnect]).
Proof.
  intros Hs Hm Ha Hc. unfold ConsumeOnce, send_signal.
  rewrite Hs, bool_decide_false, bool_decide_true by done.
  run_monad. by rewrite Hc.
Qed.

(** The retry loop of [ConsumeOnce] sends no reconnect signal. *)
Lemma consumeOnceRetry_appends f msg fuel :
  ∀ retry retries,
    appends not_signal (consumeOnceRetry env fuel f msg retry retries).
Proof.
  induction fuel as [|fuel IH]; intros retry retries; simpl; appends_auto.
Qed.

(** [ConsumeOnce] on a delivery that has an acknowledger, whatever its
    headers: the handler is called on it, no reconnect signal is sent. *)
Lemma ConsumeOnce_tests_acknowledger_only r f rp fuel msg log :
  shutdown r = false → OMode (ROptions r) ≠ Producer →
  Acknowledger msg ≠ None →
  ∃ ending retry err rest,
    ConsumeOnce env r f rp (S fuel) (Some (Recv msg)) log
    = (ending, r, retry, err, log ++ EHandler msg :: rest)
    ∧ Forall not_signal rest.
Proof.
  intros Hs Hm Ha. unfold ConsumeOnce.
  rewrite Hs, !bool_decide_false by done.
  unfold bind at 1. simpl. unfold bind at 1, now. unfold bind at 1, emit.
  destruct (f (length log) msg) as [e|].
  2: { exists Returned, (head rp), None, []. done. }
  destruct (head rp) as [p|].
  2: { exists Returned, None, (Some e), []. done. }
  destruct (ShouldRetry env p) as [[] p'].
  2: { exists Returned, (Some p'), (Some e), []. done. }
  unfold bind at 1, emit. unfold bind at 1, emit.
  destruct (consumeOnceRetry_appends f msg fuel (Some p') (0 + 1)
              (((log ++ [EHandler msg]) ++ [EDuration 0])
                 ++ [ESleep (Duration env p' 0)]))
    as (rest & E & F).
  destruct (consumeOnceRetry env fuel f msg (Some p') (0 + 1) _)
    as [[[ending retry] err] log2].
  simpl in E. subst log2.
  exists ending, retry, err, ([EDuration 0; ESleep (Duration env p' 0)] ++ rest).
  split; [by rewrite <- !app_assoc|].
  apply Forall_app. split; [|done].
  repeat (apply Forall_cons_2; [done|]). apply Forall_nil_2.
Qed.

Lemma duration_args_app l1 l2 :
  duration_args (l1 ++ l2) = duration_args l1 ++ duration_args l2.
Proof. apply omap_app. Qed.

(** The retry loop counts on from where [retries] stands: the calls of
    [Duration] it makes receive the successive values of the counter. *)
Lemma consumeRetry_counter f msg fuel :
  ∀ (s : ConsumeState env) log,
  ∃ ending s' rest,
    consumeRetry env fuel f msg s log = (ending, s', log ++ rest)
    ∧ cs_retries s ≤ cs_retries s'
    ∧ duration_args rest = seqZ (cs_retries s) (cs_retries s' - cs_retries s).
Proof.
  induction fuel as [|fuel IH]; intros s log.
  { exists OutOfFuel, s, []. rewrite app_nil_r, Z.sub_diag. done. }
  simpl. unfold bind at 1, now. unfold bind at 1, emit.
  destruct (f (length log) msg) as [err|].
  2: { exists Returned, s, [EHandler msg]. by rewrite Z.sub_diag. }
  destruct (cs_retry s) as [rp|].
  2: { unfold bind.
       destruct (writeError_log (cs_errChan s)
                   (mkConsumeError msg
                      (errors_New ("error during consume: " +:+ Error err)))
                   (log ++ [EHandler msg])) as (ec' & o & ->).
       exists Returned, (mkCS env (cs_r s) ec' None (cs_retries s)),
         [EHandler msg;
          EWriteError (mkConsumeError msg
                         (errors_New ("error during consume: " +:+ Error err)))].
       simpl. rewrite <- app_assoc, Z.sub_diag. done. }
  destruct (ShouldRetry env rp) as [[] rp'].
  2: { unfold bind.
       destruct (writeError_log (cs_errChan s)
                   (mkConsumeError msg
                      (errors_New ("error during consume: " +:+ Error err)))
                   (log ++ [EHandler msg])) as (ec' & o & ->).
       exists Returned, (mkCS env (cs_r s) ec' (Some rp') (cs_retries s)),
         [EHandler msg;
          EWriteError (mkConsumeError msg
                         (errors_New ("error during consume: " +:+ Error err)))].
       simpl. rewrite <- app_assoc, Z.sub_diag. done. }
  unfold bind at 1, emit. unfold bind at 1.
  destruct (writeError_log (cs_errChan s)
              (mkConsumeError msg
                 (errors_New ("[Retry " +:+ AttemptCount env rp'
                              +:+ "] error during consume: " +:+ Error err)))
              ((log ++ [EHandler msg]) ++ [EDuration (cs_retries s)]))
    as (ec' & o & ->).
  unfold bind at 1.
  destruct (IH (mkCS env (cs_r s) ec' (Some rp') (cs_retries s + 1))
              (((log ++ [EHandler msg]) ++ [EDuration (cs_retries s)])
                 ++ [EWriteError
                       (mkConsumeError msg
                          (errors_New ("[Retry " +:+ AttemptCount env rp'
                                       +:+ "] error during consume: "
                                       +:+ Error err)))]
                 ++ [ESleep (Duration env rp' (cs_retries s))]))
    as (ending & s' & rest & E & Hle & Hargs).
  simpl in Hle, Hargs.
  eexists ending, s', ([EHandler msg; EDuration (cs_retries s); _; _] ++ rest).
  split.
  { rewrite <- !app_assoc in *. simpl in *. exact E. }
  split; [lia|].
  rewrite duration_args_app, Hargs. simpl.
  rewrite (seqZ_cons (cs_retries s)) by lia.
  do 2 f_equal; lia.
Qed.

(** The same for the main loop, over all the deliveries it handles. *)
Lemma consumeLoop_counter f fuel events :
  ∀ sending (s : ConsumeState env) log,
  ∃ ending s' rest,
    consumeLoop env fuel f events sending s log = (ending, s', log ++ rest)
    ∧ cs_retries s ≤ cs_retries s'
    ∧ duration_args rest = seqZ (cs_retries s) (cs_retries s' - cs_retries s).
Proof.
  assert (∀ (ending : Ending) (s : ConsumeState env) (log : Log),
            ∃ ending' s' rest,
              (ending, s, log) = (ending', s', log ++ rest)
              ∧ cs_retries s ≤ cs_retries s'
              ∧ duration_args rest
                = seqZ (cs_retries s) (cs_retries s' - cs_retries s)) as Hstop.
  { intros ending s log. exists ending, s, [].
    rewrite app_nil_r, Z.sub_diag. done. }
  induction events as [|ev events IH]; intros sending s log.
  { apply Hstop. }
  destruct ev as [msg| | | | |].
  - destruct sending; [apply Hstop|].
    destruct (poisoned msg) eqn:Hp.
    + destruct (consumeLoop_poisoned fuel f msg events s log Hp) as (ec' & ->).
      destruct (IH (bool_decide (ReconnectChanCap ≤ ReconnectChan (cs_r s))%nat)
                  (mkCS env (default (cs_r s) (send_signal (cs_r s))) ec'
                     (cs_retry s) (cs_retries s))
                  (log ++ [EWriteError
                             (mkConsumeError msg
                                (errors_New
                                   "nil acknowledger detected - sending reconnect signal"));
                           ESignalReconnect]))
        as (ending & s' & rest & E & Hle & Hargs).
      simpl in Hle, Hargs.
      eexists ending, s', ([_; _] ++ rest).
      split; [by rewrite <- app_assoc in E|].
      split; [done|]. by rewrite duration_args_app.
    + simpl. rewrite Hp. unfold bind.
      destruct (consumeRetry_counter f msg fuel s log)
        as (ending1 & s1 & rest1 & -> & Hle1 & Hargs1).
      destruct ending1.
      * destruct (IH false s1 (log ++ rest1))
          as (ending & s' & rest & E & Hle & Hargs).
        exists ending, s', (rest1 ++ rest).
        split; [by rewrite app_assoc|]. split; [lia|].
        rewrite duration_args_app, Hargs1, Hargs.
        replace (cs_retries s' - cs_retries s)
          with ((cs_retries s1 - cs_retries s) + (cs_retries s' - cs_retries s1))
          by lia.
        rewrite seqZ_app by lia. do 2 f_equal. lia.
      * by eexists _, s1, rest1.
      * by eexists _, s1, rest1.
      * by eexists _, s1, rest1.
      * by eexists _, s1, rest1.
  - apply Hstop.
  - apply Hstop.
  - simpl.
    destruct (IH sending
                (mkCS env (cs_r s) (ec_recv <$> cs_errChan s) (cs_retry s)
                   (cs_retries s)) log)
      as (ending & s1 & rest & E & Hle & Hargs).
    by exists ending, s1, rest.
  - simpl.
    destruct (IH sending
                (mkCS env (cs_r s) (ec_send <$> cs_errChan s) (cs_retry s)
                   (cs_retries s)) log)
      as (ending & s1 & rest & E & Hle & Hargs).
    by exists ending, s1, rest.
  - simpl.
    destruct sending; [destruct (send_signal (take_signal (cs_r s))) as [r1|]|].
    + destruct (IH false (mkCS env r1 (cs_errChan s) (cs_retry s) (cs_retries s))
                  log) as (ending & s1 & rest & E & Hle & Hargs).
      by exists ending, s1, rest.
    + destruct (IH true
                  (mkCS env (take_signal (cs_r s)) (cs_errChan s) (cs_retry s)
                     (cs_retries s)) log)
        as (ending & s1 & rest & E & Hle & Hargs).
      by exists ending, s1, rest.
    + destruct (IH false
                  (mkCS env (take_signal (cs_r s)) (cs_errChan s) (cs_retry s)
                     (cs_retries s)) log)
        as (ending & s1 & rest & E & Hle & Hargs).
      by exists ending, s1, rest.
Qed.

(** C5, as the code has it. The counter [retries] that [Consume] passes
    to [Duration] starts at zero once per call of [Consume] and is never
    set back: over all the deliveries the call handles, the successive
    calls of [Duration] receive 0, 1, 2, ... *)
Theorem Consume_retry_counter_spans_the_call (r : Rabbit)
    (errChan : option ErrChan) (f : Handler) (rp : list (RetryPolicy env))
    (fuel : nat) (events : list ConsumeEvent) (log : Log) :
  ∃ ending s' rest,
    Consume env r errChan f rp fuel events log = (ending, s', log ++ rest)
    ∧ 0 ≤ cs_retries s'
    ∧ duration_args rest = seqZ 0 (cs_retries s').
Proof.
  unfold Consume.
  destruct (shutdown r).
  { eexists _, _, []. rewrite app_nil_r. done. }
  case_bool_decide.
  { eexists _, _, []. rewrite app_nil_r. done. }
  unfold bind.
  destruct (consumeLoop_counter f fuel events false
              (mkCS env (set_WG (S (ConsumerWG r)) r) errChan (head rp) 0) log)
    as (ending & s' & rest & -> & Hle & Hargs).
  simpl in Hle, Hargs. rewrite Z.sub_0_r in Hargs.
  destruct ending; by eexists _, _, rest.
Qed.

End Consuming.

(** The theorem on refused calls of [Consume], at an instance in producer
    mode and a handler that would fail. *)
Lemma Consume_refused_is_silent_witness :
  let env := counting_env all_fine 0 in
  Consume env (an_instance Producer) None always_fail [] 3
    [Recv (plain_delivery "x")] []
  = (Returned, mkCS env (an_instance Producer) None None 0, []).
Proof.
  intros env.
  apply (Consume_refused_is_silent env (an_instance Producer) None always_fail
           [] 3 [Recv (plain_delivery "x")] []).
  right. reflexivity.
Defined.

(** The theorem on incomplete options, at options without a binding. *)
Lemma New_rejects_incomplete_options_witness :
  ∃ err, ConfigError err
         ∧ New (counting_env all_fine 0)
             (Some (some_options ["amqp://a"] Both [])) []
           = (None, Some err, []).
Proof.
  apply (proj1 (New_rejects_incomplete_options (counting_env all_fine 0)
                  (some_options ["amqp://a"] Both []))).
  left. reflexivity.
Defined.

(** C5, as stated, fails: two deliveries, the handler fails on the first
    attempt of each and succeeds on the retry. The retry of the second
    delivery asks the policy for the delay of attempt 1, not of attempt 0,
    and sleeps accordingly longer. *)
Lemma Consume_retry_counter_is_not_per_message :
  let env := counting_env all_fine 5 in
  let one := plain_delivery "one" in
  let two := plain_delivery "two" in
  let report (msg : Delivery) (n : string) :=
    EWriteError (mkConsumeError msg
                   (errors_New ("[Retry " +:+ n +:+ "] error during consume: boom"))) in
  (Consume env (an_instance Both) None (fail_at [0; 5]%nat) [0%nat] 10
     [Recv one; Recv two; CtxDone] []).2
  = [EHandler one; EDuration 0; report one "1"; ESleep 0; EHandler one;
     EHandler two; EDuration 1; report two "2"; ESleep 10; EHandler two].
Proof. reflexivity. Qed.

(** C4 at a delivery that carries the force-reconnect header and has an
    acknowledger. [Consume] takes it for what it is: it reports it, sends
    the reconnect signal and does not call the handler. [ConsumeOnce]
    tests the acknowledger only: it calls the handler on the delivery,
    sends no reconnect signal and returns no error. *)
Theorem ConsumeOnce_handles_force_reconnect_delivery :
  let env := counting_env all_fine 0 in
  let msg := force_reconnect_delivery in
  let r := an_instance Both in
  poisoned msg = true
  ∧ (Consume env r None always_ok [] 1 [Recv msg; CtxDone] []).2
    = [EWriteError (mkConsumeError msg
                      (errors_New "nil acknowledger detected - sending reconnect signal"));
       ESignalReconnect]
  ∧ ConsumeOnce env r always_ok [] 1 (Some (Recv msg)) []
    = (Returned, r, None, None, [EHandler msg]).
Proof. repeat split; reflexivity. Qed.

(** C8 at two channels. On a channel of capacity 10 that holds one report
    [writeError] drops the next report although the channel is not full.
    On an unbuffered channel, which no reader is waiting on and on which a
    sender is blocked already, it starts one more sender, which blocks as
    well. *)
Theorem writeError_drops_on_channel_that_is_not_full :
  let ce := mkConsumeError (plain_delivery "x") (errors_New "error during consume: boom") in
  let roomy := mkErrChan 10 [ce] [] in
  let unbuffered := mkErrChan 0 [] [ce] in
  ec_full roomy = false
  ∧ writeError (Some roomy) (Some ce) [] = (Some roomy, Dropped, [EWriteError ce])
  ∧ ec_full unbuffered = true
  ∧ writeError (Some unbuffered) (Some ce) []
    = (Some (mkErrChan 0 [] [ce; ce]), Dispatched, [EWriteError ce]).
Proof. repeat split; reflexivity. Qed.

(** ** Publishing *)

Section Publishing.

Variable env : Env.

(** With a producer session in place [Publish] builds none: it makes
    its requests on the session it finds and leaves the instance as it
    is. *)
Lemma Publish_on_session r ch ctx_done key body headers arm log :
  shutdown r = false → OMode (ROptions r) ≠ Consumer →
  ProducerServerChannel r = Some ch →
  Publish env r ctx_done key body headers arm log
  = (r, publish_result env r ch (length log) ctx_done key body headers arm,
     log ++ publish_requests r ch ctx_done key body headers arm).
Proof.
  intros Hs Hm Hch. unfold Publish, publish_requests, publish_result, cancel_error.
  rewrite Hs, bool_decide_false, Hch by done.
  run_monad. rewrite Hch. fold (send_of r ch key body headers).
  destruct arm as [| |[]], ctx_done; rewrite ?length_app, ?Nat.add_0_r; simpl;
    repeat match goal with
           | |- context [match reply ?e ?t ?x with _ => _ end] =>
               destruct (reply e t x)
           end;
    rewrite <- ?app_assoc; reflexivity.
Qed.

Lemma Publish_uses_session_in_place r ch ctx_done key body headers arm log :
  shutdown r = false → OMode (ROptions r) ≠ Consumer →
  ProducerServerChannel r = Some ch →
  ∃ res,
    Publish env r ctx_done key body headers arm log
    = (r, res, log ++ publish_requests r ch ctx_done key body headers arm).
Proof.
  intros Hs Hm Hch. eexists. by apply Publish_on_session.
Qed.

(** Without a producer session [Publish] first builds one, and goes on
    as it does with a session in place when that has worked. *)
Lemma Publish_builds_lazily r ctx_done key body headers arm log :
  shutdown r = false → OMode (ROptions r) ≠ Consumer →
  ProducerServerChannel r = None →
  Publish env r ctx_done key body headers arm log
  = let '(och, err, log1) := newServerChannel env r log in
    match err, och with
    | Some e, _ =>
        (r, Some (errors_Wrap e "unable to create server channel"), log1)
    | None, Some ch =>
        Publish env (set_producer (Some ch) r) ctx_done key body headers arm log1
    | None, None => (set_producer None r, None, log1)
    end.
Proof.
  intros Hs Hm Hch. unfold Publish at 1.
  rewrite Hs, bool_decide_false, Hch by done. unfold bind at 1. unfold bind at 1.
  destruct (newServerChannel env r log) as [[[ch|] [e|]] log1];
    try reflexivity.
  unfold Publish. simpl. rewrite Hs, bool_decide_false by done. reflexivity.
Qed.

(** The requests of [Publish] on a session open no server channel. *)
Lemma publish_requests_open_nothing r ch ctx_done key body headers arm :
  Forall (λ e, is_channel_open e = false)
    (publish_requests r ch ctx_done key body headers arm).
Proof.
  unfold publish_requests. destruct arm as [| |[]], ctx_done; Forall_solve.
Qed.

(** The cancellation arm of [Publish], with a producer session in place:
    the session is closed, before or after the send of the goroutine, and
    the error returned is the cancellation error unless closing failed. *)
Lemma Publish_cancel_arm r ch close_first key body headers log :
  shutdown r = false → OMode (ROptions r) ≠ Consumer →
  ProducerServerChannel r = Some ch →
  Publish env r true key body headers (ArmCtxDone close_first) log
  = (r,
     Some (cancel_error
             (reply env (length log + (if close_first then 0 else 1))
                (EChanClose ch))),
     log ++ publish_requests r ch true key body headers (ArmCtxDone close_first)).
Proof.
  intros Hs Hm Hch. unfold Publish, publish_requests, cancel_error.
  rewrite Hs, bool_decide_false, Hch by done.
  run_monad. rewrite Hch. fold (send_of r ch key body headers).
  destruct close_first; rewrite ?length_app; simpl.
  - rewrite Nat.add_0_r.
    destruct (reply env (length log) (EChanClose ch)); by rewrite <- app_assoc.
  - destruct (reply env (length log + 1) (EChanClose ch)); by rewrite <- app_assoc.
Qed.

(** C3, as the code has it. The cancellation arm of [Publish] closes the
    producer session, before or after the goroutine of the call makes its
    send, and returns the cancellation error, or the error of the close
    when closing failed. Whenever [Publish] returns one of these two
    errors it has taken that arm, and it leaves the handle of the closed
    session in the instance. Any [Publish] that follows therefore builds
    no session: it opens no server channel, and its requests are made on
    the closed one. *)
Theorem Publish_cancelled_leaves_closed_session :
  (∀ (r : Rabbit) (ch : ChanId) (close_first : bool) (key body : string)
     (headers : list (gmap string string)) (log : Log),
     shutdown r = false → OMode (ROptions r) ≠ Consumer →
     ProducerServerChannel r = Some ch →
     Publish env r true key body headers (ArmCtxDone close_first) log
     = (r,
        Some (cancel_error
                (reply env (length log + (if close_first then 0 else 1))
                   (EChanClose ch))),
        log ++ (if close_first
                then [EChanClose ch; send_of r ch key body headers]
                else [send_of r ch key body headers; EChanClose ch])))
  ∧ (∀ (r r' : Rabbit) (ctx_done : bool) (key body : string)
       (headers : list (gmap string string)) (arm : PublishArm)
       (log log' : Log) (e : error),
       Publish env r ctx_done key body headers arm log = (r', Some e, log') →
       (e = errors_New "context cancelled"
        ∨ ∃ cause, e = errors_Wrap cause "failed to close producer channel") →
       ∃ ch pre close_first,
         ctx_done = true ∧ arm = ArmCtxDone close_first
         ∧ ProducerServerChannel r' = Some ch
         ∧ log' = pre ++ (if close_first
                          then [EChanClose ch; send_of r' ch key body headers]
                          else [send_of r' ch key body headers; EChanClose ch])
         ∧ e = cancel_error
                 (reply env (length pre + (if close_first then 0 else 1))
                    (EChanClose ch))
         ∧ ∀ ctx_done2 key2 body2 headers2 arm2 log2,
             ∃ res rest,
               Publish env r' ctx_done2 key2 body2 headers2 arm2 log2
               = (r', res, log2 ++ rest)
               ∧ rest = publish_requests r' ch ctx_done2 key2 body2 headers2 arm2
               ∧ Forall (λ e, is_channel_open e = false) rest).
Proof.
  split.
  { intros r ch close_first key body headers log Hs Hm Hch.
    rewrite (Publish_cancel_arm r ch close_first key body headers log Hs Hm Hch).
    by destruct close_first. }
  intros r r' ctx_done key body headers arm log log' e HP He.
  assert (shutdown r = false ∧ OMode (ROptions r) ≠ Consumer) as [Hs Hm].
  { unfold Publish in HP. destruct (shutdown r).
    { injection HP as _ <- _. by destruct He as [|[? ?]]. }
    case_bool_decide; [|done].
    injection HP as _ <- _. by destruct He as [|[? ?]]. }
  assert (∃ ch pre, ProducerServerChannel r' = Some ch
                    ∧ shutdown r' = false ∧ OMode (ROptions r') ≠ Consumer
                    ∧ Publish env r' ctx_done key body headers arm pre
                      = (r', Some e, log'))
    as (ch & pre & Hch & Hs' & Hm' & HP').
  { destruct (ProducerServerChannel r) as [ch|] eqn:Hch.
    - destruct (Publish_uses_session_in_place r ch ctx_done key body headers arm
                  log Hs Hm Hch) as (res & E).
      rewrite E in HP. injection HP as <- -> <-.
      exists ch, log. by rewrite E.
    - rewrite (Publish_builds_lazily r ctx_done key body headers arm log Hs Hm Hch)
        in HP.
      destruct (newServerChannel env r log) as [[och [err|]] log1] eqn:Hnew.
      { injection HP as _ <- _. by destruct He as [|[? ?]]. }
      destruct och as [ch|]; [|discriminate].
      assert (ProducerServerChannel (set_producer (Some ch) r) = Some ch)
        as Hch' by done.
      destruct (Publish_uses_session_in_place (set_producer (Some ch) r) ch
                  ctx_done key body headers arm log1 Hs Hm Hch') as (res & E).
      exists ch, log1.
      assert (r' = set_producer (Some ch) r) as ->.
      { rewrite E in HP. by injection HP as <- _ _. }
      done. }
  clear HP.
  assert (∃ close_first, ctx_done = true ∧ arm = ArmCtxDone close_first)
    as (close_first & -> & ->).
  { unfold Publish in HP'. rewrite Hs', bool_decide_false, Hch in HP' by done.
    run_monad. rewrite Hch in HP'.
    destruct arm as [| |[]], ctx_done;
      try (by eexists);
      repeat match type of HP' with
             | context [match reply ?e ?t ?x with _ => _ end] =>
                 destruct (reply e t x)
             end;
      simplify_eq; destruct He as [He|[? He]]; simplify_eq. }
  rewrite (Publish_cancel_arm r' ch close_first key body headers pre Hs' Hm' Hch)
    in HP'.
  injection HP' as <- <-.
  exists ch, pre, close_first. repeat (split; [done|]).
  intros ctx_done2 key2 body2 headers2 arm2 log2.
  destruct (Publish_uses_session_in_place r' ch ctx_done2 key2 body2 headers2 arm2
              log2 Hs' Hm' Hch) as (res & E).
  eexists res, _. split; [exact E|]. split; [done|].
  apply publish_requests_open_nothing.
Qed.

End Publishing.

(** C3, as stated, fails: the first call is cancelled and closes the
    producer session, be it before its goroutine has made the send or
    after it; the call that follows opens no server channel, sends on
    the closed session and fails. *)
Lemma Publish_after_cancel_does_not_rebuild :
  let env := counting_env (closed_from 1) 0 in
  let r := an_instance Both in
  let send (body : string) := EPublish 1%nat "ex" "k" body "p-rabbit-00000000" None in
  let refused := errors_Wrap (foreign_error "channel/connection is not open")
                   "failed to publish message" in
  Publish env r true "k" "x" [] (ArmCtxDone true) []
  = (r, Some (errors_New "context cancelled"), [EChanClose 1%nat; send "x"])
  ∧ Publish env r false "k" "y" [] ArmErr [EChanClose 1%nat; send "x"]
    = (r, Some refused, [EChanClose 1%nat; send "x"; send "y"])
  ∧ Publish env r true "k" "x" [] (ArmCtxDone false) []
    = (r, Some (errors_New "context cancelled"), [send "x"; EChanClose 1%nat])
  ∧ Publish env r false "k" "y" [] ArmErr [send "x"; EChanClose 1%nat]
    = (r, Some refused, [send "x"; EChanClose 1%nat; send "y"]).
Proof. repeat split; reflexivity. Qed.

(** The theorem on cancelled calls of [Publish], at the sample instance,
    with the close before the send of the goroutine. *)
Lemma Publish_cancelled_leaves_closed_session_witness :
  let env := counting_env (closed_from 1) 0 in
  let r := an_instance Both in
  let first := [EChanClose 1%nat;
                EPublish 1%nat "ex" "k" "x" "p-rabbit-00000000" None] in
  Publish env r true "k" "x" [] (ArmCtxDone true) []
  = (r, Some (errors_New "context cancelled"), first)
  ∧ ∃ res,
      Publish env r false "k" "y" [] ArmErr first
      = (r, res, first ++ [EPublish 1%nat "ex" "k" "y" "p-rabbit-00000000" None]).
Proof.
  intros env r first.
  pose proof (Publish_cancelled_leaves_closed_session env) as [Hfwd Hback].
  split.
  { apply (Hfwd r 1%nat true "k" "x" [] []); [reflexivity | discriminate | reflexivity]. }
  destruct (Hback r r true "k" "x" [] (ArmCtxDone true) [] first
              (errors_New "context cancelled") eq_refl (or_introl eq_refl))
    as (ch & pre & cf & _ & _ & Hch & _ & _ & Hnext).
  injection Hch as <-.
  destruct (Hnext false "k" "y" [] ArmErr first) as (res & rest & E & -> & _).
  exists res. exact E.
Defined.

(** ** Stop and Close *)

Section Lifecycle.

Variable env : Env.

(** [Stop] does not look at the shutdown flag: it cancels, and returns
    nil or the timeout error. *)
Lemma Stop_never_ErrShutdown r timeout arm log :
  ∃ res,
    Stop r timeout arm log = (set_cancelled r, res, log ++ [ECancel])
    ∧ res ≠ Some ErrShutdown
    ∧ (arm = ArmWaited → res = None).
Proof.
  unfold Stop. run_monad. destruct arm.
  - exists None. done.
  - eexists (Some _). split; [reflexivity|]. split; [|done].
    intros [=].
Qed.


End Lifecycle.



(** ** The watcher *)

(** The turns of the watcher in general, and C1 with them, follow the
    properties of sessions and of [reconnect] further down. *)

(** C2 at a broker that accepts the connection and refuses the server
    channel. In mode [Both] and in mode [Producer] the watcher redials,
    registers for the close notification, fails to open the channel and
    panics, with both session locks held; it does not try again. A dial
    that fails is retried after a sleep, as often as it takes. *)
Theorem runWatcher_panics_when_session_build_fails :
  let env := counting_env no_channel 0 in
  let refused := "channel/connection is not open" in
  runWatcher env 3 [NotifyClose; NotifyClose] (an_instance Both) []
  = (Panicked ("unable to set new channel: unable to create new server channel: "
               +:+ "unable to instantiate channel: " +:+ refused),
     set_NotifyCloseChan (Some 0%nat) (set_session_locks true (an_instance Both)),
     [EDial "amqp://a"; ENotifyClose 0%nat; EChannel 0%nat])
  ∧ runWatcher env 3 [NotifyClose; NotifyClose] (an_instance Producer) []
    = (Panicked ("unable to set new channel: unable to instantiate channel: "
                 +:+ refused),
       set_NotifyCloseChan (Some 0%nat) (set_session_locks true (an_instance Producer)),
       [EDial "amqp://a"; ENotifyClose 0%nat; EChannel 0%nat])
  ∧ (let '(ending, _, log) :=
       runWatcher (counting_env (down_for 2) 0) 3 [NotifyClose] (an_instance Producer) [] in
     ending = Waiting
     ∧ log = [EDial "amqp://a"; ESleep (60 * Second);
              EDial "amqp://a"; ESleep (60 * Second);
              EDial "amqp://a"; ENotifyClose 4%nat; EChannel 4%nat; EQos 6%nat 0 0]).
Proof. vm_compute. repeat split; reflexivity. Qed.

(** * Further properties of the package *)

(** ** Validation and defaults *)

Section Defaults.

Variable env : Env.

Lemma applyDefaults_idemp (o : Options) :
  applyDefaults env (applyDefaults env o) = applyDefaults env o.
Proof.
  unfold applyDefaults. simpl.
  destruct (QueueArgs o); f_equal; repeat case_bool_decide; congruence.
Qed.

(** X1. [applyDefaults] fills in the four settings the caller left at the
    zero value and keeps every value the caller set: a zero interval
    becomes the default of 60 seconds, an empty application id and an
    empty consumer tag become the defaults of the package, nil queue
    arguments become an empty table, and each of these is kept when it is
    set (a negative interval is not zero and is kept); the other fourteen
    settings are never changed. Applying the defaults twice changes
    nothing more. *)
Theorem applyDefaults_fills_once (o : Options) :
  let o' := applyDefaults env o in
  applyDefaults env o' = o'
  ∧ (RetryReconnectSec o = 0 → RetryReconnectSec o' = 60)
  ∧ (RetryReconnectSec o ≠ 0 → RetryReconnectSec o' = RetryReconnectSec o)
  ∧ (AppID o = "" → AppID o' = DefaultAppID env)
  ∧ (AppID o ≠ "" → AppID o' = AppID o)
  ∧ (ConsumerTag o = "" → ConsumerTag o' = DefaultConsumerTag env)
  ∧ (ConsumerTag o ≠ "" → ConsumerTag o' = ConsumerTag o)
  ∧ (QueueArgs o = None → QueueArgs o' = Some ∅)
  ∧ (∀ args, QueueArgs o = Some args → QueueArgs o' = Some args)
  ∧ URLs o' = URLs o
  ∧ OMode o' = OMode o
  ∧ QueueName o' = QueueName o
  ∧ Bindings o' = Bindings o
  ∧ QosPrefetchCount o' = QosPrefetchCount o
  ∧ QosPrefetchSize o' = QosPrefetchSize o
  ∧ QueueDurable o' = QueueDurable o
  ∧ QueueExclusive o' = QueueExclusive o
  ∧ QueueAutoDelete o' = QueueAutoDelete o
  ∧ QueueDeclare o' = QueueDeclare o
  ∧ AutoAck o' = AutoAck o
  ∧ UseTLS o' = UseTLS o
  ∧ SkipVerifyTLS o' = SkipVerifyTLS o
  ∧ ConnectionTimeout o' = ConnectionTimeout o.
Proof.
  intros o'. split; [apply applyDefaults_idemp|].
  subst o'. unfold applyDefaults. simpl.
  split; [intros ->; by rewrite bool_decide_true|].
  split; [intros; by rewrite bool_decide_false|].
  split; [intros ->; by rewrite bool_decide_true|].
  split; [intros; by rewrite bool_decide_false|].
  split; [intros ->; by rewrite bool_decide_true|].
  split; [intros; by rewrite bool_decide_false|].
  split; [by intros ->|].
  split; [by intros args ->|]. done.
Qed.

(** [validMode] accepts the three modes and nothing else. *)
Lemma validMode_None_iff (m : Mode) :
  validMode m = None ↔ m = Both ∨ m = Consumer ∨ m = Producer.
Proof.
  split.
  - intros H. destruct (decide (m = Both)) as [|H0]; [by left|].
    destruct (decide (m = Consumer)) as [|H1]; [by right; left|].
    destruct (decide (m = Producer)) as [|H2]; [by right; right|].
    unfold validMode in H. simpl in H.
    rewrite !bool_decide_false in H by (intros E; by symmetry in E). done.
  - intros [-> | [-> | ->]]; reflexivity.
Qed.

Lemma validateEachBinding_None mode bs :
  validateEachBinding mode bs = None ↔ Forall (valid_binding mode) bs.
Proof.
  induction bs as [|b bs IH]; simpl; [by split|].
  rewrite Forall_cons, <- IH. unfold valid_binding.
  destruct (ExchangeDeclare b) eqn:Hd; simpl.
  - case_bool_decide as Ht; [split; [done|]; intros [(H & _) _]; by destruct H|].
    case_bool_decide as Hn; [split; [done|]; intros [(_ & H & _) _]; done|].
    case_bool_decide as Hm; simpl.
    + case_bool_decide as Hk.
      * split; [done|]. intros [(_ & _ & H) _].
        specialize (H Hm). destruct (BindingKeys b); simpl in *; [done | lia].
      * split; [|by intros [_ ?]]. intros H. split; [|done].
        repeat split; try done. intros _ Hnil. rewrite Hnil in Hk. simpl in Hk. lia.
    + split; [|by intros [_ ?]]. intros H. split; [|done].
      repeat split; try done.
  - case_bool_decide as Hn; [split; [done|]; intros [(_ & H & _) _]; done|].
    case_bool_decide as Hm; simpl.
    + case_bool_decide as Hk.
      * split; [done|]. intros [(_ & _ & H) _].
        specialize (H Hm). destruct (BindingKeys b); simpl in *; [done | lia].
      * split; [|by intros [_ ?]]. intros H. split; [|done].
        repeat split; try done. intros _ Hnil. rewrite Hnil in Hk. simpl in Hk. lia.
    + split; [|by intros [_ ?]]. intros H. split; [|done].
      repeat split; try done.
Qed.

Lemma hasValidURL_iff urls :
  hasValidURL urls = true ↔ ∃ url, url ∈ urls ∧ url ≠ "".
Proof.
  split; [apply hasValidURL_true|].
  intros (url & Hin & Hne).
  destruct (hasValidURL urls) eqn:E; [done|]. exfalso.
  induction urls as [|u urls IH]; [by apply elem_of_nil in Hin|].
  simpl in E. case_bool_decide as Hl; [done|].
  apply elem_of_cons in Hin as [Heq | Hin]; [|by apply IH].
  subst u. destruct url; [done|]. simpl in Hl. lia.
Qed.

(** The whole of the validation, in one place. *)
Lemma ValidateOptions_None_iff o :
  (ValidateOptions env (Some o)).2 = None ↔ valid_options o.
Proof.
  unfold ValidateOptions, valid_options.
  destruct (hasValidURL (URLs o)) eqn:Hu; simpl.
  2: { split; [done|]. intros (H & _). apply hasValidURL_iff in H. congruence. }
  apply hasValidURL_iff in Hu.
  case_bool_decide as Hl.
  { split; [done|]. intros (_ & H & _). by destruct (Bindings o). }
  assert (Bindings o ≠ []) as Hb by (by destruct (Bindings o)).
  unfold validateBindings.
  destruct ((bool_decide (OMode o = Producer) || bool_decide (OMode o = Both))
            && bool_decide (1 < length (Bindings o))%nat) eqn:Hp; simpl.
  { split; [done|]. intros (_ & _ & H & _).
    apply andb_true_iff in Hp as [Hp Hlen]. apply bool_decide_eq_true in Hlen.
    apply orb_true_iff in Hp as [Hp | Hp]; apply bool_decide_eq_true in Hp;
      rewrite H in Hlen; try lia; [by left | by right]. }
  destruct (validateEachBinding (OMode o) (Bindings o)) as [e|] eqn:He; simpl.
  { split; [done|]. intros (_ & _ & _ & H & _).
    apply validateEachBinding_None in H. congruence. }
  apply validateEachBinding_None in He.
  destruct (validMode (OMode o)) as [e|] eqn:Hm; simpl.
  { split; [done|]. intros (_ & _ & _ & _ & H).
    apply validMode_None_iff in H. congruence. }
  split; [|done]. intros _.
  split; [done|]. split; [done|]. split.
  { intros Hpub. apply andb_false_iff in Hp as [Hp | Hp].
    - apply orb_false_iff in Hp as [H1 H2].
      apply bool_decide_eq_false in H1, H2. by destruct Hpub.
    - apply bool_decide_eq_false in Hp. destruct (Bindings o) as [|? [|]];
        simpl in *; try done; lia. }
  split; [done|]. by apply validMode_None_iff.
Qed.

Lemma valid_options_applyDefaults o :
  valid_options o → valid_options (applyDefaults env o).
Proof. by unfold valid_options. Qed.

(** X2. [ValidateOptions] accepts exactly the options that have a non-empty
    URL, at least one binding, at most one binding when the mode publishes,
    in every binding a name, a type when the exchange is to be declared and
    a binding key unless the mode is producer only, and one of the three
    modes; it then leaves the options with the defaults filled in. *)
Theorem ValidateOptions_accepts_exactly_valid_options (o : Options) :
  ValidateOptions env (Some o) = (Some (applyDefaults env o), None)
  ↔ valid_options o.
Proof.
  rewrite <- ValidateOptions_None_iff. split; [by intros ->|].
  intros H. destruct (ValidateOptions env (Some o)) as [o' e] eqn:E.
  simpl in H. subst e.
  by destruct (ValidateOptions_ok env _ _ E) as (-> & _).
Qed.

Lemma validateBindings_None_iff o :
  Bindings o ≠ [] →
  validateBindings o = None
  ↔ (allows_publishing (OMode o) → length (Bindings o) = 1%nat)
    ∧ Forall (valid_binding (OMode o)) (Bindings o).
Proof.
  intros Hb. unfold validateBindings.
  destruct ((bool_decide (OMode o = Producer) || bool_decide (OMode o = Both))
            && bool_decide (1 < length (Bindings o))%nat) eqn:Hp; simpl.
  { split; [done|]. intros (H & _).
    apply andb_true_iff in Hp as [Hp Hlen]. apply bool_decide_eq_true in Hlen.
    apply orb_true_iff in Hp as [Hp | Hp]; apply bool_decide_eq_true in Hp;
      rewrite H in Hlen; try lia; [by left | by right]. }
  rewrite validateEachBinding_None.
  split; [|by intros [_ ?]]. intros HF. split; [|done].
  intros Hpub. apply andb_false_iff in Hp as [Hp | Hp].
  - apply orb_false_iff in Hp as [H1 H2].
    apply bool_decide_eq_false in H1, H2. by destruct Hpub.
  - apply bool_decide_eq_false in Hp. destruct (Bindings o) as [|? [|]];
      simpl in *; try done; lia.
Qed.

(** X3. [ValidateOptions] fills in the defaults before it looks at the
    mode. Options whose only fault is the mode are rejected with the
    error that names the mode, and come back with the defaults filled
    in; options with any other fault, in the URLs or in the bindings, are
    rejected as they are, untouched. *)
Theorem ValidateOptions_rejects_before_defaults (o : Options) :
  (valid_before_mode o →
   ¬ (OMode o = Both ∨ OMode o = Consumer ∨ OMode o = Producer) →
   ValidateOptions env (Some o)
   = (Some (applyDefaults env o),
      Some (errors_New ("invalid mode '" +:+ pretty (OMode o) +:+ "'"))))
  ∧ (¬ valid_before_mode o →
     ∃ e, ValidateOptions env (Some o) = (Some o, Some e)).
Proof.
  unfold ValidateOptions, valid_before_mode. split.
  - intros (Hu & Hb & Hpub & HF) Hmode.
    apply hasValidURL_iff in Hu. rewrite Hu. cbn [negb].
    rewrite bool_decide_false by (by destruct (Bindings o)).
    assert (validateBindings o = None) as ->
      by (by apply validateBindings_None_iff).
    destruct (validMode (OMode (applyDefaults env o))) as [e|] eqn:Hm.
    + unfold validMode in Hm. simpl in Hm.
      repeat case_bool_decide; simpl in Hm; by simplify_eq.
    + apply validMode_None_iff in Hm. by destruct Hmode.
  - intros Hnot.
    destruct (hasValidURL (URLs o)) eqn:Hu; cbn [negb]; [|by eexists].
    case_bool_decide as Hl; [by eexists|].
    destruct (validateBindings o) as [e|] eqn:Hv; [by eexists|].
    exfalso. apply Hnot.
    assert (Bindings o ≠ []) as Hb by (by destruct (Bindings o)).
    apply hasValidURL_iff in Hu. apply validateBindings_None_iff in Hv as [? ?];
      done.
Qed.

(** X4. Options that passed validation pass it again and come back as they
    went in: validating is stable. *)
Theorem ValidateOptions_stable (o o' : Options) :
  ValidateOptions env (Some o) = (Some o', None) →
  ValidateOptions env (Some o') = (Some o', None).
Proof.
  intros Hv.
  assert (valid_options o) as Hvalid.
  { apply ValidateOptions_None_iff. by rewrite Hv. }
  destruct (ValidateOptions_ok env _ _ Hv) as ([= ->] & _).
  apply valid_options_applyDefaults in Hvalid.
  apply ValidateOptions_None_iff in Hvalid.
  destruct (ValidateOptions env (Some (applyDefaults env o))) as [o2 e] eqn:E.
  simpl in Hvalid. subst e.
  destruct (ValidateOptions_ok env _ _ E) as (-> & _).
  by rewrite applyDefaults_idemp.
Qed.

End Defaults.

(** The defaults, at options that set nothing but an interval. *)
Lemma applyDefaults_fills_once_witness :
  let env := counting_env all_fine 0 in
  let o := mkOptions ["amqp://a"] Both "q" [a_binding] 0 0 (-1) false false false
             false None false "" "" false false 0 in
  RetryReconnectSec (applyDefaults env o) = -1
  ∧ AppID (applyDefaults env o) = "p-rabbit-00000000"
  ∧ QueueArgs (applyDefaults env o) = Some ∅.
Proof.
  intros env o.
  destruct (applyDefaults_fills_once env o)
    as (_ & _ & Hkeep & Hid & _ & _ & _ & Hargs & _).
  split; [apply Hkeep; discriminate|].
  split; [apply Hid; reflexivity | apply Hargs; reflexivity].
Defined.

(** The theorem on rejected options, at options whose only fault is the
    mode and at options without a binding. *)
Lemma ValidateOptions_rejects_before_defaults_witness :
  let env := counting_env all_fine 0 in
  let o := some_options ["amqp://a"] 7 [a_binding] in
  ValidateOptions env (Some o)
  = (Some (applyDefaults env o), Some (errors_New "invalid mode '7'"))
  ∧ ∃ e, ValidateOptions env (Some (some_options ["amqp://a"] 7 []))
         = (Some (some_options ["amqp://a"] 7 []), Some e).
Proof.
  intros env o. split.
  - apply (proj1 (ValidateOptions_rejects_before_defaults env o)).
    + split; [exists "amqp://a"; split; [by left | done]|].
      split; [done|]. split; [by intros [H | H]|].
      by repeat constructor.
    + by intros [H | [H | H]].
  - apply (proj2 (ValidateOptions_rejects_before_defaults env
                    (some_options ["amqp://a"] 7 []))).
    by intros (_ & H & _).
Defined.

(** The theorem on the stability of validation, at the sample options. *)
Lemma ValidateOptions_stable_witness :
  let env := counting_env all_fine 0 in
  let o := some_options ["amqp://a"] Both [a_binding] in
  ValidateOptions env (Some (applyDefaults env o))
  = (Some (applyDefaults env o), None).
Proof.
  intros env o.
  apply (ValidateOptions_stable env o (applyDefaults env o)).
  reflexivity.
Defined.

(** ** Sessions *)

Section Sessions.

Variable env : Env.

Lemma bindKeys_plan ch opts exchange keys log :
  ∃ err rest,
    bindKeys env ch opts exchange keys log = (err, log ++ rest)
    ∧ rest `prefix_of`
        map (λ key, EQueueBind ch (QueueName opts) key exchange (QueueArgs opts)) keys
    ∧ (err = None →
       rest = map (λ key, EQueueBind ch (QueueName opts) key exchange
                            (QueueArgs opts)) keys).
Proof.
  revert log. induction keys as [|k keys IH]; intros log; simpl.
  { exists None, []. rewrite app_nil_r. done. }
  run_monad.
  destruct (reply env (length log) _) as [e|].
  - eexists (Some _), [_]. split; [reflexivity|].
    split; [by apply prefix_cons, prefix_nil | done].
  - destruct (IH (log ++ [EQueueBind ch (QueueName opts) k exchange (QueueArgs opts)]))
      as (err & rest & -> & Hp & Hfull).
    exists err, (EQueueBind ch (QueueName opts) k exchange (QueueArgs opts) :: rest).
    rewrite <- app_assoc. split; [done|].
    split; [by apply prefix_cons|]. intros H. by rewrite Hfull.
Qed.

Lemma declareBindings_plan ch opts bs log :
  ∃ err rest,
    declareBindings env ch opts bs log = (err, log ++ rest)
    ∧ rest `prefix_of` concat (map (binding_plan ch opts) bs)
    ∧ (err = None → rest = concat (map (binding_plan ch opts) bs)).
Proof.
  revert log. induction bs as [|b bs IH]; intros log.
  { exists None, []. simpl. rewrite app_nil_r. done. }
  cbn [declareBindings map concat]. unfold binding_plan at 1 3.
  set (ed := EExchangeDeclare ch (ExchangeName b) (ExchangeType b)
               (ExchangeDurable b) (ExchangeAutoDelete b)).
  set (binds := map (λ key, EQueueBind ch (QueueName opts) key (ExchangeName b)
                              (QueueArgs opts)) (BindingKeys b)).
  set (tail := concat (map (binding_plan ch opts) bs)) in *.
  unfold bind at 1.
  destruct (ExchangeDeclare b).
  - unfold bind at 1, perform at 1. fold ed.
    destruct (reply env (length log) ed) as [e|]; simpl.
    { exists (Some (errors_Wrap e "unable to declare exchange")), [ed].
      split; [reflexivity|].
      split; [by apply prefix_cons, prefix_nil | done]. }
    unfold ret at 1. unfold bind at 1.
    case_bool_decide as Hm.
    + destruct (bindKeys_plan ch opts (ExchangeName b) (BindingKeys b) (log ++ [ed]))
        as (err & rest & -> & Hp & Hfull).
      fold binds in Hp, Hfull.
      destruct err as [e|].
      * exists (Some e), (ed :: rest).
        rewrite <- app_assoc. split; [done|].
        split; [|done]. apply prefix_cons. by apply prefix_app_r.
      * rewrite (Hfull eq_refl).
        destruct (IH ((log ++ [ed]) ++ binds)) as (err & rest2 & -> & Hp2 & Hfull2).
        exists err, (ed :: binds ++ rest2).
        split; [by rewrite <- !app_assoc|].
        split; [apply prefix_cons; by apply prefix_app|].
        intros H. by rewrite Hfull2.
    + destruct (IH (log ++ [ed])) as (err & rest2 & -> & Hp2 & Hfull2).
      exists err, (ed :: rest2).
      split; [by rewrite <- !app_assoc|].
      split; [by apply prefix_cons|].
      intros H. by rewrite Hfull2.
  - unfold ret at 1. cbn [app]. unfold bind at 1.
    case_bool_decide as Hm.
    + destruct (bindKeys_plan ch opts (ExchangeName b) (BindingKeys b) log)
        as (err & rest & -> & Hp & Hfull).
      fold binds in Hp, Hfull.
      destruct err as [e|].
      * exists (Some e), rest. split; [done|]. split; [|done].
        by apply prefix_app_r.
      * rewrite (Hfull eq_refl).
        destruct (IH (log ++ binds)) as (err & rest2 & -> & Hp2 & Hfull2).
        exists err, (binds ++ rest2).
        split; [by rewrite <- !app_assoc|].
        split; [by apply prefix_app|].
        intros H. by rewrite Hfull2.
    + unfold ret at 1. cbn [app].
      destruct (IH log) as (err & rest2 & -> & Hp2 & Hfull2).
      by exists err, rest2.
Qed.

Lemma newServerChannel_plan r c log :
  Conn r = Some c →
  ∃ res rest,
    newServerChannel env r log = (res, log ++ rest)
    ∧ rest `prefix_of` session_plan c (length log) (ROptions r)
    ∧ ((res = (Some (length log), None)
        ∧ rest = session_plan c (length log) (ROptions r))
       ∨ ∃ e, res = (None, Some e)).
Proof.
  intros Hc. unfold newServerChannel, session_plan. rewrite Hc.
  set (opts := ROptions r). set (ch := length log).
  set (eC := EChannel c).
  set (eQ := EQos ch (QosPrefetchCount opts) (QosPrefetchSize opts)).
  set (eD := EQueueDeclare ch (QueueName opts) (QueueDurable opts)
               (QueueAutoDelete opts) (QueueExclusive opts) (QueueArgs opts)).
  set (tail := concat (map (binding_plan ch opts) (Bindings opts))).
  unfold bind at 1, now. fold ch. unfold bind at 1, perform at 1. fold eC.
  destruct (reply env (length log) eC) as [e|].
  { exists (None, Some (errors_Wrap e "unable to instantiate channel")), [eC].
    split; [reflexivity|].
    split; [by apply prefix_cons, prefix_nil | right; by eexists]. }
  unfold bind at 1, perform at 1. fold eQ.
  destruct (reply env (length (log ++ [eC])) eQ) as [e|].
  { exists (None, Some (errors_Wrap e "unable to set qos policy")), [eC; eQ].
    rewrite <- app_assoc. split; [reflexivity|].
    split; [by do 2 apply prefix_cons; apply prefix_nil | right; by eexists]. }
  unfold bind at 1.
  destruct (bool_decide (OMode opts ≠ Producer) && QueueDeclare opts).
  - unfold perform at 1. fold eD.
    destruct (reply env (length ((log ++ [eC]) ++ [eQ])) eD) as [e|].
    { exists (None, Some e), [eC; eQ; eD]. rewrite <- !app_assoc.
      split; [reflexivity|].
      split; [by do 3 apply prefix_cons; apply prefix_nil | right; by eexists]. }
    unfold bind at 1.
    destruct (declareBindings_plan ch opts (Bindings opts)
                (((log ++ [eC]) ++ [eQ]) ++ [eD]))
      as (err & rest & -> & Hp & Hfull).
    fold tail in Hp, Hfull.
    destruct err as [e|].
    + exists (None, Some e), (eC :: eQ :: eD :: rest). rewrite <- !app_assoc.
      split; [reflexivity|].
      split; [by do 3 apply prefix_cons | right; by eexists].
    + exists (Some ch, None), (eC :: eQ :: eD :: rest). rewrite <- !app_assoc.
      split; [reflexivity|].
      split; [by do 3 apply prefix_cons|]. left. by rewrite Hfull.
  - unfold ret at 1. unfold bind at 1.
    destruct (declareBindings_plan ch opts (Bindings opts) ((log ++ [eC]) ++ [eQ]))
      as (err & rest & -> & Hp & Hfull).
    fold tail in Hp, Hfull.
    destruct err as [e|].
    + exists (None, Some e), (eC :: eQ :: rest). rewrite <- !app_assoc.
      split; [reflexivity|].
      split; [by do 2 apply prefix_cons | right; by eexists].
    + exists (Some ch, None), (eC :: eQ :: rest). rewrite <- !app_assoc.
      split; [reflexivity|].
      split; [by do 2 apply prefix_cons|]. left. by rewrite Hfull.
Qed.

Lemma newServerChannel_result r log :
  ∃ res rest,
    newServerChannel env r log = (res, log ++ rest)
    ∧ Forall (λ x, is_session x = true) rest
    ∧ ((∃ c, Conn r = Some c ∧ res = (Some (length log), None)
             ∧ rest = session_plan c (length log) (ROptions r))
       ∨ ∃ e, res = (None, Some e)).
Proof.
  destruct (newServerChannel_appends env r log) as (rest0 & E0 & F0).
  assert (Forall (λ x, is_session x = true) rest0) as F.
  { eapply Forall_impl; [exact F0|]. intros x Hx. by apply Is_true_true. }
  clear F0.
  destruct (Conn r) as [c|] eqn:Hc.
  - destruct (newServerChannel_plan r c log Hc) as (res & rest & E & _ & H).
    rewrite E in E0. simpl in E0. apply app_inv_head in E0. subst rest0.
    exists res, rest. split; [done|]. split; [done|].
    destruct H as [[-> ->] | [e ->]]; [left; by exists c | right; by exists e].
  - unfold newServerChannel in *. rewrite Hc in *. simpl in E0.
    eexists (None, Some _), []. rewrite app_nil_r. split; [reflexivity|].
    split; [done|]. right. by eexists.
Qed.

Lemma chain_self e : e ∈ chain e.
Proof. destruct e; simpl; by left. Qed.

Lemma chain_wrap e msg : e ∈ chain (errors_Wrap e msg).
Proof. simpl. right. apply chain_self. Qed.

Lemma answered_nil t : answered env t [].
Proof. intros i e H. by rewrite lookup_nil in H. Qed.

Lemma answered_cons t x l :
  answered env t (x :: l) ↔ reply env t x = None ∧ answered env (S t) l.
Proof.
  split.
  - intros H. split.
    + specialize (H 0%nat x eq_refl). by rewrite Nat.add_0_r in H.
    + intros i e Hi. specialize (H (S i) e Hi).
      by replace (S t + i)%nat with (t + S i)%nat by lia.
  - intros [Hx Hl] [|i] e Hi; simpl in Hi.
    + injection Hi as <-. by rewrite Nat.add_0_r.
    + replace (t + S i)%nat with (S t + i)%nat by lia. by apply Hl.
Qed.

Lemma answered_app t l1 l2 :
  answered env t (l1 ++ l2)
  ↔ answered env t l1 ∧ answered env (t + length l1) l2.
Proof.
  revert t. induction l1 as [|x l1 IH]; intros t; simpl.
  { rewrite Nat.add_0_r. split; [intros H; split; [apply answered_nil | done] | by intros [_ H]]. }
  rewrite !answered_cons, IH.
  replace (t + S (length l1))%nat with (S t + length l1)%nat by lia.
  tauto.
Qed.

Lemma follows_ret : follows env (ret None) [].
Proof.
  intros log. split.
  - intros _. unfold ret. by rewrite app_nil_r.
  - intros i x cause Hi. by rewrite lookup_nil in Hi.
Qed.

(** One request, whose failure is wrapped by [wrap], then the rest. *)
Lemma follows_step x (wrap : error → error) m plan :
  (∀ e, e ∈ chain (wrap e)) →
  follows env m plan →
  follows env (bind (perform env x)
                 (λ err, match err with
                         | Some e => ret (Some (wrap e))
                         | None => m
                         end)) (x :: plan).
Proof.
  intros Hwrap Hm log. unfold bind, perform. split.
  - intros [Hx Hp]%answered_cons. rewrite Hx.
    destruct (Hm (log ++ [x])) as [Hok _].
    rewrite Hok, <- app_assoc; [done|].
    by rewrite length_app, Nat.add_1_r.
  - intros [|i] y cause Hi Hy Hpre; simpl in Hi.
    + injection Hi as <-. rewrite Nat.add_0_r in Hy. rewrite Hy.
      exists (wrap cause). split; [done | apply Hwrap].
    + simpl in Hpre. apply answered_cons in Hpre as [Hx Hpre]. rewrite Hx.
      destruct (Hm (log ++ [x])) as [_ Hfail].
      rewrite length_app, Nat.add_1_r in Hfail.
      destruct (Hfail i y cause Hi) as (e & E & He); [|done|].
      { by replace (S (length log) + i)%nat with (length log + S i)%nat by lia. }
      exists e. split; [|done]. rewrite E. simpl. by rewrite <- app_assoc.
Qed.

(** Two computations one after the other. *)
Lemma follows_seq m1 m2 p1 p2 :
  follows env m1 p1 → follows env m2 p2 →
  follows env (bind m1 (λ err, match err with
                               | Some e => ret (Some e)
                               | None => m2
                               end)) (p1 ++ p2).
Proof.
  intros H1 H2 log. unfold bind. split.
  - intros [Hp1 Hp2]%answered_app.
    destruct (H1 log) as [Hok1 _]. rewrite Hok1 by done.
    destruct (H2 (log ++ p1)) as [Hok2 _].
    rewrite Hok2, <- app_assoc; [done|]. by rewrite length_app.
  - intros i x cause Hi Hx Hpre.
    destruct (decide (i < length p1)%nat) as [Hlt | Hge].
    + rewrite lookup_app_l in Hi by done.
      rewrite take_app_le in Hpre by lia.
      destruct (H1 log) as [_ Hfail1].
      destruct (Hfail1 i x cause Hi Hx Hpre) as (e & E & He).
      exists e. rewrite E. split; [|done].
      by rewrite take_app_le by lia.
    + rewrite lookup_app_r in Hi by lia.
      rewrite take_app_ge in Hpre by lia.
      apply answered_app in Hpre as [Hp1 Hpre].
      destruct (H1 log) as [Hok1 _]. rewrite Hok1 by done.
      destruct (H2 (log ++ p1)) as [_ Hfail2].
      rewrite length_app in Hfail2.
      destruct (Hfail2 (i - length p1)%nat x cause Hi) as (e & E & He); [|done|].
      { by replace (length log + length p1 + (i - length p1))%nat
          with (length log + i)%nat by lia. }
      exists e. rewrite E. split; [|done].
      rewrite take_app_ge by lia. rewrite <- app_assoc.
      by replace (S i - length p1)%nat with (S (i - length p1)) by lia.
Qed.

Lemma bindKeys_follows ch opts exchange keys :
  follows env (bindKeys env ch opts exchange keys)
    (map (λ key, EQueueBind ch (QueueName opts) key exchange (QueueArgs opts)) keys).
Proof.
  induction keys as [|k keys IH]; [apply follows_ret|].
  cbn [bindKeys map].
  apply (follows_step _ (λ e, errors_Wrap e "unable to bind queue")); [|done].
  intros e. apply chain_wrap.
Qed.

Lemma declareBindings_follows ch opts bs :
  follows env (declareBindings env ch opts bs)
    (concat (map (binding_plan ch opts) bs)).
Proof.
  induction bs as [|b bs IH]; [apply follows_ret|].
  cbn [declareBindings map concat]. unfold binding_plan at 1.
  rewrite <- app_assoc.
  apply follows_seq; [|apply follows_seq; [|done]].
  - destruct (ExchangeDeclare b); [|apply follows_ret].
    intros log.
    destruct (follows_step
                (EExchangeDeclare ch (ExchangeName b) (ExchangeType b)
                   (ExchangeDurable b) (ExchangeAutoDelete b))
                (λ e, errors_Wrap e "unable to declare exchange")
                (ret None) [] (λ e, chain_wrap e _) follows_ret log)
      as [Hok Hfail].
    unfold bind, perform, ret in *.
    split.
    + intros Ha. specialize (Hok Ha).
      by destruct (reply env (length log) _).
    + intros i x cause Hi Hx Hpre.
      destruct (Hfail i x cause Hi Hx Hpre) as (e & E & He).
      exists e. split; [|done].
      by destruct (reply env (length log) _).
  - case_bool_decide; [apply bindKeys_follows | apply follows_ret].
Qed.

(** [newServerChannel] follows the plan of the session. *)
Lemma newServerChannel_follows r c log :
  Conn r = Some c →
  let plan := session_plan c (length log) (ROptions r) in
  (answered env (length log) plan →
   newServerChannel env r log = (Some (length log), None, log ++ plan))
  ∧ (∀ i x cause,
       plan !! i = Some x →
       reply env (length log + i)%nat x = Some cause →
       answered env (length log) (take i plan) →
       ∃ e, newServerChannel env r log = (None, Some e, log ++ take (S i) plan)
            ∧ cause ∈ chain e).
Proof.
  intros Hc plan.
  set (opts := ROptions r). set (ch := length log).
  set (m := bind (perform env (EChannel c))
              (λ err, match err with
                      | Some e => ret (Some (errors_Wrap e "unable to instantiate channel"))
                      | None =>
                bind (perform env (EQos ch (QosPrefetchCount opts)
                                     (QosPrefetchSize opts)))
                  (λ err, match err with
                          | Some e => ret (Some (errors_Wrap e "unable to set qos policy"))
                          | None =>
                    bind (if bool_decide (OMode opts ≠ Producer) && QueueDeclare opts
                          then perform env
                                 (EQueueDeclare ch (QueueName opts) (QueueDurable opts)
                                    (QueueAutoDelete opts) (QueueExclusive opts)
                                    (QueueArgs opts))
                          else ret None)
                      (λ err, match err with
                              | Some e => ret (Some e)
                              | None => declareBindings env ch opts (Bindings opts)
                              end)
                          end)
                      end)).
  assert (follows env m plan) as Hm.
  { subst m plan. unfold session_plan. fold opts ch. cbn [app].
    apply (follows_step _ (λ e, errors_Wrap e "unable to instantiate channel"));
      [intros e; apply chain_wrap|].
    apply (follows_step _ (λ e, errors_Wrap e "unable to set qos policy"));
      [intros e; apply chain_wrap|].
    apply follows_seq; [|apply declareBindings_follows].
    destruct (bool_decide (OMode opts ≠ Producer) && QueueDeclare opts);
      [|apply follows_ret].
    intros log0.
    destruct (follows_step
                (EQueueDeclare ch (QueueName opts) (QueueDurable opts)
                   (QueueAutoDelete opts) (QueueExclusive opts) (QueueArgs opts))
                (λ e, e) (ret None) [] chain_self follows_ret log0)
      as [Hok Hfail].
    unfold bind, perform, ret in *.
    split.
    - intros Ha. specialize (Hok Ha). by destruct (reply env (length log0) _).
    - intros i x cause Hi Hx Hpre.
      destruct (Hfail i x cause Hi Hx Hpre) as (e & E & He).
      exists e. split; [|done]. by destruct (reply env (length log0) _). }
  assert (newServerChannel env r log
          = (let '(err, log') := m log in
             (match err with Some _ => None | None => Some ch end, err, log')))
    as ->.
  { unfold newServerChannel. rewrite Hc. subst m. fold opts.
    unfold bind at 1, now. fold ch.
    unfold bind, perform, ret.
    destruct (reply env (length log) (EChannel c)); [done|].
    destruct (reply env (length (log ++ [EChannel c])) _); [done|].
    destruct (bool_decide (OMode opts ≠ Producer) && QueueDeclare opts).
    - destruct (reply env _ _); [done|].
      by destruct (declareBindings env ch opts (Bindings opts) _) as [[e|] l].
    - by destruct (declareBindings env ch opts (Bindings opts) _) as [[e|] l]. }
  destruct (Hm log) as [Hok Hfail]. split.
  - intros Ha. by rewrite Hok.
  - intros i x cause Hi Hx Hpre.
    destruct (Hfail i x cause Hi Hx Hpre) as (e & E & He).
    exists e. by rewrite E.
Qed.

(** X5. [newServerChannel] works through the plan of the session in
    order. When every request of the plan is answered without error it
    has asked for the whole plan and returns the new channel and no
    error. Otherwise it stops at the first request that fails: that
    request is the last one it asks for, and it returns no channel and an
    error that wraps the failure. Without a connection it asks for
    nothing and returns an error. *)
Theorem newServerChannel_runs_its_plan (r : Rabbit) (log : Log) :
  match Conn r with
  | None => ∃ e, newServerChannel env r log = (None, Some e, log)
  | Some c =>
      let plan := session_plan c (length log) (ROptions r) in
      (answered env (length log) plan →
       newServerChannel env r log = (Some (length log), None, log ++ plan))
      ∧ (∀ i x cause,
           plan !! i = Some x →
           reply env (length log + i)%nat x = Some cause →
           answered env (length log) (take i plan) →
           ∃ e, newServerChannel env r log = (None, Some e, log ++ take (S i) plan)
                ∧ cause ∈ chain e)
  end.
Proof.
  destruct (Conn r) as [c|] eqn:Hc.
  - by apply newServerChannel_follows.
  - unfold newServerChannel. rewrite Hc. by eexists.
Qed.

Lemma session_plan_producer c ch opts :
  OMode opts = Producer →
  Forall (λ e, is_queue_request e = false) (session_plan c ch opts).
Proof.
  intros Hm. unfold session_plan.
  rewrite bool_decide_false by (by intros H).
  simpl. do 2 (apply Forall_cons_2; [done|]).
  induction (Bindings opts) as [|b bs IH]; simpl; [done|].
  apply Forall_app. split; [|done].
  unfold binding_plan. rewrite bool_decide_false by (by intros H).
  rewrite app_nil_r. destruct (ExchangeDeclare b); by repeat constructor.
Qed.

(** X6. In producer mode a session never touches a queue: [newServerChannel]
    declares no queue and binds none, whatever the options say about queues
    and binding keys. *)
Theorem newServerChannel_producer_leaves_queues_alone (r : Rabbit) (log : Log) :
  OMode (ROptions r) = Producer →
  ∃ res rest,
    newServerChannel env r log = (res, log ++ rest)
    ∧ Forall (λ e, is_queue_request e = false) rest.
Proof.
  intros Hm. destruct (Conn r) as [c|] eqn:Hc.
  - destruct (newServerChannel_plan r c log Hc) as (res & rest & E & [k Hk] & _).
    exists res, rest. split; [done|].
    pose proof (session_plan_producer c (length log) (ROptions r) Hm) as HF.
    rewrite Hk in HF. by apply Forall_app in HF as [? _].
  - exists (None, Some (errors_New
              "r.Conn is nil - did this get instantiated correctly? bug?")), [].
    unfold newServerChannel. rewrite Hc, app_nil_r. done.
Qed.

Lemma newConsumerChannel_outcomes (r : Rabbit) (log : Log) :
  (∃ e rest, newConsumerChannel env r log = (r, Some e, log ++ rest)
             ∧ Forall (λ x, is_session x = true) rest)
  ∨ (∃ c, Conn r = Some c
          ∧ newConsumerChannel env r log
            = (set_channels (Some (length log)) (Some (length log)) r, None,
               log ++ session_plan c (length log) (ROptions r)
                   ++ [consume_of (length log) (ROptions r)])
          ∧ Forall (λ x, is_session x = true)
              (session_plan c (length log) (ROptions r)
                 ++ [consume_of (length log) (ROptions r)])).
Proof.
  destruct (newConsumerChannel_appends env r log) as (rest0 & E0 & F0).
  assert (Forall (λ x, is_session x = true) rest0) as F.
  { eapply Forall_impl; [exact F0|]. intros x Hx. by apply Is_true_true. }
  clear F0. revert E0.
  unfold newConsumerChannel, bind.
  destruct (Conn r) as [c|] eqn:Hc.
  - destruct (newServerChannel_plan r c log Hc)
      as (res & rest & -> & _ & [[-> ->] | [e ->]]).
    + unfold perform, ret. fold (consume_of (length log) (ROptions r)).
      destruct (reply env _ _) as [e|]; simpl; intros E0.
      * left. exists (errors_Wrap e "unable to create delivery channel"), rest0.
        by rewrite E0.
      * right. exists c. split; [done|].
        rewrite <- app_assoc in E0. apply app_inv_head in E0. subst rest0.
        split; [by rewrite <- app_assoc | done].
    + simpl. intros E0. apply app_inv_head in E0. subst rest0.
      left. by exists (errors_Wrap e "unable to create new server channel"), rest.
  - unfold newServerChannel. rewrite Hc. simpl. intros E0.
    left. eexists _, []. rewrite app_nil_r. done.
Qed.

(** X7. [newConsumerChannel] either fails and leaves the instance as it was,
    or opens the delivery stream as the last request of a complete session
    and stores the one new channel both as the consumer's and as the
    producer's: the two sides share it. *)
Theorem newConsumerChannel_shares_the_channel (r : Rabbit) (log : Log) :
  (∃ e rest, newConsumerChannel env r log = (r, Some e, log ++ rest))
  ∨ (∃ c, Conn r = Some c
          ∧ newConsumerChannel env r log
            = (set_channels (Some (length log)) (Some (length log)) r, None,
               log ++ session_plan c (length log) (ROptions r)
                   ++ [consume_of (length log) (ROptions r)])).
Proof.
  destruct (newConsumerChannel_outcomes r log)
    as [(e & rest & E & _) | (c & Hc & E & _)].
  - left. by exists e, rest.
  - right. by exists c.
Qed.

End Sessions.

(** The theorem on sessions in producer mode, at options that ask for a
    queue declaration and carry a binding key. *)
Lemma newServerChannel_producer_leaves_queues_alone_witness :
  let env := counting_env all_fine 0 in
  let r := mkRabbit (Some 0%nat) None false 0 None 0 false false None false
             (mkOptions ["amqp://a"] Producer "q"
                [mkBinding "ex" ["k"] true "topic" true false]
                0 0 60 false false false true (Some ∅) false "c" "p" false false
                DefaultConnectionTimeout) false false in
  ∃ res rest,
    newServerChannel env r [] = (res, [] ++ rest)
    ∧ Forall (λ e, is_queue_request e = false) rest.
Proof.
  intros env r.
  apply (newServerChannel_producer_leaves_queues_alone env r []).
  reflexivity.
Defined.

(** ** New *)

Section Instances.

Variable env : Env.

(** The dial loop of [New] over a list of URLs that is not empty: it
    leaves a connection and no error, or an error and no connection. *)
Lemma dialLoop_shape urls opts ac err log :
  urls ≠ [] →
  ∃ ac' err' rest,
    dialLoop env urls opts ac err log = (with_timeout opts, ac', err', log ++ rest)
    ∧ Forall (λ e, is_dial e = true) rest
    ∧ ((is_Some ac' ∧ err' = None) ∨ (ac' = None ∧ is_Some err')).
Proof.
  revert opts ac err log.
  induction urls as [|u urls IH]; intros opts ac err log Hne; [done|].
  rewrite dialLoop_cons.
  destruct (reply env (length log) (dial_of opts u)) as [e|].
  - destruct urls as [|u' urls].
    + exists None, (Some e), [dial_of opts u]. simpl. unfold ret.
      split; [done|]. split; [by repeat constructor|]. right. by split.
    + destruct (IH (with_timeout opts) None (Some e) (log ++ [dial_of opts u]))
        as (ac' & err' & rest & E & F & H); [done|].
      rewrite with_timeout_idemp in E.
      exists ac', err', (dial_of opts u :: rest).
      rewrite E, <- app_assoc. split; [done|].
      split; [by constructor | done].
  - exists (Some (length log)), None, [dial_of opts u].
    split; [done|]. split; [by repeat constructor|]. left. by split.
Qed.

Lemma last_two {A} (l : list A) (a b : A) : last (l ++ [a; b]) = Some b.
Proof.
  replace (l ++ [a; b]) with ((l ++ [a]) ++ [b]) by (by rewrite <- app_assoc).
  apply last_snoc.
Qed.

(** Everything [New] can do, in one place. *)
Lemma New_shape (opts : option Options) (log : Log) :
  ∃ res rest,
    New env opts log = (res, log ++ rest)
    ∧ Forall (λ e, is_setup e = true) rest
    ∧ ((∃ e, res = (None, Some e) ∧ EGoWatcher ∉ rest)
       ∨ (∃ r o c,
            res = (Some r, None) ∧ opts = Some o ∧ valid_options o
            ∧ last rest = Some EGoWatcher
            ∧ ROptions r = with_timeout (applyDefaults env o)
            ∧ Conn r = Some c ∧ NotifyCloseChan r = Some c
            ∧ shutdown r = false ∧ cancelled r = false
            ∧ ReconnectInProgress r = false ∧ ReconnectChan r = 0%nat
            ∧ ConsumerWG r = 0%nat
            ∧ ConsumerDeliveryChannel r = ProducerServerChannel r
            ∧ (is_Some (ProducerServerChannel r) ↔ OMode o ≠ Producer))).
Proof.
  unfold New.
  destruct (ValidateOptions env opts) as [o' [e|]] eqn:Hv.
  { exists (None, Some (errors_Wrap e "invalid options")), [].
    rewrite app_nil_r. split; [by destruct o'|]. split; [done|].
    left. eexists. split; [done|]. apply not_elem_of_nil. }
  destruct opts as [o|]; [|done].
  pose proof (proj1 (ValidateOptions_None_iff env o)) as Hvalid.
  rewrite Hv in Hvalid. specialize (Hvalid eq_refl).
  destruct (ValidateOptions_ok env _ _ Hv) as (-> & (url & Hin & _) & _).
  set (o1 := applyDefaults env o).
  assert (URLs o1 ≠ []) as Hne.
  { simpl. intros H. rewrite H in Hin. by apply elem_of_nil in Hin. }
  unfold bind at 1.
  destruct (dialLoop_shape (URLs o1) o1 None None log Hne)
    as (ac & err & rest1 & -> & F1 & Hres).
  assert (Forall (λ e, is_setup e = true) rest1) as F1'.
  { eapply Forall_impl; [exact F1|]. intros x Hx. unfold is_setup. by rewrite Hx. }
  destruct Hres as [[[c ->] ->] | [-> [e ->]]].
  2: { exists (None, Some (errors_Wrap e "unable to dial server")), rest1.
       split; [done|]. split; [done|]. left. eexists. split; [done|].
       intros Hin'. rewrite Forall_forall in F1. by specialize (F1 _ Hin'). }
  set (r0 := mkRabbit _ _ _ _ _ _ _ _ _ _ _ _ _).
  unfold bind at 1.
  assert (OMode (with_timeout o1) = OMode o) as HM.
  { unfold with_timeout. by case_bool_decide. }
  rewrite HM.
  case_bool_decide as Hmode.
  - assert (∀ x, is_session x = true → is_setup x = true) as Hss.
    { intros x Hx. unfold is_setup. rewrite Hx. by rewrite orb_true_r. }
    destruct (newConsumerChannel_outcomes env r0 (log ++ rest1))
      as [(e & rest2 & -> & F2) | (c' & Hc' & -> & F2)].
    + exists (None, Some (errors_Wrap e "unable to get initial delivery channel")),
        (rest1 ++ rest2).
      rewrite app_assoc. split; [done|].
      split; [apply Forall_app; split; [done | by eapply Forall_impl]|]. left. eexists. split; [done|].
      intros Hin'. apply elem_of_app in Hin' as [Hin' | Hin'].
      * rewrite Forall_forall in F1. by specialize (F1 _ Hin').
      * rewrite Forall_forall in F2. by specialize (F2 _ Hin').
    + set (plan := session_plan c' _ _ ++ _) in *. clearbody plan.
      exists (Some (mkRabbit (Some c) (Some (length (log ++ rest1))) false 0%nat
                      (Some c) 0%nat false false (Some (length (log ++ rest1)))
                      false (with_timeout o1) false false), None),
        (rest1 ++ plan ++ [ENotifyClose c; EGoWatcher]).
      split; [run_monad; by rewrite <- !app_assoc|].
      split.
      { apply Forall_app. split; [done|]. apply Forall_app.
        split; [by eapply Forall_impl | by repeat constructor]. }
      right. eexists _, o, c. split; [done|].
      split; [done|]. split; [done|].
      split; [by rewrite ?app_assoc, last_two|].
      do 9 (split; [done|]). split; [done | intros _; by eexists].
  - unfold ret at 1.
    exists (Some (mkRabbit (Some c) None false 0%nat (Some c) 0%nat false false None
                    false (with_timeout o1) false false), None),
      (rest1 ++ [ENotifyClose c; EGoWatcher]).
    split; [run_monad; by rewrite <- !app_assoc|].
    split; [apply Forall_app; split; [done | by repeat constructor]|].
    right. eexists _, o, c. split; [done|].
    split; [done|]. split; [done|].
    split; [by rewrite ?app_assoc, last_two|].
    do 9 (split; [done|]). split.
    + by intros [? ?].
    + intros H. by destruct Hmode.
Qed.

(** X8. An instance that [New] returns is ready for use: its options passed
    validation and have the defaults and the dial timeout filled in, it
    holds a connection on which the close notification is registered, it
    is neither shut down nor cancelled, no rebuild is in progress and no
    reconnect signal or consumer is pending. In producer mode it has no
    session yet; in the other modes it has one, shared by the consumer and
    the producer side. The watcher was started as the last thing. *)
Theorem New_returns_ready_instance (opts : option Options) (r : Rabbit)
    (log log' : Log) :
  New env opts log = (Some r, None, log') →
  ∃ o c rest,
    opts = Some o ∧ valid_options o
    ∧ log' = log ++ rest ∧ last rest = Some EGoWatcher
    ∧ ROptions r = with_timeout (applyDefaults env o)
    ∧ 0 < ConnectionTimeout (ROptions r)
    ∧ Conn r = Some c ∧ NotifyCloseChan r = Some c
    ∧ shutdown r = false ∧ cancelled r = false
    ∧ ReconnectInProgress r = false ∧ ReconnectChan r = 0%nat
    ∧ ConsumerWG r = 0%nat
    ∧ ConsumerDeliveryChannel r = ProducerServerChannel r
    ∧ (is_Some (ProducerServerChannel r) ↔ OMode o ≠ Producer).
Proof.
  intros HN.
  destruct (New_shape opts log) as (res & rest & E & _ & H).
  rewrite HN in E. injection E as <- ->.
  destruct H as [(e & [=] & _) | (r' & o & c & [= <-] & H)].
  destruct H as (-> & Hv & Hl & HO & HC & HN' & H).
  exists o, c, rest.
  do 5 (split; [done|]). split; [|done].
  rewrite HO. unfold with_timeout.
  case_bool_decide as Ht; [done | lia].
Qed.

(** X9. [New] returns an instance exactly when it returns no error. It closes
    nothing, not even the connection it has dialled when the first session
    cannot be built, and it starts the watcher only when it succeeds. *)
Theorem New_closes_nothing (opts : option Options) (log : Log) :
  ∃ res rest,
    New env opts log = (res, log ++ rest)
    ∧ Forall (λ e, is_close e = false) rest
    ∧ (is_Some res.1 ↔ res.2 = None)
    ∧ (EGoWatcher ∈ rest ↔ is_Some res.1).
Proof.
  destruct (New_shape opts log) as (res & rest & E & F & H).
  exists res, rest. split; [done|]. split.
  { eapply Forall_impl; [exact F|]. by intros []. }
  destruct H as [(e & -> & Hno) | (r & o & c & -> & _ & _ & Hl & _)]; simpl.
  - split; [split; [by intros [? ?] | done]|].
    split; [done | by intros [? ?]].
  - split; [split; [done | by eexists]|].
    split; [by eexists|]. intros _.
    apply last_Some in Hl as [l' ->]. apply elem_of_app. right. by left.
Qed.

End Instances.

(** The theorem on the instances of [New], at the sample options. *)
Lemma New_returns_ready_instance_witness :
  let env := counting_env all_fine 0 in
  ∃ o c rest,
    Some (some_options ["amqp://a"] Both [a_binding]) = Some o ∧ valid_options o
    ∧ [EDialConfig "amqp://a" DefaultConnectionTimeout None;
       EChannel 0%nat; EQos 1%nat 0 0;
       EQueueBind 1%nat "q" "k" "ex" (Some ∅);
       EConsume 1%nat "q" "c-rabbit-00000000" false false;
       ENotifyClose 0%nat; EGoWatcher] = [] ++ rest
    ∧ last rest = Some EGoWatcher
    ∧ ROptions (an_instance Both) = with_timeout (applyDefaults env o)
    ∧ 0 < ConnectionTimeout (ROptions (an_instance Both))
    ∧ Conn (an_instance Both) = Some c ∧ NotifyCloseChan (an_instance Both) = Some c
    ∧ shutdown (an_instance Both) = false ∧ cancelled (an_instance Both) = false
    ∧ ReconnectInProgress (an_instance Both) = false
    ∧ ReconnectChan (an_instance Both) = 0%nat
    ∧ ConsumerWG (an_instance Both) = 0%nat
    ∧ ConsumerDeliveryChannel (an_instance Both)
      = ProducerServerChannel (an_instance Both)
    ∧ (is_Some (ProducerServerChannel (an_instance Both)) ↔ OMode o ≠ Producer).
Proof.
  intros env.
  apply (New_returns_ready_instance env
           (Some (some_options ["amqp://a"] Both [a_binding])) (an_instance Both) []).
  reflexivity.
Defined.

(** ** The consume loops *)

Section Loops.

Variable env : Env.

Lemma failures_app f t a b :
  failures f t (a ++ b) = (failures f t a + failures f (t + length a) b)%nat.
Proof.
  revert t. induction a as [|e a IH]; intros t; simpl.
  { by rewrite Nat.add_0_r. }
  rewrite IH. replace (S t + length a)%nat with (t + S (length a))%nat by lia. lia.
Qed.

(** An instance is itself with the signals it has. *)
Lemma with_signals_self r : r = with_signals (ReconnectChan r) r.
Proof. by destruct r. Qed.

(** The retry loop on one delivery: every call of the handler that
    failed is followed by exactly one report, no reconnect signal is sent
    and the instance is not touched. *)
Lemma consumeRetry_reports f msg fuel :
  ∀ (s : ConsumeState env) log,
  ∃ ending s' rest,
    consumeRetry env fuel f msg s log = (ending, s', log ++ rest)
    ∧ length (filter is_report rest) = failures f (length log) rest
    ∧ filter is_signal rest = []
    ∧ cs_r s' = cs_r s
    ∧ Forall (λ m, m = msg) (handled rest)
    ∧ (ending = Returned ∨ ending = OutOfFuel).
Proof.
  induction fuel as [|fuel IH]; intros s log.
  { exists OutOfFuel, s, []. rewrite app_nil_r. repeat split; try done. by right. }
  simpl. unfold bind at 1, now. unfold bind at 1, emit.
  destruct (f (length log) msg) as [err|] eqn:Hf.
  2: { exists Returned, s, [EHandler msg]. simpl. rewrite Hf.
       repeat split; try done; [by repeat constructor | by left]. }
  set (final := errors_New ("error during consume: " +:+ Error err)).
  assert (∀ retry,
            ∃ s' rest,
              bind (writeError (cs_errChan s) (Some (mkConsumeError msg final)))
                (λ '(errChan, _), ret (Returned, mkCS env (cs_r s) errChan retry
                                                   (cs_retries s)))
                (log ++ [EHandler msg]) = (Returned, s', log ++ rest)
              ∧ length (filter is_report rest) = failures f (length log) rest
              ∧ filter is_signal rest = []
              ∧ cs_r s' = cs_r s
              ∧ Forall (λ m, m = msg) (handled rest)) as Hfinal.
  { intros retry. unfold bind.
    destruct (writeError_log (cs_errChan s) (mkConsumeError msg final)
                (log ++ [EHandler msg])) as (ec' & o & ->).
    exists (mkCS env (cs_r s) ec' retry (cs_retries s)),
      [EHandler msg; EWriteError (mkConsumeError msg final)].
    rewrite <- app_assoc. simpl. rewrite Hf.
    repeat split; try done. by repeat constructor. }
  destruct (cs_retry s) as [rp|].
  2: { destruct (Hfinal None) as (s' & rest & E & H1 & H2 & H3 & H4).
       exists Returned, s', rest. repeat split; try done. by left. }
  destruct (ShouldRetry env rp) as [[] rp'].
  2: { destruct (Hfinal (Some rp')) as (s' & rest & E & H1 & H2 & H3 & H4).
       exists Returned, s', rest. repeat split; try done. by left. }
  clear Hfinal.
  set (ce := mkConsumeError msg
               (errors_New ("[Retry " +:+ AttemptCount env rp'
                            +:+ "] error during consume: " +:+ Error err))).
  unfold bind at 1, emit. unfold bind at 1.
  destruct (writeError_log (cs_errChan s) ce
              ((log ++ [EHandler msg]) ++ [EDuration (cs_retries s)]))
    as (ec' & o & ->).
  unfold bind at 1.
  set (d := ESleep (Duration env rp' (cs_retries s))).
  destruct (IH (mkCS env (cs_r s) ec' (Some rp') (cs_retries s + 1))
              ((((log ++ [EHandler msg]) ++ [EDuration (cs_retries s)])
                  ++ [EWriteError ce]) ++ [d]))
    as (ending & s' & rest & E & Hrep & Hsig & Hr & Hh & Hend).
  exists ending, s', ([EHandler msg; EDuration (cs_retries s); EWriteError ce; d] ++ rest).
  split.
  { rewrite E. by rewrite <- !app_assoc. }
  rewrite !length_app in Hrep. simpl in Hrep.
  split.
  { rewrite filter_app, length_app, failures_app. simpl. rewrite Hf, Hrep.
    replace (length log + 1 + 1 + 1 + 1)%nat with (length log + 4)%nat by lia.
    replace (S (S (S (S (length log)))))%nat with (length log + 4)%nat by lia.
    lia. }
  split; [by rewrite filter_app, Hsig|].
  split; [done|]. split; [|done].
  unfold handled in *. rewrite omap_app. simpl. by constructor.
Qed.

(** The main loop: the books of reports, failures and signals, and what
    becomes of the instance: nothing of it changes but the buffer of
    [ReconnectChan], which does not grow beyond its capacity and is full
    when the loop is blocked in the send. *)
Lemma consumeLoop_account f fuel events :
  ∀ sending (s : ConsumeState env) log,
  (sending = true → (ReconnectChanCap ≤ ReconnectChan (cs_r s))%nat) →
  ∃ ending s' rest,
    consumeLoop env fuel f events sending s log = (ending, s', log ++ rest)
    ∧ length (filter is_report rest)
      = (failures f (length log) rest + length (filter is_signal rest))%nat
    ∧ cs_r s' = with_signals (ReconnectChan (cs_r s')) (cs_r s)
    ∧ (ReconnectChan (cs_r s') ≤ ReconnectChan (cs_r s) `max` ReconnectChanCap)%nat
    ∧ (ending = Blocked → (ReconnectChanCap ≤ ReconnectChan (cs_r s'))%nat).
Proof.
  assert (∀ (ending : Ending) (s : ConsumeState env) (log : Log),
            (ending = Blocked → (ReconnectChanCap ≤ ReconnectChan (cs_r s))%nat) →
            ∃ ending' s' rest,
              (ending, s, log) = (ending', s', log ++ rest)
              ∧ length (filter is_report rest)
                = (failures f (length log) rest
                   + length (filter is_signal rest))%nat
              ∧ cs_r s' = with_signals (ReconnectChan (cs_r s')) (cs_r s)
              ∧ (ReconnectChan (cs_r s')
                 ≤ ReconnectChan (cs_r s) `max` ReconnectChanCap)%nat
              ∧ (ending' = Blocked → (ReconnectChanCap ≤ ReconnectChan (cs_r s'))%nat))
    as Hstop.
  { intros ending s log Hb. exists ending, s, []. rewrite app_nil_r.
    split; [done|]. split; [done|]. split; [apply with_signals_self|].
    split; [lia | done]. }
  assert (∀ (s s1 : ConsumeState env) (ending : Ending) (s' : ConsumeState env)
            (log : Log) (rest : list Effect),
            cs_r s1 = with_signals (ReconnectChan (cs_r s1)) (cs_r s) →
            (ReconnectChan (cs_r s1)
             ≤ ReconnectChan (cs_r s) `max` ReconnectChanCap)%nat →
            (cs_r s' = with_signals (ReconnectChan (cs_r s')) (cs_r s1)
             ∧ (ReconnectChan (cs_r s')
                ≤ ReconnectChan (cs_r s1) `max` ReconnectChanCap)%nat
             ∧ (ending = Blocked → (ReconnectChanCap ≤ ReconnectChan (cs_r s'))%nat)) →
            cs_r s' = with_signals (ReconnectChan (cs_r s')) (cs_r s)
            ∧ (ReconnectChan (cs_r s')
               ≤ ReconnectChan (cs_r s) `max` ReconnectChanCap)%nat
            ∧ (ending = Blocked → (ReconnectChanCap ≤ ReconnectChan (cs_r s'))%nat))
    as Hchain.
  { intros s s1 ending s' log rest H1 Hle1 (H2 & Hle2 & Hb).
    split; [by rewrite H2, H1|]. split; [lia | done]. }
  induction events as [|ev events IH]; intros sending s log Hsending.
  { apply Hstop. destruct sending; [intros _; by apply Hsending | done]. }
  destruct ev as [msg| | | | |].
  - destruct sending; [apply Hstop; intros _; by apply Hsending|].
    destruct (poisoned msg) eqn:Hp.
    + destruct (consumeLoop_poisoned env fuel f msg events s log Hp) as (ec' & ->).
      set (ce := mkConsumeError msg
                   (errors_New "nil acknowledger detected - sending reconnect signal")).
      set (s1 := mkCS env (default (cs_r s) (send_signal (cs_r s))) ec' (cs_retry s)
                   (cs_retries s)).
      assert (cs_r s1 = with_signals (ReconnectChan (cs_r s1)) (cs_r s)
              ∧ (ReconnectChan (cs_r s1)
                 ≤ ReconnectChan (cs_r s) `max` ReconnectChanCap)%nat
              ∧ (bool_decide (ReconnectChanCap ≤ ReconnectChan (cs_r s))%nat = true →
                 (ReconnectChanCap ≤ ReconnectChan (cs_r s1))%nat))
        as (H1 & Hle1 & Hfull).
      { subst s1. unfold send_signal. simpl.
        case_bool_decide as Hroom; simpl.
        - split; [done|]. split; [lia|].
          intros Hd. apply bool_decide_eq_true in Hd. lia.
        - split; [apply with_signals_self|]. split; [lia|]. intros _. lia. }
      destruct (IH (bool_decide (ReconnectChanCap ≤ ReconnectChan (cs_r s))%nat) s1
                  (log ++ [EWriteError ce; ESignalReconnect]) Hfull)
        as (ending & s' & rest & E & Hrep & H).
      exists ending, s', ([EWriteError ce; ESignalReconnect] ++ rest).
      split; [by rewrite E, <- app_assoc|].
      split; [|by apply (Hchain s s1 ending s' log rest)].
      rewrite length_app in Hrep. simpl in Hrep.
      rewrite !filter_app, !length_app, failures_app. simpl. rewrite Hrep.
      replace (length log + 2)%nat with (S (S (length log))) by lia. lia.
    + simpl. rewrite Hp. unfold bind.
      destruct (consumeRetry_reports f msg fuel s log)
        as (ending1 & s1 & rest1 & -> & Hrep1 & Hsig1 & Hr1 & _ & [-> | ->]).
      * destruct (IH false s1 (log ++ rest1)) as (ending & s' & rest & E & Hrep & H);
          [done|].
        exists ending, s', (rest1 ++ rest).
        split; [by rewrite E, app_assoc|].
        rewrite Hr1 in H. split; [|done].
        rewrite length_app in Hrep.
        rewrite !filter_app, !length_app, failures_app, Hrep1, Hrep, Hsig1.
        simpl. lia.
      * exists OutOfFuel, s1, rest1.
        split; [done|].
        rewrite Hr1, Hsig1. simpl.
        split; [lia|]. split; [apply with_signals_self|]. split; [lia | done].
  - apply Hstop. destruct sending; [intros _; by apply Hsending | done].
  - apply Hstop. destruct sending; [intros _; by apply Hsending | done].
  - simpl.
    destruct (IH sending
                (mkCS env (cs_r s) (ec_recv <$> cs_errChan s) (cs_retry s)
                   (cs_retries s)) log Hsending)
      as (ending & s1 & rest & E & H).
    by exists ending, s1, rest.
  - simpl.
    destruct (IH sending
                (mkCS env (cs_r s) (ec_send <$> cs_errChan s) (cs_retry s)
                   (cs_retries s)) log Hsending)
      as (ending & s1 & rest & E & H).
    by exists ending, s1, rest.
  - cbn [consumeLoop].
    set (r1 := take_signal (cs_r s)).
    assert (r1 = with_signals (ReconnectChan r1) (cs_r s)
            ∧ (ReconnectChan r1 ≤ ReconnectChan (cs_r s))%nat) as [H1 Hle1].
    { subst r1. simpl. split; [done | lia]. }
    clearbody r1.
    destruct sending.
    + unfold send_signal.
      case_bool_decide as Hroom.
      * set (s1 := mkCS env (signal_reconnect r1) (cs_errChan s) (cs_retry s)
                     (cs_retries s)).
        destruct (IH false s1 log) as (ending & s' & rest & E & Hrep & H); [done|].
        exists ending, s', rest. split; [done|]. split; [done|].
        apply (Hchain s s1 ending s' log rest); [| | done]; subst s1; simpl.
        { by rewrite H1. }
        { lia. }
      * set (s1 := mkCS env r1 (cs_errChan s) (cs_retry s) (cs_retries s)).
        destruct (IH true s1 log) as (ending & s' & rest & E & Hrep & H).
        { intros _. subst s1. simpl. lia. }
        exists ending, s', rest. split; [done|]. split; [done|].
        apply (Hchain s s1 ending s' log rest); [done | | done].
        subst s1. simpl. lia.
    + set (s1 := mkCS env r1 (cs_errChan s) (cs_retry s) (cs_retries s)).
      destruct (IH false s1 log) as (ending & s' & rest & E & Hrep & H); [done|].
      exists ending, s', rest. split; [done|]. split; [done|].
      apply (Hchain s s1 ending s' log rest); [done | | done].
      subst s1. simpl. lia.
Qed.

(** X10. Every call of the handler that fails and every delivery that is
    refused as unusable is reported exactly once, by one call of
    [writeError]: the reports of a call of [Consume] are as many as the
    failed calls of the handler and the reconnect signals together. *)
Theorem Consume_reports_every_failure (r : Rabbit) (errChan : option ErrChan)
    (f : Handler) (rp : list (RetryPolicy env)) (fuel : nat)
    (events : list ConsumeEvent) (log : Log) :
  ∃ ending s' rest,
    Consume env r errChan f rp fuel events log = (ending, s', log ++ rest)
    ∧ length (filter is_report rest)
      = (failures f (length log) rest + length (filter is_signal rest))%nat.
Proof.
  unfold Consume.
  destruct (shutdown r).
  { eexists Returned, _, []. by rewrite app_nil_r. }
  case_bool_decide.
  { eexists Returned, _, []. by rewrite app_nil_r. }
  unfold bind.
  destruct (consumeLoop_account f fuel events false
              (mkCS env (set_WG (S (ConsumerWG r)) r) errChan (head rp) 0) log)
    as (ending & s' & rest & -> & Hrep & _); [done|].
  destruct ending; by eexists _, _, rest.
Qed.

(** X11. Of the instance, [Consume] touches the buffer of [ReconnectChan]
    and the wait group, and nothing else: connection, sessions, locks,
    options and flags are as before. The wait group is back at its value
    once the call has returned, and one higher as long as it has not. The
    buffer never holds more than its one signal (or than it held before),
    and it is full whenever the call is blocked in the send of a signal. *)
Theorem Consume_leaves_sessions_alone (r : Rabbit) (errChan : option ErrChan)
    (f : Handler) (rp : list (RetryPolicy env)) (fuel : nat)
    (events : list ConsumeEvent) (log : Log) :
  ∃ ending s' rest,
    Consume env r errChan f rp fuel events log = (ending, s', log ++ rest)
    ∧ cs_r s'
      = set_WG (match ending with Returned => ConsumerWG r | _ => S (ConsumerWG r) end)
          (with_signals (ReconnectChan (cs_r s')) r)
    ∧ (ReconnectChan (cs_r s') ≤ ReconnectChan r `max` ReconnectChanCap)%nat
    ∧ (ending = Blocked → (ReconnectChanCap ≤ ReconnectChan (cs_r s'))%nat).
Proof.
  unfold Consume.
  destruct (shutdown r) eqn:Hs.
  { exists Returned, (mkCS env r errChan (head rp) 0), []. rewrite app_nil_r.
    split; [reflexivity|]. simpl.
    split; [by destruct r|]. split; [lia | done]. }
  case_bool_decide.
  { exists Returned, (mkCS env r errChan (head rp) 0), []. rewrite app_nil_r.
    split; [reflexivity|]. simpl.
    split; [by destruct r|]. split; [lia | done]. }
  unfold bind.
  destruct (consumeLoop_account f fuel events false
              (mkCS env (set_WG (S (ConsumerWG r)) r) errChan (head rp) 0) log)
    as (ending & s' & rest & -> & _ & Hsame & Hle & Hb); [done|].
  simpl in Hsame, Hle.
  destruct ending; eexists _, _, rest; (split; [reflexivity|]); simpl;
    (split; [by rewrite Hsame|]); split; done.
Qed.

(** Without a policy the retry loop is one call of the handler. *)
Lemma consumeRetry_no_policy f msg fuel (s : ConsumeState env) log :
  cs_retry s = None →
  ∃ s' rest,
    consumeRetry env (S fuel) f msg s log = (Returned, s', log ++ EHandler msg :: rest)
    ∧ handled rest = [] ∧ filter is_signal rest = []
    ∧ filter is_backoff rest = [] ∧ cs_retry s' = None ∧ cs_r s' = cs_r s.
Proof.
  intros Hr. simpl. unfold bind at 1, now. unfold bind at 1, emit. rewrite Hr.
  destruct (f (length log) msg) as [err|].
  2: { by exists s, []. }
  unfold bind.
  destruct (writeError_log (cs_errChan s)
              (mkConsumeError msg
                 (errors_New ("error during consume: " +:+ Error err)))
              (log ++ [EHandler msg])) as (ec' & o & ->).
  eexists (mkCS env (cs_r s) ec' None (cs_retries s)), [_].
  rewrite <- app_assoc. done.
Qed.

(** The main loop without a policy. *)
Lemma consumeLoop_no_policy f fuel events :
  ∀ sending (s : ConsumeState env) log,
  cs_retry s = None →
  ∃ ending s' rest,
    consumeLoop env (S fuel) f events sending s log = (ending, s', log ++ rest)
    ∧ handled rest `prefix_of` usable (consumed events)
    ∧ (length (filter is_signal rest) ≤ length (unusable (consumed events)))%nat
    ∧ filter is_backoff rest = []
    ∧ (ending = Blocked
       ∨ (ending = (if cancels events then Returned else Waiting)
          ∧ handled rest = usable (consumed events)
          ∧ length (filter is_signal rest) = length (unusable (consumed events))))
    ∧ (sending = false →
       (ReconnectChan (cs_r s) + length (unusable (consumed events))
        ≤ ReconnectChanCap)%nat →
       ending ≠ Blocked).
Proof.
  induction events as [|ev events IH]; intros sending s log Hr.
  { exists (if sending then Blocked else Waiting), s, []. rewrite app_nil_r.
    split; [done|]. split; [done|]. split; [done|]. split; [done|].
    split; [destruct sending; [by left | by right]|].
    by intros ->. }
  destruct ev as [msg| | | | |].
  - destruct sending.
    { exists Blocked, s, []. rewrite app_nil_r.
      split; [done|]. split; [apply prefix_nil|]. split; [simpl; lia|].
      split; [done|]. split; [by left | done]. }
    destruct (poisoned msg) eqn:Hp.
    + destruct (consumeLoop_poisoned env (S fuel) f msg events s log Hp) as (ec' & ->).
      set (ce := mkConsumeError msg
                   (errors_New "nil acknowledger detected - sending reconnect signal")).
      destruct (IH (bool_decide (ReconnectChanCap ≤ ReconnectChan (cs_r s))%nat)
                  (mkCS env (default (cs_r s) (send_signal (cs_r s))) ec'
                     (cs_retry s) (cs_retries s))
                  (log ++ [EWriteError ce; ESignalReconnect]) Hr)
        as (ending & s' & rest & E & Hh & Hsig & Hb & Hend & Hfree).
      exists ending, s', ([EWriteError ce; ESignalReconnect] ++ rest).
      split; [by rewrite E, <- app_assoc|].
      cbn [consumed cancels]. unfold usable, unusable in *.
      rewrite !filter_cons. rewrite Hp. simpl.
      split; [done|]. split; [lia|].
      split; [by rewrite !filter_cons|].
      split.
      * destruct Hend as [-> | (-> & Hall & Hcount)]; [by left|].
        right. split; [done|]. split; [done|]. by rewrite Hcount.
      * intros _ Hcap. simpl in Hfree. unfold send_signal in Hfree.
        rewrite bool_decide_false in Hfree by lia.
        rewrite bool_decide_true in Hfree by lia.
        apply Hfree; [done|]. simpl. lia.
    + cbn [consumeLoop]. rewrite Hp. unfold bind.
      destruct (consumeRetry_no_policy f msg fuel s log Hr)
        as (s1 & rest1 & -> & Hh1 & Hsig1 & Hb1 & Hr1 & Hsame).
      destruct (IH false s1 (log ++ EHandler msg :: rest1) Hr1)
        as (ending & s' & rest & E & Hh & Hsig & Hb & Hend & Hfree).
      exists ending, s', ((EHandler msg :: rest1) ++ rest).
      split; [by rewrite E, <- app_assoc|].
      cbn [consumed cancels]. unfold usable, unusable in *.
      rewrite !filter_cons, Hp. simpl.
      unfold handled in *. rewrite omap_app, Hh1. simpl.
      split; [by apply prefix_cons|].
      rewrite !filter_cons. simpl.
      rewrite !filter_app, Hsig1, Hb1. simpl.
      split; [done|]. split; [done|].
      split.
      * destruct Hend as [-> | (-> & Hall & Hcount)]; [by left|].
        right. split; [done|]. split; [by rewrite Hall | done].
      * intros _ Hcap. apply Hfree; [done|]. by rewrite Hsame.
  - exists (if sending then Blocked else Returned), s, []. rewrite app_nil_r.
    split; [done|]. split; [done|]. split; [done|]. split; [done|].
    split; [destruct sending; [by left | by right]|]. by intros ->.
  - exists (if sending then Blocked else Returned), s, []. rewrite app_nil_r.
    split; [done|]. split; [done|]. split; [done|]. split; [done|].
    split; [destruct sending; [by left | by right]|]. by intros ->.
  - cbn [consumeLoop consumed cancels].
    by apply (IH sending
                (mkCS env (cs_r s) (ec_recv <$> cs_errChan s) (cs_retry s)
                   (cs_retries s)) log).
  - cbn [consumeLoop consumed cancels].
    by apply (IH sending
                (mkCS env (cs_r s) (ec_send <$> cs_errChan s) (cs_retry s)
                   (cs_retries s)) log).
  - cbn [consumeLoop consumed cancels].
    destruct sending.
    + destruct (send_signal (take_signal (cs_r s))) as [r1|].
      * destruct (IH false (mkCS env r1 (cs_errChan s) (cs_retry s) (cs_retries s))
                    log Hr) as (ending & s' & rest & E & Hh & Hsig & Hb & Hend & _).
        by exists ending, s', rest.
      * destruct (IH true
                    (mkCS env (take_signal (cs_r s)) (cs_errChan s) (cs_retry s)
                       (cs_retries s)) log Hr)
          as (ending & s' & rest & E & Hh & Hsig & Hb & Hend & _).
        by exists ending, s', rest.
    + destruct (IH false
                  (mkCS env (take_signal (cs_r s)) (cs_errChan s) (cs_retry s)
                     (cs_retries s)) log Hr)
        as (ending & s' & rest & E & Hh & Hsig & Hb & Hend & Hfree).
      exists ending, s', rest. repeat (split; [done|]).
      intros _ Hcap. apply Hfree; [done|]. simpl. lia.
Qed.

(** X12. Without a retry policy, on an instance that accepts the call,
    [Consume] calls the handler at most once on each usable delivery, in
    the order of arrival, and never on an unusable one, and it never
    sleeps. Unless it gets blocked in the send of a reconnect signal, it
    has called the handler exactly once on every usable delivery received
    before the cancellation, has sent exactly one reconnect signal for
    every unusable one, and it returns when a cancellation arrives and
    waits for more otherwise. It does not get blocked as long as the
    signals that were pending and the unusable deliveries together fit
    the buffer of [ReconnectChan]. *)
Theorem Consume_without_policy_handles_once (r : Rabbit)
    (errChan : option ErrChan) (f : Handler) (fuel : nat)
    (events : list ConsumeEvent) (log : Log) :
  shutdown r = false → OMode (ROptions r) ≠ Producer →
  ∃ ending s' rest,
    Consume env r errChan f [] (S fuel) events log = (ending, s', log ++ rest)
    ∧ handled rest `prefix_of` usable (consumed events)
    ∧ (length (filter is_signal rest) ≤ length (unusable (consumed events)))%nat
    ∧ filter is_backoff rest = []
    ∧ (ending = Blocked
       ∨ (ending = (if cancels events then Returned else Waiting)
          ∧ handled rest = usable (consumed events)
          ∧ length (filter is_signal rest) = length (unusable (consumed events))))
    ∧ ((ReconnectChan r + length (unusable (consumed events)) ≤ ReconnectChanCap)%nat →
       ending ≠ Blocked).
Proof.
  intros Hs Hm. unfold Consume. rewrite Hs, bool_decide_false by done.
  unfold bind.
  destruct (consumeLoop_no_policy f fuel events false
              (mkCS env (set_WG (S (ConsumerWG r)) r) errChan (head []) 0) log
              eq_refl)
    as (ending & s' & rest & -> & Hh & Hsig & Hb & Hend & Hfree).
  specialize (Hfree eq_refl). simpl in Hfree.
  destruct ending; eexists _, _, rest; (split; [reflexivity|]);
    repeat (split; [done|]); done.
Qed.

(** The retry loop of [ConsumeOnce]: no report, no signal, the handler
    is called on the one delivery only, the calls of [Duration] receive the
    successive values of the counter, and when the loop returns the handler
    was called once more than the loop slept. *)
Lemma consumeOnceRetry_account f msg fuel :
  ∀ retry retries log,
  ∃ ending retry' err rest k,
    consumeOnceRetry env fuel f msg retry retries log
    = (ending, retry', err, log ++ rest)
    ∧ filter is_report rest = [] ∧ filter is_signal rest = []
    ∧ duration_args rest = seqZ retries (Z.of_nat k)
    ∧ Forall (λ m, m = msg) (handled rest)
    ∧ (ending = Returned → length (handled rest) = S k)
    ∧ (ending = Returned ∨ ending = OutOfFuel).
Proof.
  induction fuel as [|fuel IH]; intros retry retries log.
  { exists OutOfFuel, retry, None, [], 0%nat. rewrite app_nil_r.
    repeat split; try done. by right. }
  simpl. unfold bind at 1, now. unfold bind at 1, emit.
  destruct (f (length log) msg) as [e|].
  2: { exists Returned, retry, None, [EHandler msg], 0%nat.
       repeat split; try done; [by repeat constructor | by left]. }
  destruct retry as [p|].
  2: { exists Returned, None, (Some e), [EHandler msg], 0%nat.
       repeat split; try done; [by repeat constructor | by left]. }
  destruct (ShouldRetry env p) as [[] p'].
  2: { exists Returned, (Some p'), (Some e), [EHandler msg], 0%nat.
       repeat split; try done; [by repeat constructor | by left]. }
  unfold bind at 1, emit. unfold bind at 1, emit.
  set (d := ESleep (Duration env p' retries)).
  destruct (IH (Some p') (retries + 1)
              (((log ++ [EHandler msg]) ++ [EDuration retries]) ++ [d]))
    as (ending & retry' & err & rest & k & E & Hrep & Hsig & Hd & Hh & Hn & He).
  exists ending, retry', err, ([EHandler msg; EDuration retries; d] ++ rest), (S k).
  split; [by rewrite E, <- !app_assoc|].
  split; [by rewrite filter_app, Hrep|].
  split; [by rewrite filter_app, Hsig|].
  split.
  { rewrite duration_args_app, Hd. simpl.
    rewrite (seqZ_cons retries) by lia.
    do 2 f_equal; lia. }
  unfold handled in *. rewrite omap_app. simpl.
  split; [by constructor|]. split; [|done].
  intros H. by rewrite (Hn H).
Qed.

(** X13. [ConsumeOnce] never reports through [writeError], calls the handler
    on no delivery but the one it received, and counts the retries of that
    delivery from zero. It leaves the instance exactly as it was, with one
    exception: on a delivery without acknowledger it puts one signal into
    the buffer of [ReconnectChan] and returns, when the buffer has room;
    when the buffer is full the call is blocked in that send, with the
    instance as it was. *)
Theorem ConsumeOnce_counts_from_zero (r : Rabbit) (runFunc : Handler)
    (rp : list (RetryPolicy env)) (fuel : nat) (event : option ConsumeEvent)
    (log : Log) :
  ∃ ending r' retry err rest k,
    ConsumeOnce env r runFunc rp fuel event log
    = (ending, r', retry, err, log ++ rest)
    ∧ filter is_report rest = []
    ∧ duration_args rest = seqZ 0 (Z.of_nat k)
    ∧ (∀ m, m ∈ handled rest → event = Some (Recv m))
    ∧ (r' = r
       ∨ (r' = signal_reconnect r ∧ (ReconnectChan r < ReconnectChanCap)%nat
          ∧ ending = Returned ∧ rest = [ESignalReconnect]
          ∧ ∃ m, event = Some (Recv m) ∧ Acknowledger m = None))
    ∧ (ending = Blocked →
       r' = r ∧ (ReconnectChanCap ≤ ReconnectChan r)%nat ∧ err = None
       ∧ rest = [ESignalReconnect]
       ∧ ∃ m, event = Some (Recv m) ∧ Acknowledger m = None)
    ∧ (∀ m, shutdown r = false → OMode (ROptions r) ≠ Producer →
            event = Some (Recv m) → Acknowledger m = None →
            rest = [ESignalReconnect]
            ∧ if bool_decide (ReconnectChan r < ReconnectChanCap)%nat
              then ending = Returned ∧ r' = signal_reconnect r
                   ∧ err = Some (errors_New
                       "detected nil acknowledger - sent signal to reconnect to RabbitMQ")
              else ending = Blocked ∧ r' = r ∧ err = None).
Proof.
  unfold ConsumeOnce.
  destruct (shutdown r).
  { eexists Returned, r, _, _, [], 0%nat. rewrite app_nil_r.
    split; [reflexivity|]. repeat split; try done; [|by left].
    intros m Hm. by apply elem_of_nil in Hm. }
  case_bool_decide.
  { eexists Returned, r, _, _, [], 0%nat. rewrite app_nil_r.
    split; [reflexivity|]. repeat split; try done; [|by left].
    intros m Hm. by apply elem_of_nil in Hm. }
  destruct event as [[msg| | | | |]|].
  2-7: eexists _, r, _, _, [], 0%nat; rewrite app_nil_r;
       (split; [reflexivity|]); repeat split; try done; [|by left];
       intros m Hm; by apply elem_of_nil in Hm.
  case_bool_decide as Hack.
  { unfold bind, emit, send_signal. case_bool_decide as Hroom.
    - eexists Returned, _, _, _, [ESignalReconnect], 0%nat.
      split; [reflexivity|]. split; [done|]. split; [done|].
      split; [intros m Hm; by apply elem_of_nil in Hm|].
      split; [right; repeat split; try done; by exists msg|].
      split; [done|]. intros m _ _ _ _. by split.
    - eexists Blocked, r, _, None, [ESignalReconnect], 0%nat.
      split; [reflexivity|]. split; [done|]. split; [done|].
      split; [intros m Hm; by apply elem_of_nil in Hm|].
      split; [by left|].
      split; [intros _; repeat split; try done; [lia | by exists msg]|].
      intros m _ _ _ _. by split. }
  unfold bind.
  destruct (consumeOnceRetry_account runFunc msg fuel (head rp) 0 log)
    as (ending & retry' & err & rest & k & -> & Hrep & _ & Hd & Hh & _ & Hend).
  exists ending, r, retry', err, rest, k.
  split; [reflexivity|]. split; [done|]. split; [done|].
  split; [|split; [by left|split]].
  - intros m Hm. rewrite Forall_forall in Hh. by rewrite (Hh m Hm).
  - intros ->. by destruct Hend.
  - intros m _ _ [= <-] Hnil. done.
Qed.

End Loops.

(** [ConsumeOnce] on a delivery without acknowledger, at the sample
    instance and at the sample instance with a signal pending. *)
Lemma ConsumeOnce_counts_from_zero_witness :
  let env := counting_env all_fine 0 in
  let once (r : Rabbit) :=
    ConsumeOnce env r always_ok [] 1 (Some (Recv nil_ack_delivery)) [] in
  (∃ retry,
     once (an_instance Both)
     = (Returned, signalled_instance, retry,
        Some (errors_New
                "detected nil acknowledger - sent signal to reconnect to RabbitMQ"),
        [] ++ [ESignalReconnect]))
  ∧ (∃ retry,
       once signalled_instance
       = (Blocked, signalled_instance, retry, None, [] ++ [ESignalReconnect])).
Proof.
  intros env once. split.
  - destruct (ConsumeOnce_counts_from_zero env (an_instance Both) always_ok [] 1
                (Some (Recv nil_ack_delivery)) [])
      as (ending & r' & retry & err & rest & k & E & _ & _ & _ & _ & _ & H).
    destruct (H nil_ack_delivery eq_refl ltac:(discriminate) eq_refl eq_refl)
      as (-> & -> & -> & ->).
    exists retry. exact E.
  - destruct (ConsumeOnce_counts_from_zero env signalled_instance always_ok [] 1
                (Some (Recv nil_ack_delivery)) [])
      as (ending & r' & retry & err & rest & k & E & _ & _ & _ & _ & _ & H).
    destruct (H nil_ack_delivery eq_refl ltac:(discriminate) eq_refl eq_refl)
      as (-> & -> & -> & ->).
    exists retry. exact E.
Defined.

(** The theorem on [Consume] without a policy, at three deliveries of
    which the second is unusable, followed by a cancellation. *)
Lemma Consume_without_policy_handles_once_witness :
  let env := counting_env all_fine 0 in
  let events := [Recv (plain_delivery "one"); Recv nil_ack_delivery;
                 Recv (plain_delivery "two"); CtxDone;
                 Recv (plain_delivery "late")] in
  ∃ ending s' rest,
    Consume env (an_instance Both) None always_fail [] 1 events []
    = (ending, s', [] ++ rest)
    ∧ handled rest `prefix_of` usable (consumed events)
    ∧ (length (filter is_signal rest) ≤ length (unusable (consumed events)))%nat
    ∧ filter is_backoff rest = []
    ∧ (ending = Blocked
       ∨ (ending = (if cancels events then Returned else Waiting)
          ∧ handled rest = usable (consumed events)
          ∧ length (filter is_signal rest) = length (unusable (consumed events))))
    ∧ ((ReconnectChan (an_instance Both) + length (unusable (consumed events))
        ≤ ReconnectChanCap)%nat →
       ending ≠ Blocked).
Proof.
  intros env events.
  apply (Consume_without_policy_handles_once env (an_instance Both) None
           always_fail 0 events []).
  - reflexivity.
  - intros H. discriminate H.
Defined.

(** ** Publishing, stopping and closing *)

Section Operations.

Variable env : Env.

(** X14. [Publish] returns nil only when the broker accepted the message: the
    last thing the call did was the send, on the producer session the
    instance holds afterwards, and the send was answered without error. The
    call changed nothing of the instance but, at most, that session. *)
Theorem Publish_nil_means_sent (r r' : Rabbit) (ctx_done : bool)
    (key body : string) (headers : list (gmap string string))
    (arm : PublishArm) (log log' : Log) :
  Publish env r ctx_done key body headers arm log = (r', None, log') →
  ∃ ch pre,
    log' = pre ++ [send_of r' ch key body headers]
    ∧ reply env (length pre) (send_of r' ch key body headers) = None
    ∧ ProducerServerChannel r' = Some ch
    ∧ (r' = r ∨ r' = set_producer (Some ch) r).
Proof.
  intros HP.
  assert (shutdown r = false ∧ OMode (ROptions r) ≠ Consumer) as [Hs Hm].
  { unfold Publish in HP. destruct (shutdown r); [done|].
    by case_bool_decide. }
  assert (∀ r1 ch pre,
            shutdown r1 = false → OMode (ROptions r1) ≠ Consumer →
            ProducerServerChannel r1 = Some ch →
            Publish env r1 ctx_done key body headers arm pre = (r', None, log') →
            r' = r1
            ∧ log' = pre ++ [send_of r1 ch key body headers]
            ∧ reply env (length pre) (send_of r1 ch key body headers) = None)
    as Hsent.
  { intros r1 ch pre Hs1 Hm1 Hch1.
    rewrite (Publish_on_session env r1 ch ctx_done key body headers arm pre Hs1 Hm1 Hch1).
    unfold publish_result, publish_requests.
    destruct arm as [| |[]], ctx_done; try done;
      destruct (reply env (length pre) (send_of r1 ch key body headers)) eqn:E;
      try done; by intros [= <- <-]. }
  destruct (ProducerServerChannel r) as [ch|] eqn:Hch.
  - destruct (Hsent r ch log Hs Hm Hch HP) as (-> & -> & Hrep).
    exists ch, log. repeat split; try done. by left.
  - rewrite (Publish_builds_lazily env r ctx_done key body headers arm log Hs Hm Hch)
      in HP.
    destruct (newServerChannel_result env r log)
      as (res & rest & E & _ & [(c & _ & -> & _) | (e & ->)]);
      rewrite E in HP; [|done].
    destruct (Hsent (set_producer (Some (length log)) r) (length log) (log ++ rest)
                Hs Hm eq_refl HP) as (-> & -> & Hrep).
    exists (length log), (log ++ rest). repeat split; try done. by right.
Qed.

(** X15. The first [Publish] of an instance without producer session builds
    the session before it does anything else. When every request of the
    plan of the session is answered without error, the whole plan is
    carried out, the new channel is stored, and the requests of the
    publication follow on it: the send, and on the cancellation arm the
    close. When a request of the plan fails, the call stops there:
    nothing is sent, the instance stays as it was and the error says that
    the server channel could not be made. *)
Theorem Publish_builds_session_first (r : Rabbit) (c : ConnId) (ctx_done : bool)
    (key body : string) (headers : list (gmap string string))
    (arm : PublishArm) (log : Log) :
  shutdown r = false → OMode (ROptions r) ≠ Consumer →
  ProducerServerChannel r = None → Conn r = Some c →
  let ch := length log in
  let plan := session_plan c ch (ROptions r) in
  let r' := set_producer (Some ch) r in
  (answered env (length log) plan →
   Publish env r ctx_done key body headers arm log
   = (r',
      publish_result env r' ch (length log + length plan) ctx_done key body headers arm,
      log ++ plan ++ publish_requests r' ch ctx_done key body headers arm))
  ∧ (∀ i x cause,
       plan !! i = Some x →
       reply env (length log + i)%nat x = Some cause →
       answered env (length log) (take i plan) →
       ∃ e, Publish env r ctx_done key body headers arm log
            = (r, Some (errors_Wrap e "unable to create server channel"),
               log ++ take (S i) plan)
            ∧ cause ∈ chain e).
Proof.
  intros Hs Hm Hch Hc ch plan r'.
  rewrite (Publish_builds_lazily env r ctx_done key body headers arm log Hs Hm Hch).
  destruct (newServerChannel_follows env r c log Hc) as [Hok Hfail].
  split.
  - intros Ha. rewrite (Hok Ha). subst ch plan r'. cbv beta iota.
    rewrite (Publish_on_session env _ (length log)) by done.
    by rewrite length_app, <- app_assoc.
  - intros i x cause Hi Hx Hpre.
    destruct (Hfail i x cause Hi Hx Hpre) as (e & -> & He).
    by exists e.
Qed.

(** X16. [Stop] cancels the instance and does not shut it down: a
    [Publish] that follows on an instance with a producer session is not
    refused. It makes its requests on the session, the send and on the
    cancellation arm the close, and returns what they give. *)
Theorem Stop_does_not_shut_down (r r1 : Rabbit) (ch : ChanId)
    (timeout : list Z) (arm : StopArm) (res : option error) (log log1 : Log) :
  shutdown r = false → OMode (ROptions r) ≠ Consumer →
  ProducerServerChannel r = Some ch →
  Stop r timeout arm log = (r1, res, log1) →
  r1 = set_cancelled r ∧ log1 = log ++ [ECancel]
  ∧ cancelled r1 = true ∧ shutdown r1 = false
  ∧ ∀ ctx_done key body headers parm,
      Publish env r1 ctx_done key body headers parm log1
      = (r1,
         publish_result env r1 ch (length log1) ctx_done key body headers parm,
         log1 ++ publish_requests r1 ch ctx_done key body headers parm).
Proof.
  intros Hs Hm Hch HS.
  destruct (Stop_never_ErrShutdown r timeout arm log) as (res' & E & _).
  rewrite E in HS. injection HS as <- <- <-.
  repeat (split; [done|]).
  intros ctx_done key body headers parm.
  by apply Publish_on_session.
Qed.

(** X17. When closing the connection fails, [Close] returns an error that
    carries the failure and is not the shutdown error, and leaves the
    instance cancelled but not shut down: the consumers are stopped, and
    a further [Close] cancels and tries to close the connection again,
    shutting the instance down when that works. *)
Theorem Close_failure_can_be_retried (r : Rabbit) (c : ConnId) (cause : error)
    (log : Log) :
  shutdown r = false → Conn r = Some c →
  reply env (S (length log)) (EConnClose c) = Some cause →
  let e := errors_New ("unable to close amqp connection: " +:+ Error cause) in
  Close env r log = (set_cancelled r, Some e, log ++ [ECancel; EConnClose c])
  ∧ e ≠ ErrShutdown
  ∧ cancelled (set_cancelled r) = true ∧ shutdown (set_cancelled r) = false
  ∧ ∀ log2,
      Close env (set_cancelled r) log2
      = match reply env (S (length log2)) (EConnClose c) with
        | Some cause2 =>
            (set_cancelled r,
             Some (errors_New ("unable to close amqp connection: " +:+ Error cause2)),
             log2 ++ [ECancel; EConnClose c])
        | None => (closed r, None, log2 ++ [ECancel; EConnClose c])
        end.
Proof.
  intros Hs Hc Hrep e.
  assert (∀ r0 log0,
            shutdown r0 = false → Conn r0 = Some c →
            Close env r0 log0
            = match reply env (S (length log0)) (EConnClose c) with
              | Some cause2 =>
                  (set_cancelled r0,
                   Some (errors_New ("unable to close amqp connection: "
                                     +:+ Error cause2)),
                   log0 ++ [ECancel; EConnClose c])
              | None => (set_shutdown (set_cancelled r0), None,
                         log0 ++ [ECancel; EConnClose c])
              end) as HClose.
  { intros r0 log0 Hs0 Hc0. unfold Close. rewrite Hs0.
    unfold bind, emit, perform, ret. simpl. rewrite Hc0.
    rewrite length_app, Nat.add_1_r.
    destruct (reply env (S (length log0)) (EConnClose c));
      by rewrite <- app_assoc. }
  split; [by rewrite HClose, Hrep|].
  split; [subst e; intros [=]|].
  split; [done|]. split; [done|].
  intros log2. by rewrite HClose.
Qed.

End Operations.

(** ** Reconnecting *)

Section Reconnecting.

Variable env : Env.

(** One turn of the dial loop of [reconnect]. *)
Lemma redialLoop_cons url rest opts ac err log :
  redialLoop env (url :: rest) opts ac err log =
  match reply env (length log) (redial_of opts url) with
  | None => (Some (length log), None, log ++ [redial_of opts url])
  | Some e => redialLoop env rest opts None (Some e) (log ++ [redial_of opts url])
  end.
Proof.
  simpl. unfold bind at 1, now. unfold bind at 1, perform.
  fold (redial_of opts url). by destruct (reply env _ _).
Qed.

Lemma redialLoop_all_fail urls opts ac err log :
  Forall is_Some (reattempts env opts (length log) urls) →
  redialLoop env urls opts ac err log =
  (match urls with [] => ac | _ => None end,
   default err (last (reattempts env opts (length log) urls)),
   log ++ map (redial_of opts) urls).
Proof.
  revert ac err log.
  induction urls as [|u urls IH]; intros ac err log Hall.
  { simpl. by rewrite app_nil_r. }
  rewrite redialLoop_cons. simpl in Hall.
  apply Forall_cons in Hall as [[e He] Hall]. rewrite He.
  rewrite IH.
  2: { by rewrite length_app, Nat.add_1_r. }
  rewrite length_app, Nat.add_1_r.
  simpl. rewrite He, <- app_assoc. simpl.
  destruct urls as [|u' urls]; simpl; [done|].
  destruct (last (_ :: _)) eqn:E; [done|]. by apply last_None in E.
Qed.

Lemma redialLoop_first_success pre u post opts ac err log :
  Forall is_Some (reattempts env opts (length log) pre) →
  reply env (length log + length pre) (redial_of opts u) = None →
  redialLoop env (pre ++ u :: post) opts ac err log =
  (Some (length log + length pre)%nat, None,
   log ++ map (redial_of opts) (pre ++ [u])).
Proof.
  revert ac err log.
  induction pre as [|p pre IH]; intros ac err log Hall Hu.
  { simpl app. rewrite redialLoop_cons. simpl in Hu.
    rewrite Nat.add_0_r in Hu. rewrite Hu. simpl. by rewrite Nat.add_0_r. }
  simpl app. rewrite redialLoop_cons. simpl in Hall.
  apply Forall_cons in Hall as [[e He] Hall]. rewrite He.
  replace (length log + length (p :: pre))%nat
    with (length (log ++ [redial_of opts p]) + length pre)%nat in *
    by (rewrite length_app; simpl; lia).
  rewrite IH.
  - simpl. by rewrite <- app_assoc.
  - by rewrite length_app, Nat.add_1_r.
  - done.
Qed.

(** X18. [reconnect] dials the URLs in listed order, without the connection
    timeout that [New] applies. At the first URL that answers it stops and
    stores the new connection; nothing else of the instance changes. When
    every URL fails the instance keeps the connection it had and the error
    wraps the failure of the last URL. With no URL at all it reports
    success and leaves the instance without connection. *)
Theorem reconnect_takes_first_reachable (r : Rabbit) (log : Log) :
  let opts := ROptions r in
  (∀ pre u post,
     URLs opts = pre ++ u :: post →
     Forall is_Some (reattempts env opts (length log) pre) →
     reply env (length log + length pre) (redial_of opts u) = None →
     reconnect env r log
     = (set_Conn (Some (length log + length pre)%nat) r, None,
        log ++ map (redial_of opts) (pre ++ [u])))
  ∧ (URLs opts ≠ [] →
     Forall is_Some (reattempts env opts (length log) (URLs opts)) →
     ∃ e, last (reattempts env opts (length log) (URLs opts)) = Some (Some e)
          ∧ reconnect env r log
            = (r, Some (errors_Wrap e "all servers failed on reconnect"),
               log ++ map (redial_of opts) (URLs opts)))
  ∧ (URLs opts = [] → reconnect env r log = (set_Conn None r, None, log)).
Proof.
  intros opts. unfold reconnect. fold opts. split; [|split].
  - intros pre u post Hsplit Hpre Hu. unfold bind. rewrite Hsplit.
    by rewrite redialLoop_first_success.
  - intros Hne Hall. unfold bind.
    rewrite redialLoop_all_fail by done.
    destruct (URLs opts) as [|u urls] eqn:Hu; [done|].
    destruct (last (reattempts env opts (length log) (u :: urls))) as [[e|]|] eqn:Hl.
    + exists e. by split.
    + apply last_Some in Hl as [l' Hl']. rewrite Hl' in Hall.
      apply Forall_app in Hall as [_ Hnone].
      apply Forall_cons in Hnone as [[? ?] _]. done.
    + by apply last_None in Hl.
  - intros ->. by unfold bind.
Qed.

(** A round of the reconnect loop in which every URL fails. *)
Lemma reconnectLoop_failed_round fuel r log :
  URLs (ROptions r) ≠ [] →
  Forall is_Some (reattempts env (ROptions r) (length log) (URLs (ROptions r))) →
  reconnectLoop env (S fuel) r log
  = reconnectLoop env fuel r (log ++ failed_round (ROptions r)).
Proof.
  intros Hne Hall. cbn [reconnectLoop]. unfold bind at 1.
  unfold reconnect, bind at 1.
  rewrite redialLoop_all_fail by done.
  destruct (URLs (ROptions r)) as [|u urls] eqn:Hu; [done|].
  destruct (last (reattempts env (ROptions r) (length log) (u :: urls)))
    as [[e|]|] eqn:Hl.
  - cbn [default]. unfold ret at 1. unfold bind at 1, emit.
    unfold failed_round. rewrite Hu. by rewrite app_assoc.
  - apply last_Some in Hl as [l' Hl']. rewrite Hl' in Hall.
    apply Forall_app in Hall as [_ Hnone].
    apply Forall_cons in Hnone as [[? ?] _]. done.
  - by apply last_None in Hl.
Qed.

(** The sleep between two rounds is the configured number of seconds as
    long as the product fits an [int64]; beyond that it wraps around, and
    a negative duration makes [time.Sleep] return at once. *)
Lemma failed_round_in_range opts :
  0 ≤ RetryReconnectSec opts ≤ 9223372036 →
  failed_round opts
  = map (redial_of opts) (URLs opts) ++ [ESleep (RetryReconnectSec opts * Second)].
Proof.
  intros H. unfold failed_round, int64, Second. do 3 f_equal.
  rewrite Z.mod_small; lia.
Qed.

Lemma int64_wraps : int64 (9223372037 * Second) = -9223372036709551616.
Proof. reflexivity. Qed.

(** X19. The reconnect loop of the watcher does not give up: when the first
    [k] rounds of redials fail throughout and a URL answers in the round
    after, the loop has slept after each failed round, [k] times in all,
    each time for [time.Duration(RetryReconnectSec) * time.Second] as the
    [int64] product gives it, and ends with the connection of the first
    URL that answered; it needs no more than [k + 1] turns for it. *)
Theorem reconnectLoop_retries_until_connected (r : Rabbit) (k : nat) :
  ∀ (log : Log) (pre : list string) (u : string) (post : list string) (fuel : nat),
  let opts := ROptions r in
  let t := (length log + k * length (failed_round opts))%nat in
  URLs opts = pre ++ u :: post →
  rounds_fail env opts (length log) k →
  Forall is_Some (reattempts env opts t pre) →
  reply env (t + length pre) (redial_of opts u) = None →
  (k < fuel)%nat →
  reconnectLoop env fuel r log
  = (Some (set_Conn (Some (t + length pre)%nat) r),
     log ++ concat (replicate k (failed_round opts))
         ++ map (redial_of opts) (pre ++ [u])).
Proof.
  induction k as [|k IH]; intros log pre u post fuel opts t Hsplit Hfail Hpre Hu Hfuel.
  - destruct fuel as [|fuel]; [lia|].
    subst t. rewrite Nat.add_0_r in *.
    cbn [reconnectLoop]. unfold bind at 1. unfold reconnect, bind at 1.
    fold opts. rewrite Hsplit.
    by rewrite redialLoop_first_success.
  - destruct fuel as [|fuel]; [lia|].
    destruct Hfail as [Hround Hfail].
    rewrite reconnectLoop_failed_round.
    2: { fold opts. rewrite Hsplit. by destruct pre. }
    2: { done. }
    fold opts.
    rewrite (IH (log ++ failed_round opts) pre u post fuel).
    + rewrite length_app. subst t. cbn [replicate concat].
      rewrite <- !app_assoc. unfold opts.
      do 4 f_equal. lia.
    + done.
    + by rewrite length_app.
    + rewrite length_app. subst t. unfold opts in *.
      match goal with
      | |- context [reattempts _ _ ?n _] =>
          replace n with (length log + S k * length (failed_round (ROptions r)))%nat
            by lia
      end. done.
    + rewrite length_app. subst t. unfold opts in *.
      match goal with
      | |- reply _ ?n _ = _ =>
          replace n
            with (length log + S k * length (failed_round (ROptions r))
                  + length pre)%nat by lia
      end. done.
    + lia.
Qed.

End Reconnecting.

(** ** The turns of the watcher *)

(** The watcher does not look at a part of the instance that none of
    its steps reads: a change [g] of the instance that leaves alone what
    the watcher reads and commutes with what it writes can as well be made
    after the turn. *)
Section Frame.

Variable env : Env.
Variable g : Rabbit → Rabbit.

Hypothesis g_Conn : ∀ r, Conn (g r) = Conn r.
Hypothesis g_ROptions : ∀ r, ROptions (g r) = ROptions r.
Hypothesis g_ConsumerRWMutex : ∀ r, ConsumerRWMutex (g r) = ConsumerRWMutex r.
Hypothesis g_ProducerRWMutex : ∀ r, ProducerRWMutex (g r) = ProducerRWMutex r.
Hypothesis g_ConsumerDeliveryChannel :
  ∀ r, ConsumerDeliveryChannel (g r) = ConsumerDeliveryChannel r.
Hypothesis g_set_Conn : ∀ c r, set_Conn c (g r) = g (set_Conn c r).
Hypothesis g_set_channels : ∀ p c r, set_channels p c (g r) = g (set_channels p c r).
Hypothesis g_set_NotifyCloseChan :
  ∀ c r, set_NotifyCloseChan c (g r) = g (set_NotifyCloseChan c r).
Hypothesis g_set_session_locks :
  ∀ b r, set_session_locks b (g r) = g (set_session_locks b r).
Hypothesis g_set_ConsumerRWMutex :
  ∀ b r, set_ConsumerRWMutex b (g r) = g (set_ConsumerRWMutex b r).

Lemma newServerChannel_frame r log :
  newServerChannel env (g r) log = newServerChannel env r log.
Proof. unfold newServerChannel. by rewrite g_Conn, g_ROptions. Qed.

Lemma newConsumerChannel_frame r log :
  newConsumerChannel env (g r) log
  = (let '(r', e, l) := newConsumerChannel env r log in (g r', e, l)).
Proof.
  unfold newConsumerChannel, bind.
  rewrite newServerChannel_frame, g_ROptions.
  destruct (newServerChannel env r log) as [[[ch|] [e|]] log1]; try done.
  unfold perform, ret. destruct (reply env _ _); [done|].
  by rewrite g_set_channels.
Qed.

Lemma reconnectLoop_frame fuel :
  ∀ r log,
    reconnectLoop env fuel (g r) log
    = (let '(r', l) := reconnectLoop env fuel r log in (g <$> r', l)).
Proof.
  induction fuel as [|fuel IH]; intros r log; [done|].
  cbn [reconnectLoop]. unfold bind at 1 3. unfold reconnect, bind at 1 3.
  rewrite g_ROptions.
  destruct (redialLoop env _ _ None None log) as [[ac [e|]] log2].
  - unfold ret at 1 3. unfold bind at 1 2, emit.
    rewrite g_ROptions. apply IH.
  - unfold ret. simpl. by rewrite g_set_Conn.
Qed.

Lemma renewSession_frame c r log :
  renewSession env c (g r) log
  = (let '(r', e, l) := renewSession env c r log in (g r', e, l)).
Proof.
  unfold renewSession. unfold bind at 1 3. unfold perform at 1 2.
  rewrite g_ROptions. case_bool_decide.
  - unfold bind. rewrite newServerChannel_frame.
    destruct (newServerChannel env r _) as [[ch [e|]] log1]; [done|].
    unfold ret, set_producer.
    by rewrite g_ConsumerDeliveryChannel, g_set_channels.
  - apply newConsumerChannel_frame.
Qed.

Lemma rebuild_frame fuel r log :
  rebuild env fuel (g r) log
  = (let '(ending, r', l) := rebuild env fuel r log in (ending, g r', l)).
Proof.
  unfold rebuild. rewrite g_ConsumerRWMutex, g_ProducerRWMutex.
  destruct (ConsumerRWMutex r); [done|].
  destruct (ProducerRWMutex r); [by rewrite g_set_ConsumerRWMutex|].
  unfold bind at 1 3. rewrite g_set_session_locks, reconnectLoop_frame.
  destruct (reconnectLoop env fuel (set_session_locks true r) log)
    as [[r1|] log1]; [|done].
  cbn [fmap option_fmap option_map].
  rewrite g_Conn, g_set_NotifyCloseChan, g_Conn.
  destruct (Conn (set_NotifyCloseChan (Conn r1) r1)) as [c|]; [|done].
  unfold bind. rewrite renewSession_frame.
  destruct (renewSession env c _ log1) as [[r2 [e|]] log2]; [done|].
  unfold ret. by rewrite g_set_session_locks.
Qed.

Hypothesis g_ReconnectInProgress :
  ∀ r, ReconnectInProgress (g r) = ReconnectInProgress r.
Hypothesis g_ReconnectInProgressMtx :
  ∀ r, ReconnectInProgressMtx (g r) = ReconnectInProgressMtx r.
Hypothesis g_set_in_progress : ∀ b r, set_in_progress b (g r) = g (set_in_progress b r).
Hypothesis g_set_ReconnectInProgress :
  ∀ b r, set_ReconnectInProgress b (g r) = g (set_ReconnectInProgress b r).
Hypothesis g_take_signal : ∀ r, take_signal (g r) = g (take_signal r).

Lemma watcherTurn_frame fuel ev r log :
  watcherTurn env fuel ev (g r) log
  = (let '(ending, r', log') := watcherTurn env fuel ev r log in
     (ending, g r', log')).
Proof.
  assert (∀ r0,
            watcherTurn env fuel NotifyClose (g r0) log
            = (let '(ending, r', log') := watcherTurn env fuel NotifyClose r0 log in
               (ending, g r', log'))) as Hproceed.
  { intros r0. unfold watcherTurn, bind. rewrite rebuild_frame.
    destruct (rebuild env fuel r0 log) as [[[e|] r1] log1]; [done|].
    rewrite g_ReconnectInProgress, g_ReconnectInProgressMtx.
    destruct (ReconnectInProgress r1); [|done].
    destruct (ReconnectInProgressMtx r1); unfold ret;
      by rewrite ?g_set_in_progress, ?g_set_ReconnectInProgress. }
  destruct ev; [apply Hproceed|].
  assert (∀ r0,
            watcherTurn env fuel ReconnectSignal r0 log
            = match getReconnectInProgress (take_signal r0) with
              | None => (Some Blocked, take_signal r0, log)
              | Some true => (Some Returned, take_signal r0, log)
              | Some false =>
                  watcherTurn env fuel NotifyClose
                    (set_in_progress true (take_signal r0)) log
              end) as Hsig.
  { intros r0. unfold watcherTurn.
    by destruct (getReconnectInProgress (take_signal r0)) as [[]|]. }
  rewrite !Hsig. unfold getReconnectInProgress.
  rewrite g_take_signal, g_ReconnectInProgressMtx, g_ReconnectInProgress.
  destruct (ReconnectInProgressMtx (take_signal r)); [done|].
  destruct (ReconnectInProgress (take_signal r)); [done|].
  rewrite g_set_in_progress. apply Hproceed.
Qed.


End Frame.

Section Turns.

Variable env : Env.

Lemma redial_is_redial opts u : is_redial_or_sleep (redial_of opts u) = true.
Proof. unfold redial_of. by destruct (UseTLS opts). Qed.

(** How the dial loop of [reconnect] can end. *)
Lemma redialLoop_shape urls opts :
  ∀ ac err log,
  ∃ ac' err' rest,
    redialLoop env urls opts ac err log = (ac', err', log ++ rest)
    ∧ Forall (λ e, is_redial_or_sleep e = true) rest
    ∧ ((urls = [] ∧ ac' = ac ∧ err' = err ∧ rest = [])
       ∨ (urls ≠ [] ∧ ∃ e, err' = Some e)
       ∨ (∃ pre u,
            err' = None ∧ rest = pre ++ [redial_of opts u] ∧ u ∈ urls
            ∧ ac' = Some (length log + length pre)%nat
            ∧ reply env (length log + length pre) (redial_of opts u) = None)).
Proof.
  induction urls as [|p urls IH]; intros ac err log.
  { exists ac, err, []. rewrite app_nil_r. split; [done|]. split; [done|]. by left. }
  rewrite redialLoop_cons.
  destruct (reply env (length log) (redial_of opts p)) as [e|] eqn:Hrep.
  - destruct (IH None (Some e) (log ++ [redial_of opts p]))
      as (ac' & err' & rest & -> & F & H).
    exists ac', err', (redial_of opts p :: rest).
    split; [by rewrite <- app_assoc|].
    split; [apply Forall_cons_2; [apply redial_is_redial | done]|].
    right. destruct H as [(-> & -> & -> & ->) | [[_ [e' ->]] | (pre & u & -> & -> & Hu & -> & Hr)]].
    + left. split; [done|]. by exists e.
    + left. split; [done|]. by exists e'.
    + right. exists (redial_of opts p :: pre), u.
      rewrite length_app, Nat.add_1_r in Hr |- *.
      split; [done|]. split; [done|]. split; [by right|].
      simpl. replace (length log + S (length pre))%nat
        with (S (length log) + length pre)%nat by lia. done.
  - exists (Some (length log)), None, [redial_of opts p].
    split; [done|].
    split; [apply Forall_cons_2; [apply redial_is_redial | done]|].
    right. right. exists [], p. simpl. rewrite Nat.add_0_r.
    repeat split; try done. by left.
Qed.

(** How the reconnect loop of the watcher ends when it ends: with the
    connection of the first URL that answered, after rounds of redials
    and sleeps. *)
Lemma reconnectLoop_shape fuel :
  ∀ r log r1 log1,
    reconnectLoop env fuel r log = (Some r1, log1) →
    (URLs (ROptions r) = [] ∧ r1 = set_Conn None r ∧ log1 = log)
    ∨ ∃ pre u,
        log1 = log ++ pre ++ [redial_of (ROptions r) u]
        ∧ Forall (λ e, is_redial_or_sleep e = true) pre
        ∧ u ∈ URLs (ROptions r)
        ∧ r1 = set_Conn (Some (length log + length pre)%nat) r
        ∧ reply env (length log + length pre) (redial_of (ROptions r) u) = None.
Proof.
  induction fuel as [|fuel IH]; intros r log r1 log1; [done|].
  cbn [reconnectLoop]. unfold bind at 1. unfold reconnect, bind at 1.
  destruct (redialLoop_shape (URLs (ROptions r)) (ROptions r) None None log)
    as (ac' & err' & rest & -> & F & H).
  destruct H as [(Hu & -> & -> & ->) | [[Hne [e ->]] | (pre & u & -> & -> & Hu & -> & Hr)]].
  - unfold ret. intros [= <- <-]. left. by rewrite app_nil_r.
  - unfold ret at 1. unfold bind at 1, emit. intros HL.
    apply IH in HL as [(Hu & _) | (pre & u & -> & Fp & Hu & -> & Hr)]; [done|].
    right. exists (rest ++ [ESleep (int64 (RetryReconnectSec (ROptions r) * Second))]
                     ++ pre), u.
    rewrite !length_app in Hr |- *. simpl in Hr |- *.
    split; [by rewrite <- !app_assoc|].
    split; [apply Forall_app; split; [done|]; by apply Forall_cons_2|].
    split; [done|].
    replace (length log
             + length (rest ++ ESleep (int64 (RetryReconnectSec (ROptions r) * Second))
                         :: pre))%nat
      with (length log + length rest + 1 + length pre)%nat
      by (rewrite length_app; simpl; lia).
    by split.
  - unfold ret. intros [= <- <-]. right. exists pre, u.
    apply Forall_app in F as [F _]. done.
Qed.


(** What that part has done when it reaches the unlocks. *)
Lemma rebuild_result fuel r r' log log' :
  rebuild env fuel r log = (None, r', log') →
  ∃ pre u,
    log' = log ++ pre ++ [redial_of (ROptions r) u]
               ++ renewal (length log + length pre)%nat
                    (length log + length pre + 2)%nat (ROptions r)
    ∧ Forall (λ e, is_redial_or_sleep e = true) pre
    ∧ u ∈ URLs (ROptions r)
    ∧ reply env (length log + length pre) (redial_of (ROptions r) u) = None
    ∧ r' = renewed (length log + length pre)%nat (length log + length pre + 2)%nat r.
Proof.
  unfold rebuild.
  destruct (ConsumerRWMutex r) eqn:Hcl; [done|].
  destruct (ProducerRWMutex r) eqn:Hpl; [done|].
  unfold bind at 1.
  destruct (reconnectLoop env fuel (set_session_locks true r) log)
    as [[r1|] log1] eqn:HL; [|done].
  apply reconnectLoop_shape in HL
    as [(_ & -> & _) | (pre & u & -> & Fp & Hu & -> & Hr)]; [done|].
  cbn [set_Conn set_NotifyCloseChan Conn].
  set (c := (length log + length pre)%nat) in *.
  set (r2 := set_NotifyCloseChan _ _).
  set (log1 := log ++ pre ++ [_]).
  assert (length log1 = S c) as Hlen1.
  { subst log1 c. rewrite !length_app. simpl. lia. }
  unfold bind at 1. unfold renewSession. unfold bind at 1, perform at 1.
  assert (Conn r2 = Some c) as Hc2 by done.
  assert (ROptions r2 = ROptions r) as Ho2 by done.
  assert (length (log1 ++ [ENotifyClose c]) = (c + 2)%nat) as Hlen2.
  { rewrite length_app, Hlen1. simpl. lia. }
  unfold renewal. rewrite Ho2.
  case_bool_decide as Hmode.
  - unfold bind at 1.
    destruct (newServerChannel_result env r2 (log1 ++ [ENotifyClose c]))
      as (res & rest & -> & _ & [(c' & Hc' & -> & ->) | (e & ->)]); [|done].
    rewrite Hc2 in Hc'. injection Hc' as <-.
    rewrite Hlen2, Ho2. unfold ret. intros [= <- <-].
    exists pre, u. fold c.
    split; [subst log1; rewrite app_nil_r; by list_norm|].
    repeat (split; [done|]).
    subst r2. unfold renewed. rewrite bool_decide_true by done.
    cbn. by rewrite ?Hcl, ?Hpl.
  - destruct (newConsumerChannel_outcomes env r2 (log1 ++ [ENotifyClose c]))
      as [(e & rest & -> & _) | (c' & Hc' & -> & _)]; [done|].
    rewrite Hc2 in Hc'. injection Hc' as <-.
    rewrite Hlen2, Ho2. unfold ret. intros [= <- <-].
    exists pre, u. fold c.
    split; [subst log1; by list_norm|].
    repeat (split; [done|]).
    subst r2. unfold renewed. rewrite bool_decide_false by done.
    reflexivity.
Qed.

(** When the first URL answers and every request of the renewal is
    answered without error, that part reaches the unlocks. *)
Lemma rebuild_completes fuel r u urls log :
  ConsumerRWMutex r = false → ProducerRWMutex r = false →
  URLs (ROptions r) = u :: urls →
  reply env (length log) (redial_of (ROptions r) u) = None →
  answered env (length log + 2)%nat
    (session_plan (length log) (length log + 2)%nat (ROptions r)
       ++ (if bool_decide (OMode (ROptions r) = Producer) then []
           else [consume_of (length log + 2)%nat (ROptions r)])) →
  rebuild env (S fuel) r log
  = (None, renewed (length log) (length log + 2)%nat r,
     log ++ [redial_of (ROptions r) u]
         ++ renewal (length log) (length log + 2)%nat (ROptions r)).
Proof.
  intros Hcl Hpl Hurls Hdial Hans.
  unfold rebuild. rewrite Hcl, Hpl.
  unfold bind at 1. cbn [reconnectLoop]. unfold bind at 1. unfold reconnect, bind at 1.
  cbn [ROptions set_session_locks]. rewrite Hurls, redialLoop_cons, Hdial.
  unfold ret at 1 2. cbn [set_Conn set_NotifyCloseChan Conn].
  set (c := length log) in *.
  set (r2 := set_NotifyCloseChan _ _).
  set (log1 := log ++ [_]).
  assert (Conn r2 = Some c) as Hc2 by done.
  assert (ROptions r2 = ROptions r) as Ho2 by done.
  assert (length (log1 ++ [ENotifyClose c]) = (c + 2)%nat) as Hlen2.
  { subst log1 c. rewrite !length_app. simpl. lia. }
  unfold bind at 1. unfold renewSession. unfold bind at 1, perform at 1.
  apply answered_app in Hans as [Hplan Hcons].
  destruct (newServerChannel_follows env r2 c (log1 ++ [ENotifyClose c]) Hc2)
    as [Hok _].
  rewrite Hlen2, Ho2 in Hok. specialize (Hok Hplan).
  unfold renewal. rewrite Ho2.
  case_bool_decide as Hmode.
  - unfold bind at 1. rewrite Hok. unfold ret.
    subst log1. rewrite app_nil_r. list_norm.
    do 2 f_equal.
    subst r2. unfold renewed. rewrite bool_decide_true by done.
    cbn. by rewrite ?Hcl, ?Hpl.
  - unfold newConsumerChannel. unfold bind at 1. rewrite Hok.
    unfold bind, perform, ret. rewrite Ho2.
    fold (consume_of (c + 2)%nat (ROptions r)).
    rewrite length_app, Hlen2.
    pose proof (Hcons 0%nat (consume_of (c + 2)%nat (ROptions r)) eq_refl) as Hrep.
    rewrite Nat.add_0_r in Hrep. rewrite Hrep.
    subst log1. list_norm.
    do 2 f_equal.
    subst r2. unfold renewed. rewrite bool_decide_false by done.
    reflexivity.
Qed.

(** A reconnect signal found with the flag cleared and its lock free is
    handled like a close notification, under the flag. *)
Lemma watcherTurn_signal fuel r log :
  ReconnectInProgress r = false → ReconnectInProgressMtx r = false →
  watcherTurn env fuel ReconnectSignal r log
  = (let '(ending, r', log') := rebuild env fuel (take_signal r) log in
     (ending,
      match ending with
      | None => set_in_progress false (set_in_progress true r')
      | Some _ => set_in_progress true r'
      end, log')).
Proof.
  intros Hf Hm. unfold watcherTurn, getReconnectInProgress.
  cbn [take_signal ReconnectInProgressMtx ReconnectInProgress]. rewrite Hm, Hf.
  unfold bind.
  rewrite (rebuild_frame env (set_in_progress true)); try done.
  by destruct (rebuild env fuel (take_signal r) log) as [[[e|] r1] log1].
Qed.

(** A close notification found with the flag cleared. *)
Lemma watcherTurn_close fuel r log :
  ReconnectInProgress r = false →
  watcherTurn env fuel NotifyClose r log = rebuild env fuel r log.
Proof.
  intros Hf. unfold watcherTurn, bind.
  pose proof (rebuild_frame env (set_ReconnectInProgress false)
                ltac:(done) ltac:(done) ltac:(done) ltac:(done) ltac:(done)
                ltac:(done) ltac:(done) ltac:(done) ltac:(done) ltac:(done)
                fuel r log) as Hfr.
  assert (set_ReconnectInProgress false r = r) as Hr by (destruct r; simpl in *; by subst).
  rewrite Hr in Hfr.
  destruct (rebuild env fuel r log) as [[[e|] r1] log1]; [done|].
  injection Hfr as Hfr. 
  assert (ReconnectInProgress r1 = false) as -> by (by rewrite Hfr).
  done.
Qed.


(** What a turn has done when it reaches the end of the loop body. *)
Lemma watcherTurn_result fuel ev r r' log log' :
  watcherTurn env fuel ev r log = (None, r', log') →
  ∃ pre u,
    log' = log ++ pre ++ [redial_of (ROptions r) u]
               ++ renewal (length log + length pre)%nat
                    (length log + length pre + 2)%nat (ROptions r)
    ∧ Forall (λ e, is_redial_or_sleep e = true) pre
    ∧ u ∈ URLs (ROptions r)
    ∧ reply env (length log + length pre) (redial_of (ROptions r) u) = None
    ∧ r' = after_turn ev (length log + length pre)%nat
             (length log + length pre + 2)%nat r.
Proof.
  destruct ev.
  - unfold watcherTurn, bind.
    destruct (rebuild env fuel r log) as [[[e|] r1] log1] eqn:HR; [done|].
    apply rebuild_result in HR as (pre & u & -> & Fp & Hu & Hr & ->).
    cbn [renewed ReconnectInProgress ReconnectInProgressMtx].
    destruct (ReconnectInProgress r) eqn:Hf.
    + destruct (ReconnectInProgressMtx r) eqn:Hm; [|done].
      unfold ret. intros [= <- <-]. exists pre, u.
      repeat (split; [done|]). unfold after_turn. by rewrite Hf.
    + unfold ret. intros [= <- <-]. exists pre, u.
      repeat (split; [done|]). unfold after_turn, renewed. by rewrite Hf.
  - destruct (ReconnectInProgressMtx r) eqn:Hm.
    { unfold watcherTurn, getReconnectInProgress.
      cbn [take_signal ReconnectInProgressMtx]. by rewrite Hm. }
    destruct (ReconnectInProgress r) eqn:Hf.
    { unfold watcherTurn, getReconnectInProgress.
      cbn [take_signal ReconnectInProgressMtx ReconnectInProgress].
      by rewrite Hm, Hf. }
    rewrite watcherTurn_signal by done.
    destruct (rebuild env fuel (take_signal r) log) as [[[e|] r1] log1] eqn:HR;
      [done|].
    apply rebuild_result in HR as (pre & u & -> & Fp & Hu & Hr & ->).
    intros [= <- <-]. exists pre, u. by repeat (split; [done|]).
Qed.

(** When the watcher is idle, the first URL answers and every request
    of the renewal is answered without error, a turn reaches the end of
    the loop body. *)
Lemma watcherTurn_completes fuel ev r u urls log :
  idle r →
  URLs (ROptions r) = u :: urls →
  reply env (length log) (redial_of (ROptions r) u) = None →
  answered env (length log + 2)%nat
    (session_plan (length log) (length log + 2)%nat (ROptions r)
       ++ (if bool_decide (OMode (ROptions r) = Producer) then []
           else [consume_of (length log + 2)%nat (ROptions r)])) →
  watcherTurn env (S fuel) ev r log
  = (None, after_turn ev (length log) (length log + 2)%nat r,
     log ++ [redial_of (ROptions r) u]
         ++ renewal (length log) (length log + 2)%nat (ROptions r)).
Proof.
  intros (Hf & Hm & Hcl & Hpl) Hurls Hdial Hans.
  destruct ev.
  - rewrite watcherTurn_close by done.
    rewrite (rebuild_completes fuel r u urls log) by done.
    do 2 f_equal. unfold after_turn, renewed. by rewrite Hf, Hm.
  - rewrite watcherTurn_signal by done.
    rewrite (rebuild_completes fuel (take_signal r) u urls log) by done.
    done.
Qed.



(** X20. A turn of the watcher that reaches the end of the loop body has
    redialled until a URL answered, has registered for the close
    notification on the new connection and has carried out the whole plan
    of a session on a new channel of that connection. The instance holds
    the new connection and the new channel as producer session and,
    outside producer mode, as consumer session; both session locks are
    free, the flag is cleared and its lock released if the turn took
    it; options, shutdown mark, cancellation and wait group are as they
    were. An idle watcher reaches the end of the loop body whenever the
    first URL answers and the requests of the session are answered
    without error. *)
Theorem watcherTurn_rebuilds_everything (fuel : nat) (ev : WatcherEvent)
    (r : Rabbit) (log : Log) :
  (∀ r' log',
     watcherTurn env fuel ev r log = (None, r', log') →
     ∃ pre u,
       let c := (length log + length pre)%nat in
       log' = log ++ pre ++ [redial_of (ROptions r) u]
                  ++ renewal c (c + 2)%nat (ROptions r)
       ∧ Forall (λ e, is_redial_or_sleep e = true) pre
       ∧ u ∈ URLs (ROptions r)
       ∧ reply env c (redial_of (ROptions r) u) = None
       ∧ r' = after_turn ev c (c + 2)%nat r)
  ∧ (∀ u urls,
       idle r → fuel ≠ 0%nat →
       URLs (ROptions r) = u :: urls →
       reply env (length log) (redial_of (ROptions r) u) = None →
       answered env (length log + 2)%nat
         (session_plan (length log) (length log + 2)%nat (ROptions r)
            ++ (if bool_decide (OMode (ROptions r) = Producer) then []
                else [consume_of (length log + 2)%nat (ROptions r)])) →
       watcherTurn env fuel ev r log
       = (None, after_turn ev (length log) (length log + 2)%nat r,
          log ++ [redial_of (ROptions r) u]
              ++ renewal (length log) (length log + 2)%nat (ROptions r))).
Proof.
  split.
  - intros r' log' HT. by apply watcherTurn_result in HT.
  - intros u urls Hidle Hfuel Hurls Hdial Hans.
    destruct fuel as [|fuel']; [done|]. by apply (watcherTurn_completes _ _ _ u urls).
Qed.

(** X21. The watcher looks neither at the shutdown mark nor at the
    cancellation: on an instance that [Close] has shut down a turn does
    what it does on the live instance, request for request, and leaves the
    same instance but for the mark. A close notification after [Close]
    thus makes the watcher redial and rebuild the sessions. *)
Theorem watcherTurn_ignores_shutdown (fuel : nat) (ev : WatcherEvent)
    (r : Rabbit) (log : Log) :
  watcherTurn env fuel ev (closed r) log
  = (let '(ending, r', log') := watcherTurn env fuel ev r log in
     (ending, closed r', log')).
Proof. by apply (watcherTurn_frame env closed). Qed.

End Turns.

(** ** The properties at sample inputs *)

(** A [Publish] that returns nil, at the sample instance. *)
Lemma Publish_nil_means_sent_witness :
  let env := counting_env all_fine 0 in
  let r := an_instance Both in
  ∃ ch pre,
    [EPublish 1%nat "ex" "k" "x" "p-rabbit-00000000" None]
    = pre ++ [send_of r ch "k" "x" []]
    ∧ reply env (length pre) (send_of r ch "k" "x" []) = None
    ∧ ProducerServerChannel r = Some ch
    ∧ (r = r ∨ r = set_producer (Some ch) r).
Proof.
  intros env r.
  apply (Publish_nil_means_sent env r r false "k" "x" [] ArmDone []).
  reflexivity.
Defined.

(** The first [Publish] of the sample instance in producer mode. *)
Lemma Publish_builds_session_first_witness :
  let env := counting_env all_fine 0 in
  let r := an_instance Producer in
  Publish env r false "k" "x" [] ArmDone []
  = (set_producer (Some 0%nat) r, None,
     [EChannel 0%nat; EQos 0%nat 0 0;
      EPublish 0%nat "ex" "k" "x" "p-rabbit-00000000" None]).
Proof.
  intros env r.
  apply (proj1 (Publish_builds_session_first env r 0%nat false "k" "x" [] ArmDone []
                  eq_refl ltac:(discriminate) eq_refl eq_refl)).
  intros i e _. reflexivity.
Defined.

(** [Stop], then [Publish], at the sample instance. *)
Lemma Stop_does_not_shut_down_witness :
  let env := counting_env all_fine 0 in
  let r1 := set_cancelled (an_instance Both) in
  cancelled r1 = true ∧ shutdown r1 = false
  ∧ Publish env r1 true "k" "x" [] (ArmCtxDone true) [ECancel]
    = (r1, Some (errors_New "context cancelled"),
       [ECancel; EChanClose 1%nat;
        EPublish 1%nat "ex" "k" "x" "p-rabbit-00000000" None]).
Proof.
  intros env r1.
  destruct (Stop_does_not_shut_down env (an_instance Both) r1 1%nat [] ArmWaited None
              [] [ECancel] eq_refl ltac:(discriminate) eq_refl eq_refl)
    as (_ & _ & Hc & Hs & HP).
  split; [exact Hc|]. split; [exact Hs|].
  exact (HP true "k" "x" [] (ArmCtxDone true)).
Defined.

(** A [Close] that cannot close the connection, at the sample instance. *)
Lemma Close_failure_can_be_retried_witness :
  let env := counting_env no_close 0 in
  let r := an_instance Both in
  Close env r []
  = (set_cancelled r,
     Some (errors_New "unable to close amqp connection: connection reset"),
     [ECancel; EConnClose 0%nat])
  ∧ shutdown (set_cancelled r) = false.
Proof.
  intros env r.
  destruct (Close_failure_can_be_retried env r 0%nat
              (foreign_error "connection reset") [] eq_refl eq_refl eq_refl)
    as (HC & _ & _ & Hs & _).
  split; [exact HC | exact Hs].
Defined.

(** [reconnect] at two endpoints of which the second one answers. *)
Lemma reconnect_takes_first_reachable_witness :
  let env := counting_env
               (λ t e, if bool_decide (t = 0%nat) then Some (foreign_error "refused")
                       else None) 0 in
  let r := set_Conn None (mkRabbit None None false 0 None 0 false false None false
                            two_endpoints false false) in
  reconnect env r []
  = (set_Conn (Some (length ([] : Log) + length ["amqp://a"])%nat) r, None,
     [] ++ map (redial_of (ROptions r)) (["amqp://a"] ++ ["amqp://b"])).
Proof.
  intros env r.
  apply (proj1 (reconnect_takes_first_reachable env r [])
           ["amqp://a"] "amqp://b" [] eq_refl).
  - repeat constructor. by eexists.
  - reflexivity.
Defined.

(** The reconnect loop at a broker that is down for two rounds. *)
Lemma reconnectLoop_retries_until_connected_witness :
  let env := counting_env (down_for 2) 0 in
  let r := an_instance Both in
  reconnectLoop env 3 r []
  = (Some (set_Conn (Some 4%nat) r),
     [EDial "amqp://a"; ESleep (60 * Second);
      EDial "amqp://a"; ESleep (60 * Second);
      EDial "amqp://a"]).
Proof.
  intros env r.
  apply (reconnectLoop_retries_until_connected env r 2 [] [] "amqp://a" [] 3).
  - reflexivity.
  - split; [repeat constructor; by eexists|].
    split; [repeat constructor; by eexists | exact I].
  - constructor.
  - reflexivity.
  - lia.
Defined.

(** A completed turn of the watcher, at the sample instance. *)
Lemma watcherTurn_rebuilds_everything_witness :
  let env := counting_env all_fine 0 in
  let r := an_instance Both in
  watcherTurn env 1 NotifyClose r []
  = (None, after_turn NotifyClose 0%nat 2%nat r,
     [EDial "amqp://a"; ENotifyClose 0%nat; EChannel 0%nat; EQos 2%nat 0 0;
      EQueueBind 2%nat "q" "k" "ex" (Some ∅);
      EConsume 2%nat "q" "c-rabbit-00000000" false false]).
Proof.
  intros env r.
  apply (proj2 (watcherTurn_rebuilds_everything env 1 NotifyClose r [])
           "amqp://a" []).
  - repeat split; reflexivity.
  - discriminate.
  - reflexivity.
  - reflexivity.
  - intros i e _. reflexivity.
Defined.

(** [newServerChannel] at the sample instance, with a broker that
    answers every request and with one that refuses the channel. *)
Lemma newServerChannel_runs_its_plan_witness :
  let r := an_instance Both in
  newServerChannel (counting_env all_fine 0) r []
  = (Some 0%nat, None,
     [EChannel 0%nat; EQos 0%nat 0 0; EQueueBind 0%nat "q" "k" "ex" (Some ∅)])
  ∧ ∃ e, newServerChannel (counting_env no_channel 0) r []
         = (None, Some e, [EChannel 0%nat])
         ∧ foreign_error "channel/connection is not open" ∈ chain e.
Proof.
  intros r. split.
  - apply (proj1 (newServerChannel_runs_its_plan (counting_env all_fine 0) r [])).
    intros i e _. reflexivity.
  - apply (proj2 (newServerChannel_runs_its_plan (counting_env no_channel 0) r [])
             0%nat (EChannel 0%nat) (foreign_error "channel/connection is not open")).
    + reflexivity.
    + reflexivity.
    + intros i e H. cbn in H. discriminate H.
Defined.


